(** * Payment gateway backend: event indexer and webhook service

    A shallow embedding of the backend of the payment gateway
    (database schema and checkpoint of [database/db.ts], the webhook
    service [services/webhookService.ts] and the chain indexer
    [indexer/eventIndexer.ts]) and the properties of its event projection,
    checkpointing and webhook retry policy.

    The SQLite database is a record of tables.  Tables with a primary key
    that the code addresses are finite maps from the key to the remaining
    columns; append-only tables are lists in rowid order.  Every statement
    runs in autocommit mode (the code opens no transaction), so a function
    that throws keeps the writes it made before the throw: effects are a
    state monad whose result is a return value or a thrown error.

    The functions are embedded first as they run when nothing else runs
    between their awaits.  The timers of the backend do not wait for their
    callbacks, so calls do overlap: the second part cuts the code at its
    awaits of the network and lets the pieces interleave. *)

From stdpp Require Import gmap strings list fin_maps.
From Stdlib Require Import ZArith Lia.

Open Scope Z_scope.

(** ** types/types.ts and the schema of database/db.ts *)

Inductive PaymentStatus :=
  | Pending | Completed | Expired | Refunded | Cancelled.

Global Instance PaymentStatus_eq_dec : EqDecision PaymentStatus.
Proof. solve_decision. Defined.

(** The TEXT column [total_payments_received] of [merchants].  It is written
    as ['0'] by the registration and by the update of
    [handlePaymentCompleted] only.  As long as every sum stays within the
    64-bit integers of SQLite it holds the decimal text of an integer,
    [IntegerText].  Past them the database adds in floating point and stores
    the text of a REAL (['1.0e+19']); the next update casts that text to the
    integer in front of its decimal point and adds again.  [RealText total
    amount] stands for the text stored when [amount] was added to [total]
    outside integer arithmetic.  It is not interpreted: equal values stand
    for equal texts, and nothing is derived from two values being
    different unless both are [IntegerText]. *)
Inductive TotalText :=
  | IntegerText (n : Z)
  | RealText (total : TotalText) (amount : Z).

Coercion IntegerText : Z >-> TotalText.

Global Instance TotalText_eq_dec : EqDecision TotalText.
Proof. solve_decision. Defined.

(** A row of [merchants], keyed by [address].  Here and in the other tables
    the bookkeeping column that the schema fills with the insertion time
    ([created_at] of [merchants], [webhook_configs] and
    [webhook_deliveries], [indexed_at] of [payment_intents] and
    [event_logs], [last_indexed_at]) is left out: no statement of the
    code writes it, and only the listing of deliveries, which is not
    embedded here, reads one.  The rows of [merchants] and
    [payment_intents] are the values of the types [Merchant] and
    [PaymentIntent] of types.ts. *)
Record Merchant := mkMerchant {
  business_name : string;
  is_active : bool;
  registered_at : Z;
  total_payments_received : TotalText;
}.

(** A row of [payment_intents], keyed by [payment_id].  The nullable columns
    [payer], [paid_at] and [platform_fee] are options. *)
Record PaymentIntent := mkPaymentIntent {
  merchant : string;
  token_address : string;
  amount : Z;
  expiry_timestamp : Z;
  status : PaymentStatus;
  created_at : Z;
  payer : option string;
  paid_at : option Z;
  platform_fee : option Z;
  block_number : Z;
  transaction_hash : string;
}.

(** A row of [webhook_configs] (rowid order is list order). *)
Record WebhookConfig := mkWebhookConfig {
  wc_id : Z;
  merchant_address : string;
  webhook_url : string;
  secret : string;
  wc_is_active : bool;
}.

Inductive DeliveryStatus := pending | success | failed.

Global Instance DeliveryStatus_eq_dec : EqDecision DeliveryStatus.
Proof. solve_decision. Defined.

(** JSON values of the webhook payloads; [JBig n] is the decimal string
    [n.toString()] of a bigint, [JNum n] a number. *)
Inductive Json := JStr (s : string) | JBig (n : Z) | JNum (n : Z).

Definition Payload : Type := list (string * Json).

(** A row of [webhook_deliveries], keyed by [id]. *)
Record WebhookDelivery := mkWebhookDelivery {
  webhook_config_id : Z;
  payment_id : string;
  event_type : string;
  payload : Payload;
  d_status : DeliveryStatus;
  attempts : Z;
  last_attempt_at : option Z;
  next_retry_at : option Z;
}.

(** The events of [PAYMENT_GATEWAY_ABI] with their decoded arguments. *)
Inductive Event :=
  | MerchantRegistered (merchant businessName : string) (timestamp : Z)
  | MerchantDeactivated (merchant : string) (timestamp : Z)
  | MerchantReactivated (merchant : string) (timestamp : Z)
  | PaymentIntentCreated (paymentId merchant tokenAddress : string)
      (amount expiryTimestamp : Z)
  | PaymentCompleted (paymentId payer merchant : string)
      (amount platformFee timestamp : Z)
  | PaymentRefunded (paymentId merchant payer : string) (amount timestamp : Z)
  | PaymentExpired (paymentId : string) (timestamp : Z)
  | PaymentCancelled (paymentId merchant : string) (timestamp : Z).

Global Instance Event_eq_dec : EqDecision Event.
Proof. solve_decision. Defined.

Definition eventName (e : Event) : string :=
  match e with
  | MerchantRegistered _ _ _ => "MerchantRegistered"
  | MerchantDeactivated _ _ => "MerchantDeactivated"
  | MerchantReactivated _ _ => "MerchantReactivated"
  | PaymentIntentCreated _ _ _ _ _ => "PaymentIntentCreated"
  | PaymentCompleted _ _ _ _ _ _ => "PaymentCompleted"
  | PaymentRefunded _ _ _ _ _ => "PaymentRefunded"
  | PaymentExpired _ _ => "PaymentExpired"
  | PaymentCancelled _ _ _ => "PaymentCancelled"
  end%string.

(** A row of [event_logs] without its rowid; [el_args] stands for the JSON
    text of the arguments, which determines them. *)
Record EventLog := mkEventLog {
  el_block_number : Z;
  el_transaction_hash : string;
  el_event_name : string;
  el_args : Event;
  el_timestamp : Z;
}.

(** The database.  [pragma_foreign_keys] is the connection's foreign-key
    enforcement: db.ts declares FOREIGN KEY clauses and never sets the
    pragma, so it is whatever the driver defaults to; the results below
    cover both values.  The two [_seq] fields are the AUTOINCREMENT counters
    (largest rowid handed out so far). *)
Record DB := mkDB {
  pragma_foreign_keys : bool;
  merchants : gmap string Merchant;
  payment_intents : gmap string PaymentIntent;
  webhook_configs : list WebhookConfig;
  webhook_configs_seq : Z;
  webhook_deliveries : gmap Z WebhookDelivery;
  webhook_deliveries_seq : Z;
  indexer_state : option Z;
  event_logs : list EventLog;
}.

Definition set_merchants (f : gmap string Merchant → gmap string Merchant)
    (db : DB) : DB :=
  mkDB (pragma_foreign_keys db) (f (merchants db)) (payment_intents db)
    (webhook_configs db) (webhook_configs_seq db) (webhook_deliveries db)
    (webhook_deliveries_seq db) (indexer_state db) (event_logs db).

Definition set_payment_intents
    (f : gmap string PaymentIntent → gmap string PaymentIntent) (db : DB) : DB :=
  mkDB (pragma_foreign_keys db) (merchants db) (f (payment_intents db))
    (webhook_configs db) (webhook_configs_seq db) (webhook_deliveries db)
    (webhook_deliveries_seq db) (indexer_state db) (event_logs db).

Definition set_webhook_configs (f : list WebhookConfig → list WebhookConfig)
    (seq : Z) (db : DB) : DB :=
  mkDB (pragma_foreign_keys db) (merchants db) (payment_intents db)
    (f (webhook_configs db)) seq (webhook_deliveries db)
    (webhook_deliveries_seq db) (indexer_state db) (event_logs db).

Definition set_webhook_deliveries
    (f : gmap Z WebhookDelivery → gmap Z WebhookDelivery) (seq : Z)
    (db : DB) : DB :=
  mkDB (pragma_foreign_keys db) (merchants db) (payment_intents db)
    (webhook_configs db) (webhook_configs_seq db) (f (webhook_deliveries db))
    seq (indexer_state db) (event_logs db).

Definition set_indexer_state (s : option Z) (db : DB) : DB :=
  mkDB (pragma_foreign_keys db) (merchants db) (payment_intents db)
    (webhook_configs db) (webhook_configs_seq db) (webhook_deliveries db)
    (webhook_deliveries_seq db) s (event_logs db).

Definition set_event_logs (f : list EventLog → list EventLog) (db : DB) : DB :=
  mkDB (pragma_foreign_keys db) (merchants db) (payment_intents db)
    (webhook_configs db) (webhook_configs_seq db) (webhook_deliveries db)
    (webhook_deliveries_seq db) (indexer_state db) (f (event_logs db)).

(** The database right after [initializeDatabase] on a fresh file. *)
Definition emptyDB (fk : bool) : DB :=
  mkDB fk ∅ ∅ [] 0 ∅ 0 None [].

(** ** Effects: state of the database plus exceptions *)

Inductive Error :=
  | SqliteForeignKey   (* SqliteError: FOREIGN KEY constraint failed *)
  | ProviderError      (* a rejected JSON-RPC call *)
  | RangeError         (* ERR_CRYPTO_TIMING_SAFE_EQUAL_LENGTH *)
  | ParseError         (* parseLog rejected the log *)
  | OutOfFuel.         (* artefact of the bounded loop, see [batchLoop_fuel] *)

Inductive result (A : Type) :=
  | Return (a : A)
  | Throw (e : Error).
Arguments Return {A} a.
Arguments Throw {A} e.

Definition Eff (A : Type) : Type := DB → result A * DB.

Global Instance Eff_ret : MRet Eff := λ A a db, (Return a, db).

Global Instance Eff_bind : MBind Eff := λ A B f m db,
  match m db with
  | (Return a, db') => f a db'
  | (Throw e, db') => (Throw e, db')
  end.

Definition throw {A} (e : Error) : Eff A := λ db, (Throw e, db).
Definition get : Eff DB := λ db, (Return db, db).
Definition modify (f : DB → DB) : Eff unit := λ db, (Return tt, f db).

(** [try { m } catch (error) { console.error(...) }]: the error is logged
    and swallowed; the value says whether one was caught. *)
Definition try_catch (m : Eff unit) : Eff (option Error) := λ db,
  match m db with
  | (Return _, db') => (Return None, db')
  | (Throw e, db') => (Return (Some e), db')
  end.

(** [for (const x of l) { await f(x) }] *)
Fixpoint for_of {A} (l : list A) (f : A → Eff unit) : Eff unit :=
  match l with
  | [] => mret tt
  | x :: l' => f x ;; for_of l' f
  end.

(** ** database/db.ts: the checkpoint *)

(** [row?.last_indexed_block || 0] *)
Definition getLastIndexedBlock (db : DB) : Z :=
  match indexer_state db with
  | Some b => if b =? 0 then 0 else b
  | None => 0
  end.

(** INSERT ... ON CONFLICT(id) DO UPDATE on the singleton row. *)
Definition updateLastIndexedBlock (blockNumber : Z) : Eff unit :=
  modify (set_indexer_state (Some blockNumber)).

(** ** services/webhookService.ts *)

Definition MAX_RETRY_ATTEMPTS : Z := 5.
Definition RETRY_DELAYS : list Z := [60; 300; 900; 3600; 7200].

(** What the network did with one POST: axios rejects on a network error or
    on the 10 s timeout, otherwise there is a response with a status. *)
Inductive Response := NetworkError | TimedOut | Http (status : Z).

(** The outcome of one send attempt: the response and the clock
    ([Date.now()/1000], also the database's [strftime('%s','now')]). *)
Record Attempt := mkAttempt { response : Response; now : Z }.

(** The environment of the sends: the outcome of the attempt made for a
    delivery id.  Within one handler call or one worker tick a delivery is
    sent at most once, so a function of the id covers every behaviour. *)
Definition Net : Type := Z → Attempt.

(** [response.status >= 200 && response.status < 300] *)
Definition is_2xx (r : Response) : bool :=
  match r with
  | Http s => (200 <=? s) && (s <? 300)
  | _ => false
  end.

(** JavaScript indexing of an array by a number: [undefined] out of range. *)
Definition js_index {A} (l : list A) (i : Z) : option A :=
  if i <? 0 then None else l !! Z.to_nat i.

(** [a || b] on an optional number: [undefined] and [0] are falsy. *)
Definition js_or (a : option Z) (b : Z) : Z :=
  match a with
  | Some v => if v =? 0 then b else v
  | None => b
  end.

(** [RETRY_DELAYS[RETRY_DELAYS.length - 1]]; the table is not empty, so the
    default is never taken. *)
Definition lastRetryDelay : Z :=
  default 0 (js_index RETRY_DELAYS (Z.of_nat (length RETRY_DELAYS) - 1)).

(** [RETRY_DELAYS[attempts - 1] || RETRY_DELAYS[RETRY_DELAYS.length - 1]] *)
Definition nextRetryDelay (attempts : Z) : Z :=
  js_or (js_index RETRY_DELAYS (attempts - 1)) lastRetryDelay.

Definition has_config (id : Z) (db : DB) : bool :=
  bool_decide (Exists (λ wc, wc_id wc = id) (webhook_configs db)).

(** INSERT INTO webhook_deliveries ... 'pending': [attempts] takes its
    default 0, [last_attempt_at] and [next_retry_at] are NULL.  With foreign
    keys enforced the insert fails unless both parents exist. *)
Definition createWebhookDelivery (webhookConfigId : Z) (paymentId : string)
    (eventType : string) (payload : Payload) : Eff Z := λ db,
  if pragma_foreign_keys db
     && negb (has_config webhookConfigId db
              && bool_decide (is_Some (payment_intents db !! paymentId)))
  then (Throw SqliteForeignKey, db)
  else
    let id := webhook_deliveries_seq db + 1 in
    let row := mkWebhookDelivery webhookConfigId paymentId eventType payload
                 pending 0 None None in
    (Return id, set_webhook_deliveries (insert id row) id db).

(** The row written by the 2xx branch of [sendWebhook]. *)
Definition delivered (a : Attempt) (d : WebhookDelivery) : WebhookDelivery :=
  mkWebhookDelivery (webhook_config_id d) (payment_id d) (event_type d)
    (payload d) success (attempts d + 1) (Some (now a)) (next_retry_at d).

(** The row written by the catch branch of [sendWebhook]. *)
Definition attempt_failed (a : Attempt) (d : WebhookDelivery) : WebhookDelivery :=
  let attempts' := attempts d + 1 in
  if attempts' >=? MAX_RETRY_ATTEMPTS then
    mkWebhookDelivery (webhook_config_id d) (payment_id d) (event_type d)
      (payload d) failed attempts' (Some (now a)) (next_retry_at d)
  else
    mkWebhookDelivery (webhook_config_id d) (payment_id d) (event_type d)
      (payload d) (d_status d) attempts' (Some (now a))
      (Some (now a + nextRetryDelay attempts')).

(** [sendWebhook(deliveryId)]: the delivery joined with its config; when the
    join is empty the function returns.  Otherwise one POST is made (payload
    and signature are built on the way and leave no trace in the database)
    and the row is updated from its outcome.  Nothing escapes the
    try/catch. *)
Definition sendWebhook (net : Net) (deliveryId : Z) : Eff unit := λ db,
  match webhook_deliveries db !! deliveryId with
  | Some d =>
      if has_config (webhook_config_id d) db then
        let a := net deliveryId in
        let d' := if is_2xx (response a) then delivered a d
                  else attempt_failed a d in
        (Return tt,
         set_webhook_deliveries (insert deliveryId d')
           (webhook_deliveries_seq db) db)
      else (Return tt, db)
  | None => (Return tt, db)
  end.

(** SELECT * FROM webhook_configs WHERE merchant_address = ? AND is_active = 1 *)
Definition activeWebhooks (merchantAddress : string) (db : DB)
    : list WebhookConfig :=
  filter (λ wc, merchant_address wc = merchantAddress ∧ wc_is_active wc = true)
         (webhook_configs db).

Definition triggerWebhook (net : Net) (merchantAddress paymentId : string)
    (eventType : string) (payload : Payload) : Eff unit :=
  db ← get;
  for_of (activeWebhooks merchantAddress db) (λ webhook,
    deliveryId ← createWebhookDelivery (wc_id webhook) paymentId eventType payload;
    sendWebhook net deliveryId).

(** The WHERE clause of the retry worker's SELECT. *)
Definition retry_due (now : Z) (d : WebhookDelivery) : bool :=
  bool_decide (d_status d = pending)
  && match next_retry_at d with
     | Some t => t <=? now
     | None => false
     end
  && (attempts d <? MAX_RETRY_ATTEMPTS).

(** The ids returned by the retry worker's SELECT (the query has no ORDER
    BY; the sends of different deliveries write different rows). *)
Definition pendingRetries (now : Z) (db : DB) : list Z :=
  (filter (λ kd, retry_due now kd.2 = true)
          (map_to_list (webhook_deliveries db))).*1.

(** One firing of the interval callback of [startWebhookRetryWorker]. *)
Definition startWebhookRetryWorker_tick (net : Net) (now : Z) : Eff unit :=
  db ← get;
  for_of (pendingRetries now db) (sendWebhook net).

(** [registerWebhook]: the generated secret is an input.  The insert has a
    foreign key to [merchants]. *)
Definition registerWebhook (merchantAddress webhookUrl secret : string)
    : Eff string := λ db,
  if pragma_foreign_keys db
     && negb (bool_decide (is_Some (merchants db !! merchantAddress)))
  then (Throw SqliteForeignKey, db)
  else
    let id := webhook_configs_seq db + 1 in
    (Return secret,
     set_webhook_configs
       (λ l, l ++ [mkWebhookConfig id merchantAddress webhookUrl secret true])
       id db).

Definition deactivateWebhook (webhookId : Z) : Eff unit :=
  modify (λ db, set_webhook_configs
    (fmap (λ wc, if decide (wc_id wc = webhookId)
                 then mkWebhookConfig (wc_id wc) (merchant_address wc)
                        (webhook_url wc) (secret wc) false
                 else wc))
    (webhook_configs_seq db) db).

(** ** indexer/eventIndexer.ts *)

(** A log as the indexer meets it in one pass: [parseLog] is the outcome of
    [contract.interface.parseLog] (it throws, or returns null for a log that
    matches no ABI event, or the decoded event); [getBlock] is the outcome of
    [provider.getBlock(log.blockNumber)] (the call is rejected, or resolves
    to null, or to a block, of which the timestamp is kept); [dateNow] is
    [Math.floor(Date.now() / 1000)] at the time the log is handled.  The same
    log of the chain met in another pass is another record: block number,
    transaction and data are as before, the answer of [getBlock] and the
    clock need not be. *)
Record Log := mkLog {
  blockNumber : Z;
  transactionHash : string;
  parseLog : result (option Event);
  getBlock : result (option Z);
  dateNow : Z;
}.

(** [block?.timestamp || Math.floor(Date.now() / 1000)], when [getBlock]
    resolves. *)
Definition blockTimestamp (log : Log) : option Z :=
  match getBlock log with
  | Return block => Some (js_or block (dateNow log))
  | Throw _ => None
  end.

(** [Number(x)] for a bigint [x]: the double nearest to [x], ties going to
    the even significand.  The arguments of the events are uint256, far
    below the largest double, so the result is finite; it is an integer,
    equal to [x] up to 2^53 and a multiple of a power of two beyond. *)
Definition Number (x : Z) : Z :=
  let n := Z.log2 (Z.abs x) in
  if n <? 53 then x
  else
    let e := n - 52 in
    let q := Z.shiftr (Z.abs x) e in
    let r := Z.land (Z.abs x) (Z.ones e) in
    let half := Z.shiftl 1 (e - 1) in
    let q' := if (half <? r) || ((r =? half) && Z.odd q) then q + 1 else q in
    Z.sgn x * Z.shiftl q' e.

(** The JSON-RPC provider as seen by one sync pass: [None] is a rejected
    call. *)
Record Provider := mkProvider {
  getBlockNumber : option Z;
  getLogs : Z → Z → option (list Log);
}.

(** A plain INSERT; [event_logs] has no key besides its rowid. *)
Definition storeEventLog (blockNumber : Z) (txHash : string)
    (eventName : string) (args : Event) (timestamp : Z) : Eff unit :=
  modify (set_event_logs
    (λ l, l ++ [mkEventLog blockNumber txHash eventName args timestamp])).

(** INSERT OR REPLACE INTO merchants *)
Definition handleMerchantRegistered (merchant businessName : string)
    (timestamp : Z) : Eff unit :=
  modify (set_merchants
    (insert merchant (mkMerchant businessName true (Number timestamp) 0))).

Definition set_is_active (b : bool) (m : Merchant) : Merchant :=
  mkMerchant (business_name m) b (registered_at m) (total_payments_received m).

Definition handleMerchantDeactivated (merchant : string) : Eff unit :=
  modify (set_merchants (alter (set_is_active false) merchant)).

Definition handleMerchantReactivated (merchant : string) : Eff unit :=
  modify (set_merchants (alter (set_is_active true) merchant)).

(** INSERT OR REPLACE INTO payment_intents: the columns not listed ([payer],
    [paid_at], [platform_fee]) are NULL in the new row.  The insert has a
    foreign key to [merchants]. *)
Definition handlePaymentIntentCreated (net : Net)
    (paymentId merchant tokenAddress : string) (amount expiryTimestamp : Z)
    (blockNumber : Z) (txHash : string) (timestamp : Z) : Eff unit :=
  db ← get;
  if pragma_foreign_keys db
     && negb (bool_decide (is_Some (merchants db !! merchant)))
  then throw SqliteForeignKey
  else
    modify (set_payment_intents
      (insert paymentId
         (mkPaymentIntent merchant tokenAddress amount
            (Number expiryTimestamp) Pending timestamp None None None
            blockNumber txHash))) ;;
    triggerWebhook net merchant paymentId "payment.created"
      [("paymentId", JStr paymentId); ("merchant", JStr merchant);
       ("amount", JBig amount); ("tokenAddress", JStr tokenAddress);
       ("expiryTimestamp", JNum (Number expiryTimestamp));
       ("status", JStr "pending")]%string.

Definition set_status (s : PaymentStatus) (p : PaymentIntent) : PaymentIntent :=
  mkPaymentIntent (merchant p) (token_address p) (amount p)
    (expiry_timestamp p) s (created_at p) (payer p) (paid_at p)
    (platform_fee p) (block_number p) (transaction_hash p).

(** SET status = ?, payer = ?, paid_at = ?, platform_fee = ? *)
Definition set_completed (payer : string) (paidAt platformFee : Z)
    (p : PaymentIntent) : PaymentIntent :=
  mkPaymentIntent (merchant p) (token_address p) (amount p)
    (expiry_timestamp p) Completed (created_at p) (Some payer) (Some paidAt)
    (Some platformFee) (block_number p) (transaction_hash p).

(** The 64-bit integers of SQLite. *)
Definition INT64_MIN : Z := - 2 ^ 63.
Definition INT64_MAX : Z := 2 ^ 63 - 1.

Definition in_int64 (n : Z) : bool := (INT64_MIN <=? n) && (n <=? INT64_MAX).

(** [CAST(text AS INTEGER)] on the decimal text of [n]: an integer beyond
    the 64-bit range is cast to the nearest end of the range. *)
Definition cast_integer (n : Z) : Z := Z.max INT64_MIN (Z.min n INT64_MAX).

(** [CAST(total_payments_received AS INTEGER) + ?], the parameter being the
    text [args.amount.toString()], stored back into the TEXT column.  The
    sum is an integer when the amount and the sum are within 64 bits;
    otherwise the addition is done in floating point. *)
Definition sqlite_add_total (total : TotalText) (amount : Z) : TotalText :=
  match total with
  | IntegerText n =>
      let sum := cast_integer n + amount in
      if in_int64 amount && in_int64 sum then IntegerText sum
      else RealText total amount
  | RealText _ _ => RealText total amount
  end.

(** SET total_payments_received = CAST(total_payments_received AS INTEGER) + ? *)
Definition add_total (amount : Z) (m : Merchant) : Merchant :=
  mkMerchant (business_name m) (is_active m) (registered_at m)
    (sqlite_add_total (total_payments_received m) amount).

Definition handlePaymentCompleted (net : Net)
    (paymentId payer merchant : string) (amount platformFee timestamp : Z)
    : Eff unit :=
  modify (set_payment_intents
    (alter (set_completed payer (Number timestamp) platformFee) paymentId)) ;;
  modify (set_merchants (alter (add_total amount) merchant)) ;;
  triggerWebhook net merchant paymentId "payment.completed"
    [("paymentId", JStr paymentId); ("merchant", JStr merchant);
     ("payer", JStr payer); ("amount", JBig amount);
     ("platformFee", JBig platformFee); ("status", JStr "completed");
     ("timestamp", JNum (Number timestamp))]%string.

Definition handlePaymentRefunded (net : Net) (paymentId : string) (amount : Z)
    : Eff unit :=
  modify (set_payment_intents (alter (set_status Refunded) paymentId)) ;;
  db ← get;
  match payment_intents db !! paymentId with
  | Some payment =>
      triggerWebhook net (merchant payment) paymentId "payment.refunded"
        [("paymentId", JStr paymentId); ("amount", JBig amount);
         ("status", JStr "refunded")]%string
  | None => mret tt
  end.

Definition handlePaymentExpired (net : Net) (paymentId : string) : Eff unit :=
  modify (set_payment_intents (alter (set_status Expired) paymentId)) ;;
  db ← get;
  match payment_intents db !! paymentId with
  | Some payment =>
      triggerWebhook net (merchant payment) paymentId "payment.expired"
        [("paymentId", JStr paymentId); ("status", JStr "expired")]%string
  | None => mret tt
  end.

Definition handlePaymentCancelled (net : Net) (paymentId merchant : string)
    : Eff unit :=
  modify (set_payment_intents (alter (set_status Cancelled) paymentId)) ;;
  triggerWebhook net merchant paymentId "payment.cancelled"
    [("paymentId", JStr paymentId); ("status", JStr "cancelled")]%string.

(** The switch of [handleEvent] on the event name. *)
Definition dispatch (net : Net) (e : Event) (blockNumber : Z) (txHash : string)
    (timestamp : Z) : Eff unit :=
  match e with
  | MerchantRegistered m n t => handleMerchantRegistered m n t
  | MerchantDeactivated m _ => handleMerchantDeactivated m
  | MerchantReactivated m _ => handleMerchantReactivated m
  | PaymentIntentCreated p m tok a x =>
      handlePaymentIntentCreated net p m tok a x blockNumber txHash timestamp
  | PaymentCompleted p c m a f t => handlePaymentCompleted net p c m a f t
  | PaymentRefunded p _ _ a _ => handlePaymentRefunded net p a
  | PaymentExpired p _ => handlePaymentExpired net p
  | PaymentCancelled p m _ => handlePaymentCancelled net p m
  end.

Definition handleEvent (net : Net) (e : Event) (log : Log) : Eff unit :=
  match getBlock log with
  | Throw error => throw error
  | Return block =>
      let timestamp := js_or block (dateNow log) in
      storeEventLog (blockNumber log) (transactionHash log) (eventName e) e
        timestamp ;;
      dispatch net e (blockNumber log) (transactionHash log) timestamp
  end.

(** The body of the per-log try block of [processBlockRange]. *)
Definition processLog (net : Net) (log : Log) : Eff unit :=
  match parseLog log with
  | Throw e => throw e
  | Return None => mret tt
  | Return (Some e) => handleEvent net e log
  end.

(** The loop of [processBlockRange] over the fetched logs; the value is the
    list of errors that the per-log catch logged. *)
Fixpoint processLogs (net : Net) (logs : list Log) : Eff (list Error) :=
  match logs with
  | [] => mret []
  | log :: rest =>
      caught ← try_catch (processLog net log);
      errors ← processLogs net rest;
      mret (option_list caught ++ errors)
  end.

Definition processBlockRange (provider : Provider) (net : Net)
    (fromBlock toBlock : Z) : Eff (list Error) :=
  match getLogs provider fromBlock toBlock with
  | None => throw ProviderError
  | Some logs => processLogs net logs
  end.

Definition batchSize : Z := 1000.

(** [for (fromBlock = startBlock; fromBlock <= currentBlock; fromBlock += batchSize)],
    by recursion on a bound on the number of iterations. *)
Fixpoint batchLoop (fuel : nat) (provider : Provider) (net : Net)
    (fromBlock currentBlock : Z) : Eff unit :=
  if fromBlock <=? currentBlock then
    match fuel with
    | O => throw OutOfFuel
    | S fuel' =>
        let toBlock := Z.min (fromBlock + batchSize - 1) currentBlock in
        processBlockRange provider net fromBlock toBlock ;;
        batchLoop fuel' provider net (fromBlock + batchSize) currentBlock
    end
  else mret tt.

(** The block ranges that the loop of a pass queries, in order. *)
Fixpoint batchRanges (fuel : nat) (fromBlock currentBlock : Z) : list (Z * Z) :=
  if fromBlock <=? currentBlock then
    match fuel with
    | O => []
    | S fuel' =>
        (fromBlock, Z.min (fromBlock + batchSize - 1) currentBlock)
        :: batchRanges fuel' (fromBlock + batchSize) currentBlock
    end
  else [].

Definition passFuel (startBlock currentBlock : Z) : nat :=
  Z.to_nat (currentBlock - startBlock + 1).

(** The first block of a pass. *)
Definition firstBlock (this_startBlock lastIndexedBlock currentBlock : Z) : Z :=
  if lastIndexedBlock =? 0 then
    if this_startBlock >? 0 then this_startBlock else currentBlock - 1000
  else lastIndexedBlock + 1.

(** The try block of [syncEvents]. *)
Definition syncEvents_body (this_startBlock : Z) (provider : Provider)
    (net : Net) : Eff unit :=
  match getBlockNumber provider with
  | None => throw ProviderError
  | Some currentBlock =>
      db ← get;
      let lastIndexedBlock := getLastIndexedBlock db in
      let startBlock := firstBlock this_startBlock lastIndexedBlock currentBlock in
      if startBlock >? currentBlock then mret tt
      else
        batchLoop (passFuel startBlock currentBlock) provider net startBlock
          currentBlock ;;
        updateLastIndexedBlock currentBlock
  end.

(** [syncEvents]: one poll pass. *)
Definition syncEvents (this_startBlock : Z) (provider : Provider) (net : Net)
    : Eff (option Error) :=
  try_catch (syncEvents_body this_startBlock provider net).

(** ** services/webhookService.ts: signatures *)

Section Signer.
(** The signed value ([payload: any]) and the two library functions the
    signer is built from: [JSON.stringify] and the hex digest
    [crypto.createHmac('sha256', key).update(msg).digest('hex')].  Strings
    are modelled by their UTF-8 bytes, which is what [Buffer.from] yields. *)
Context {Any : Type}.
Variable JSON_stringify : Any → string.
Variable hmac_sha256_hex : string → string → string.

Definition Buffer_from (s : string) : list Ascii.ascii :=
  String.list_ascii_of_string s.

(** [crypto.timingSafeEqual]: a RangeError on buffers of different byte
    length, their equality otherwise. *)
Definition timingSafeEqual (a b : list Ascii.ascii) : result bool :=
  if decide (length a = length b) then Return (bool_decide (a = b))
  else Throw RangeError.

Definition generateSignature (payload : Any) (secret : string) : string :=
  let payloadString := JSON_stringify payload in
  hmac_sha256_hex secret payloadString.

Definition verifySignature (payload : Any) (signature secret : string)
    : result bool :=
  let expectedSignature := generateSignature payload secret in
  timingSafeEqual (Buffer_from signature) (Buffer_from expectedSignature).
End Signer.

(** ** The retry selection as the specification words it *)

(** Specification, section 4.5: a tick selects the deliveries with
    [status = pending], [attempts < maxAttempts] and [nextRetryAt] null or
    not after [now]. *)
Definition spec_due (now : Z) (d : WebhookDelivery) : bool :=
  bool_decide (d_status d = pending)
  && (attempts d <? MAX_RETRY_ATTEMPTS)
  && match next_retry_at d with
     | None => true
     | Some t => t <=? now
     end.

(** The dedup key of the specification for a stored event. *)
Definition dedup_key (r : EventLog) : Z * string * string * Event :=
  (el_block_number r, el_transaction_hash r, el_event_name r, el_args r).

(** ** Relations between the database before and after an operation *)

(** An effect keeps a relation when every run relates the database it
    started from with the one it leaves, whether it returns or throws. *)
Definition preserves (R : relation DB) {A} (m : Eff A) : Prop :=
  ∀ db, R db (m db).2.

(** Everything but the delivery table is as before. *)
Definition same_but_deliveries (db db' : DB) : Prop :=
  pragma_foreign_keys db' = pragma_foreign_keys db
  ∧ merchants db' = merchants db
  ∧ payment_intents db' = payment_intents db
  ∧ webhook_configs db' = webhook_configs db
  ∧ webhook_configs_seq db' = webhook_configs_seq db
  ∧ indexer_state db' = indexer_state db
  ∧ event_logs db' = event_logs db.

(** The foreign-key enforcement is as before. *)
Definition same_pragma (db db' : DB) : Prop :=
  pragma_foreign_keys db' = pragma_foreign_keys db.

(** The checkpoint row is as before. *)
Definition same_checkpoint (db db' : DB) : Prop :=
  indexer_state db' = indexer_state db.

(** The invariant of the delivery table: ids come from the AUTOINCREMENT
    counter, the attempt count is within bounds, and a pending row has
    attempts left. *)
Definition deliveries_ok (db : DB) : Prop :=
  ∀ id d, webhook_deliveries db !! id = Some d →
    id ≤ webhook_deliveries_seq db
    ∧ 0 ≤ attempts d ≤ MAX_RETRY_ATTEMPTS
    ∧ (d_status d = pending → attempts d < MAX_RETRY_ATTEMPTS).

(** A delivery whose status is [success] or [failed]. *)
Definition terminal (d : WebhookDelivery) : Prop := d_status d ≠ pending.

(** From a database with a well-formed delivery table the operation leaves
    one, hands out only larger ids, and keeps every terminal row as it is. *)
Definition keeps_deliveries (db db' : DB) : Prop :=
  deliveries_ok db →
    deliveries_ok db'
    ∧ webhook_deliveries_seq db ≤ webhook_deliveries_seq db'
    ∧ ∀ id d, webhook_deliveries db !! id = Some d → terminal d →
        webhook_deliveries db' !! id = Some d.

(** ** The operations that change the database, run one after the other,
    and the states they reach.  (The interleavings of the awaits of these
    operations are the subject of [async_step] further down.) *)

Inductive step : DB → DB → Prop :=
  | step_syncEvents this_startBlock provider net db :
      step db (syncEvents this_startBlock provider net db).2
  | step_retryWorker net now db :
      step db (startWebhookRetryWorker_tick net now db).2
  | step_registerWebhook merchantAddress webhookUrl secret db :
      step db (registerWebhook merchantAddress webhookUrl secret db).2
  | step_deactivateWebhook webhookId db :
      step db (deactivateWebhook webhookId db).2.

Definition reachable (db : DB) : Prop :=
  ∃ fk, rtc step (emptyDB fk) db.

(** ** Concrete databases and inputs used in the examples below *)

Definition db_retry_due : DB :=
  mkDB true ∅ ∅ [mkWebhookConfig 1 "0xM" "https://m.example/hook" "s" true] 1
    {[ 1 := mkWebhookDelivery 1 "0xP" "payment.created" [] pending 1
              (Some 1000) (Some 1060) ]} 1 None [].

Definition delivery_unsent : WebhookDelivery :=
  mkWebhookDelivery 1 "0xP" "payment.created" [] pending 0 None None.

Definition db_unsent : DB :=
  mkDB true ∅ ∅ [mkWebhookConfig 1 "0xM" "https://m.example/hook" "s" true] 1
    {[ 1 := delivery_unsent ]} 1 None [].

(** A stand-in digest function of the right length, for the example of
    [verifySignature] below. *)
Definition zero_digest (key msg : string) : string :=
  "0000000000000000000000000000000000000000000000000000000000000000".

Definition event_row : EventLog :=
  mkEventLog 100 "0xT" "PaymentExpired" (PaymentExpired "0xP" 1700) 1700.

Definition store_event : Eff unit :=
  storeEventLog 100 "0xT" "PaymentExpired" (PaymentExpired "0xP" 1700) 1700.

Definition db_merchant_paid : DB :=
  mkDB true {[ "0xM" := mkMerchant "Shop" true 1600 100 ]} ∅ [] 0 ∅ 0 None [].

(** A merchant [0xM] registers, creates the payment intent [0xP] for 100
    (block 100), subscribes a webhook, and the payer [0xC] completes the
    payment (block 105).  The endpoint answers 200. *)
Definition log_registered : Log :=
  mkLog 100 "0xT1" (Return (Some (MerchantRegistered "0xM" "Shop" 1600)))
    (Return (Some 1600)) 2000.

Definition log_created : Log :=
  mkLog 100 "0xT2"
    (Return (Some (PaymentIntentCreated "0xP" "0xM" "0xUSDT" 100 9999)))
    (Return (Some 1600)) 2000.

Definition log_completed : Log :=
  mkLog 105 "0xT3"
    (Return (Some (PaymentCompleted "0xP" "0xC" "0xM" 100 1 1700)))
    (Return (Some 1700)) 2000.

Definition log_expired : Log :=
  mkLog 110 "0xT4" (Return (Some (PaymentExpired "0xP" 1800)))
    (Return (Some 1800)) 2000.

Definition net_200 : Net := λ _, mkAttempt (Http 200) 2000.
Definition net_500 : Net := λ _, mkAttempt (Http 500) 2000.

Definition provider_100 : Provider :=
  mkProvider (Some 100) (λ _ _, Some [log_registered; log_created]).

Definition provider_105 : Provider :=
  mkProvider (Some 105) (λ _ _, Some [log_completed]).

Definition db_created (fk : bool) : DB :=
  (registerWebhook "0xM" "https://m.example/hook" "s3cr3t"
     (syncEvents 100 provider_100 net_200 (emptyDB fk)).2).2.

Definition db_completed (fk : bool) : DB :=
  (syncEvents 100 provider_105 net_200 (db_created fk)).2.

(** The deliveries that [triggerWebhook] adds for an event of a payment: one
    per active subscription of the merchant, under the next ids of the
    delivery table, each already attempted once. *)
Definition enqueued (db db' : DB) (merchantAddress paymentId eventType : string)
    (body : Payload) : Prop :=
  ∀ (i : nat) wc, activeWebhooks merchantAddress db !! i = Some wc →
    webhook_deliveries db !! (webhook_deliveries_seq db + 1 + Z.of_nat i) = None
    ∧ ∃ d, webhook_deliveries db' !! (webhook_deliveries_seq db + 1 + Z.of_nat i)
           = Some d
           ∧ webhook_config_id d = wc_id wc
           ∧ payment_id d = paymentId
           ∧ event_type d = eventType
           ∧ payload d = body
           ∧ attempts d = 1.

(** ** The projection as a function of the two projected tables

    The writes of the handlers to [merchants] and [payment_intents], read
    off the handlers above; [dispatch_merchants] and
    [dispatch_payment_intents] below prove that the handlers do exactly
    this. *)

Definition project_merchants (e : Event) (M : gmap string Merchant)
    : gmap string Merchant :=
  match e with
  | MerchantRegistered m n t => <[m := mkMerchant n true (Number t) 0]> M
  | MerchantDeactivated m _ => alter (set_is_active false) m M
  | MerchantReactivated m _ => alter (set_is_active true) m M
  | PaymentCompleted _ _ m a _ _ => alter (add_total a) m M
  | _ => M
  end.

Definition project_payments (e : Event) (blockNumber : Z) (txHash : string)
    (timestamp : Z) (P : gmap string PaymentIntent) : gmap string PaymentIntent :=
  match e with
  | PaymentIntentCreated p m tok a x =>
      <[p := mkPaymentIntent m tok a (Number x) Pending timestamp None None
               None blockNumber txHash]> P
  | PaymentCompleted p c _ _ f t => alter (set_completed c (Number t) f) p P
  | PaymentRefunded p _ _ _ _ => alter (set_status Refunded) p P
  | PaymentExpired p _ => alter (set_status Expired) p P
  | PaymentCancelled p _ _ => alter (set_status Cancelled) p P
  | _ => P
  end.

(** The insert of a PaymentIntentCreated event is rejected by the foreign
    key to [merchants], given the enforcement and the merchant table. *)
Definition rejected (fk : bool) (M : gmap string Merchant) (e : Event) : bool :=
  match e with
  | PaymentIntentCreated _ m _ _ _ =>
      fk && negb (bool_decide (is_Some (M !! m)))
  | _ => false
  end.

Definition insert_rejected (e : Event) (db : DB) : bool :=
  rejected (pragma_foreign_keys db) (merchants db) e.

(** The three columns that PaymentCompleted fills in. *)
Definition payer_columns (r : PaymentIntent)
    : option string * option Z * option Z :=
  (payer r, paid_at r, platform_fee r).

(** The events that write the payer columns of payment [p]. *)
Definition writes_payer_columns (p : string) (e : Event) : bool :=
  match e with
  | PaymentIntentCreated p' _ _ _ _ => bool_decide (p' = p)
  | PaymentCompleted p' _ _ _ _ _ => bool_decide (p' = p)
  | _ => false
  end.

Definition row_completed : PaymentIntent :=
  mkPaymentIntent "0xM" "0xUSDT" 100 9999 Completed 1600
    (Some "0xC") (Some 1700) (Some 1) 100 "0xT2".

(** A sequence of poll passes, each with the provider and the network it
    meets. *)
Definition syncPasses (this_startBlock : Z) (passes : list (Provider * Net))
    (db : DB) : DB :=
  foldl (λ db pass, (syncEvents this_startBlock pass.1 pass.2 db).2) db passes.

(** Block heights are not negative. *)
Definition height_nonneg (provider : Provider) : Prop :=
  ∀ c, getBlockNumber provider = Some c → 0 ≤ c.

(** The batch of a block range fails (the provider rejects its [getLogs]
    call, the one error of a batch that reaches the catch of [syncEvents];
    an error while one of its logs is handled is caught per log) / is
    fetched. *)
Definition batch_fails (provider : Provider) (range : Z * Z) : Prop :=
  getLogs provider range.1 range.2 = None.

Definition batch_fetched (provider : Provider) (range : Z * Z) : Prop :=
  is_Some (getLogs provider range.1 range.2).

(** The batches of the pass that starts from the checkpoint of [db] when
    the chain is at height [currentBlock]. *)
Definition passRanges (this_startBlock : Z) (db : DB) (currentBlock : Z)
    : list (Z * Z) :=
  let startBlock :=
    firstBlock this_startBlock (getLastIndexedBlock db) currentBlock in
  batchRanges (passFuel startBlock currentBlock) startBlock currentBlock.

(** ** Writes that overwrite

    Seen from one key, a handler either puts a whole row ([Const]) or
    overwrites some columns of the row if there is one ([Patch]). *)

Inductive write (A P : Type) :=
  | Const (a : A)
  | Patch (p : P).
Arguments Const {A P} a.
Arguments Patch {A P} p.

Definition run_write {A P} (apply : P → A → A) (w : write A P)
    (x : option A) : option A :=
  match w with
  | Const a => Some a
  | Patch p => apply p <$> x
  end.

(** [w1] and then [w2], as one write. *)
Definition then_write {A P} (apply : P → A → A) (compose : P → P → P)
    (w1 w2 : write A P) : write A P :=
  match w2, w1 with
  | Const a, _ => Const a
  | Patch q, Const a => Const (apply q a)
  | Patch q, Patch p => Patch (compose q p)
  end.

Definition run_writes {A P} (apply : P → A → A) (ws : list (write A P))
    (x : option A) : option A :=
  foldl (λ x w, run_write apply w x) x ws.

(** The columns of a payment row that the handlers overwrite. *)
Record PaymentPatch := mkPaymentPatch {
  to_status : option PaymentStatus;
  to_payer_columns : option (option string * option Z * option Z);
}.

Definition apply_payment_patch (q : PaymentPatch) (r : PaymentIntent)
    : PaymentIntent :=
  let cols := default (payer_columns r) (to_payer_columns q) in
  mkPaymentIntent (merchant r) (token_address r) (amount r)
    (expiry_timestamp r) (default (status r) (to_status q)) (created_at r)
    cols.1.1 cols.1.2 cols.2 (block_number r) (transaction_hash r).

Definition or_else {A} (a b : option A) : option A :=
  match a with Some _ => a | None => b end.

(** [q] after [p]. *)
Definition compose_payment_patch (q p : PaymentPatch) : PaymentPatch :=
  mkPaymentPatch (or_else (to_status q) (to_status p))
                 (or_else (to_payer_columns q) (to_payer_columns p)).

(** What an event, handled at the given block, transaction and time, writes
    to the row of payment [p]. *)
Definition payment_write (p : string) (e : Event) (blockNumber : Z)
    (txHash : string) (timestamp : Z) : write PaymentIntent PaymentPatch :=
  let only (p' : string) (w : write PaymentIntent PaymentPatch) :=
    if decide (p' = p) then w else Patch (mkPaymentPatch None None) in
  match e with
  | PaymentIntentCreated p' m tok a x =>
      only p' (Const (mkPaymentIntent m tok a (Number x) Pending timestamp
                        None None None blockNumber txHash))
  | PaymentCompleted p' c _ _ f t =>
      only p' (Patch (mkPaymentPatch (Some Completed)
                        (Some (Some c, Some (Number t), Some f))))
  | PaymentRefunded p' _ _ _ _ =>
      only p' (Patch (mkPaymentPatch (Some Refunded) None))
  | PaymentExpired p' _ => only p' (Patch (mkPaymentPatch (Some Expired) None))
  | PaymentCancelled p' _ _ =>
      only p' (Patch (mkPaymentPatch (Some Cancelled) None))
  | _ => Patch (mkPaymentPatch None None)
  end.

(** The column of a merchant row that the handlers overwrite: [is_active]. *)
Definition apply_merchant_patch (q : option bool) (r : Merchant) : Merchant :=
  mkMerchant (business_name r) (default (is_active r) q) (registered_at r)
    (total_payments_received r).

(** What an event other than a PaymentCompleted of merchant [m] writes to
    the row of [m]. *)
Definition merchant_write (m : string) (e : Event) : write Merchant (option bool) :=
  let only (m' : string) (w : write Merchant (option bool)) :=
    if decide (m' = m) then w else Patch None in
  match e with
  | MerchantRegistered m' n t =>
      only m' (Const (mkMerchant n true (Number t) 0))
  | MerchantDeactivated m' _ => only m' (Patch (Some false))
  | MerchantReactivated m' _ => only m' (Patch (Some true))
  | _ => Patch None
  end.

(** The event is a PaymentCompleted of merchant [m]. *)
Definition completes (m : string) (e : Event) : bool :=
  match e with
  | PaymentCompleted _ _ m' _ _ _ => bool_decide (m' = m)
  | _ => false
  end.

(** The event that [processBlockRange] hands to the handlers for a log, with
    the time it is handled at, if it hands one over. *)
Definition handled (log : Log) : option (Event * Z) :=
  match parseLog log, blockTimestamp log with
  | Return (Some e), Some timestamp => Some (e, timestamp)
  | _, _ => None
  end.

(** No handled log of the list is a PaymentCompleted of merchant [m]. *)
Definition no_completion (m : string) (logs : list Log) : Prop :=
  Forall (λ log, ∀ e timestamp, handled log = Some (e, timestamp) →
                 completes m e = false) logs.

(** The foreign-key check of the PaymentIntentCreated inserts, along the
    merchant table as the logs are handled. *)
Fixpoint inserts_accepted (fk : bool) (M : gmap string Merchant)
    (logs : list Log) : Prop :=
  match logs with
  | [] => True
  | log :: rest =>
      match handled log with
      | Some (e, _) =>
          rejected fk M e = false
          ∧ inserts_accepted fk (project_merchants e M) rest
      | None => inserts_accepted fk M rest
      end
  end.

Definition log_project_merchants (M : gmap string Merchant) (log : Log)
    : gmap string Merchant :=
  match handled log with
  | Some (e, _) => project_merchants e M
  | None => M
  end.

Definition log_payment_write (p : string) (log : Log)
    : write PaymentIntent PaymentPatch :=
  match handled log with
  | Some (e, timestamp) =>
      payment_write p e (blockNumber log) (transactionHash log) timestamp
  | None => Patch (mkPaymentPatch None None)
  end.

Definition log_merchant_write (m : string) (log : Log)
    : write Merchant (option bool) :=
  match handled log with
  | Some (e, _) => merchant_write m e
  | None => Patch None
  end.

(** ** A block range met a second time

    [log'] is the log [log] of the chain as a later pass meets it: the same
    block, transaction and data, and the provider answers [getBlock] as
    before; the clock has moved on. *)
Definition replays (log log' : Log) : Prop :=
  blockNumber log' = blockNumber log
  ∧ transactionHash log' = transactionHash log
  ∧ parseLog log' = parseLog log
  ∧ getBlock log' = getBlock log.

(** The log is no PaymentIntentCreated whose block is missing (null, or
    with timestamp 0): the [created_at] of the row it writes, if it writes
    one, is the time of its block and not the clock. *)
Definition created_at_block (log : Log) : Prop :=
  match parseLog log, getBlock log with
  | Return (Some (PaymentIntentCreated _ _ _ _ _)), Return None => False
  | Return (Some (PaymentIntentCreated _ _ _ _ _)), Return (Some t) => t ≠ 0
  | _, _ => True
  end.

(** The columns of a merchant row other than the accumulated total. *)
Definition other_columns (r : Merchant) : string * bool * Z :=
  (business_name r, is_active r, registered_at r).

(** A handled log of the list is a registration of merchant [m]. *)
Definition registered_in (m : string) (logs : list Log) : Prop :=
  Exists (λ log, ∃ n t timestamp,
            handled log = Some (MerchantRegistered m n t, timestamp)) logs.

(** The creation of [0xP] in a block that the provider does not return, met
    at clock 2000 and again at clock 2030. *)
Definition log_created_no_block (clock : Z) : Log :=
  mkLog 100 "0xT2"
    (Return (Some (PaymentIntentCreated "0xP" "0xM" "0xUSDT" 100 9999)))
    (Return None) clock.

(** A log met again at a later clock, and the provider of the running
    example as a later pass meets it. *)
Definition later (clock : Z) (log : Log) : Log :=
  mkLog (blockNumber log) (transactionHash log) (parseLog log) (getBlock log)
    clock.

Definition provider_100_later : Provider :=
  mkProvider (Some 100)
    (λ _ _, Some [later 2030 log_registered; later 2030 log_created]).

(** A range in which the payment intent precedes the registration of its
    merchant. *)
Definition logs_created_first : list Log := [log_created; log_registered].

(** ** Further functions of services/webhookService.ts *)

(** SELECT * FROM webhook_configs WHERE merchant_address = ? *)
Definition getWebhooksByMerchant (merchantAddress : string) (db : DB)
    : list WebhookConfig :=
  filter (λ wc, merchant_address wc = merchantAddress) (webhook_configs db).

(** The row that [sendWebhook] writes back after an attempt: the 2xx branch
    or the catch branch. *)
Definition attempt_outcome (a : Attempt) (d : WebhookDelivery)
    : WebhookDelivery :=
  if is_2xx (response a) then delivered a d else attempt_failed a d.

(** The object [webhookPayload] that [sendWebhook] signs and posts. *)
Record WebhookPayload := mkWebhookPayload {
  wp_id : Z;
  wp_event : string;
  wp_timestamp : Z;
  wp_data : Payload;
}.

(** The POST of [sendWebhook]: target, body and the three webhook headers
    ([req_timestamp] is the number whose decimal text is the header). *)
Record WebhookRequest := mkWebhookRequest {
  req_url : string;
  req_body : WebhookPayload;
  req_signature : string;
  req_timestamp : Z;
  req_event : string;
}.

Section Request.
Variable JSON_stringify : WebhookPayload → string.
Variable hmac_sha256_hex : string → string → string.

(** The request that [sendWebhook] builds for a delivery joined with its
    config, at the given time. *)
Definition webhookRequest (deliveryId : Z) (d : WebhookDelivery)
    (wc : WebhookConfig) (timestamp : Z) : WebhookRequest :=
  let webhookPayload :=
    mkWebhookPayload deliveryId (event_type d) timestamp (payload d) in
  let signature :=
    generateSignature JSON_stringify hmac_sha256_hex webhookPayload (secret wc) in
  mkWebhookRequest (webhook_url wc) webhookPayload signature timestamp
    (event_type d).
End Request.

(** The config table changes only by registration and deactivation: every
    config keeps its place, id, merchant, url and secret, and an inactive one
    stays inactive. *)
Definition configs_extend (db db' : DB) : Prop :=
  ∀ (i : nat) wc, webhook_configs db !! i = Some wc →
    ∃ wc', webhook_configs db' !! i = Some wc'
           ∧ wc_id wc' = wc_id wc
           ∧ merchant_address wc' = merchant_address wc
           ∧ webhook_url wc' = webhook_url wc
           ∧ secret wc' = secret wc
           ∧ (wc_is_active wc = false → wc_is_active wc' = false).

(** The config table and its counter are as before. *)
Definition same_configs (db db' : DB) : Prop :=
  webhook_configs db' = webhook_configs db
  ∧ webhook_configs_seq db' = webhook_configs_seq db.

(** The invariant of the config table: ids are distinct and come from the
    AUTOINCREMENT counter. *)
Definition configs_ok (db : DB) : Prop :=
  NoDup (wc_id <$> webhook_configs db)
  ∧ 0 ≤ webhook_configs_seq db
  ∧ ∀ wc, wc ∈ webhook_configs db → 1 ≤ wc_id wc ≤ webhook_configs_seq db.

(** Nothing is deleted: the keys of the keyed tables, the config list and
    the event log only grow. *)
Definition grows (db db' : DB) : Prop :=
  dom (merchants db) ⊆ dom (merchants db')
  ∧ dom (payment_intents db) ⊆ dom (payment_intents db')
  ∧ dom (webhook_deliveries db) ⊆ dom (webhook_deliveries db')
  ∧ (length (webhook_configs db) ≤ length (webhook_configs db'))%nat
  ∧ event_logs db `prefix_of` event_logs db'.

(** ** Further definitions for the indexer *)

(** The event log is as before. *)
Definition same_event_logs (db db' : DB) : Prop :=
  event_logs db' = event_logs db.

(** The row that [handleEvent] stores for a log, if the log is handled. *)
Definition log_row (log : Log) : option EventLog :=
  match handled log with
  | Some (e, timestamp) =>
      Some (mkEventLog (blockNumber log) (transactionHash log) (eventName e) e
              timestamp)
  | None => None
  end.

(** The event is a registration of merchant [m]. *)
Definition registers (m : string) (e : Event) : bool :=
  match e with
  | MerchantRegistered m' _ _ => bool_decide (m' = m)
  | _ => false
  end.

(** No handled log of the list is a registration of merchant [m]. *)
Definition no_registration (m : string) (logs : list Log) : Prop :=
  Forall (λ log, ∀ e timestamp, handled log = Some (e, timestamp) →
                 registers m e = false) logs.

(** The amount that a log completes for merchant [m], and the sum over a
    list of logs. *)
Definition completed_amount (m : string) (log : Log) : Z :=
  match handled log with
  | Some (PaymentCompleted _ _ m' a _ _, _) => if decide (m' = m) then a else 0
  | _ => 0
  end.

Definition completed_total (m : string) (logs : list Log) : Z :=
  foldr (λ log acc, completed_amount m log + acc) 0 logs.

(** The payment row, respectively the merchant row, that an event creates. *)
Definition creates_payment (e : Event) : option string :=
  match e with
  | PaymentIntentCreated p _ _ _ _ => Some p
  | _ => None
  end.

Definition creates_merchant (e : Event) : option string :=
  match e with
  | MerchantRegistered m _ _ => Some m
  | _ => None
  end.

(** The ranges of a pass up to the first one whose fetch fails, and the logs
    fetched for them, in order. *)
Fixpoint fetched_logs (provider : Provider) (ranges : list (Z * Z))
    : list Log :=
  match ranges with
  | [] => []
  | range :: rest =>
      match getLogs provider range.1 range.2 with
      | Some logs => logs ++ fetched_logs provider rest
      | None => []
      end
  end.

Definition all_fetched (provider : Provider) (ranges : list (Z * Z)) : bool :=
  forallb (λ range, bool_decide (is_Some (getLogs provider range.1 range.2)))
          ranges.

(** The ranges tile the blocks from [a] to [c]: each starts where the one
    before ended, none is empty or longer than [batchSize], the last ends at
    [c]. *)
Fixpoint tiles (a c : Z) (ranges : list (Z * Z)) : Prop :=
  match ranges with
  | [] => c < a
  | range :: rest =>
      range.1 = a ∧ a ≤ range.2 ≤ c ∧ range.2 - range.1 < batchSize
      ∧ tiles (range.2 + 1) c rest
  end.

(** ** Further invariants of the delivery table *)

(** Every delivery belongs to a subscription that exists and has been
    attempted: the attempt count is at least 1, the time of the last attempt
    is set, and a pending delivery has its next retry scheduled. *)
Definition deliveries_sent (db : DB) : Prop :=
  ∀ id d, webhook_deliveries db !! id = Some d →
    has_config (webhook_config_id d) db = true
    ∧ 1 ≤ attempts d
    ∧ is_Some (last_attempt_at d)
    ∧ (d_status d = pending → is_Some (next_retry_at d)).

(** What stays of a delivery row: the subscription, the payment, the event
    type and the payload; the attempt count does not go down. *)
Definition same_delivery (d d' : WebhookDelivery) : Prop :=
  webhook_config_id d' = webhook_config_id d
  ∧ payment_id d' = payment_id d
  ∧ event_type d' = event_type d
  ∧ payload d' = payload d
  ∧ attempts d ≤ attempts d'.

(** From a well-formed, fully attempted delivery table the operation leaves
    one, and every delivery that was there is still there with the same
    content. *)
Definition delivers (db db' : DB) : Prop :=
  deliveries_ok db → deliveries_sent db →
    deliveries_ok db' ∧ deliveries_sent db'
    ∧ ∀ id d, webhook_deliveries db !! id = Some d →
        ∃ d', webhook_deliveries db' !! id = Some d' ∧ same_delivery d d'.

(** ** EventIndexer.start and stop *)

(** The state of an [EventIndexer] object besides its configuration: the
    flag [isRunning] and the number of interval timers that [start] has
    set (no code clears one). *)
Record Indexer := mkIndexer {
  isRunning : bool;
  intervals : nat;
}.

(** [start()]: a warning and nothing else when already running; otherwise
    the flag is set, one pass runs, and an interval timer is set. *)
Definition EventIndexer_start (this_startBlock : Z) (provider : Provider)
    (net : Net) (ix : Indexer) (db : DB) : Indexer * DB :=
  if isRunning ix then (ix, db)
  else (mkIndexer true (S (intervals ix)),
        (syncEvents this_startBlock provider net db).2).

(** [stop()] *)
Definition EventIndexer_stop (ix : Indexer) : Indexer :=
  mkIndexer false (intervals ix).

(** One firing of one interval timer. *)
Definition EventIndexer_interval (this_startBlock : Z) (provider : Provider)
    (net : Net) (ix : Indexer) (db : DB) : DB :=
  if isRunning ix then (syncEvents this_startBlock provider net db).2 else db.

(** The timers firing one after the other, each seeing the chain as given
    by one entry of [firings]. *)
Fixpoint EventIndexer_firings (this_startBlock : Z)
    (firings : list (Provider * Net)) (ix : Indexer) (db : DB) : DB :=
  match firings with
  | [] => db
  | (provider, net) :: firings' =>
      EventIndexer_firings this_startBlock firings' ix
        (EventIndexer_interval this_startBlock provider net ix db)
  end.

(** [stop()] followed by [start()], once per entry of [runs]. *)
Fixpoint EventIndexer_restarts (this_startBlock : Z)
    (runs : list (Provider * Net)) (ix : Indexer) (db : DB) : Indexer * DB :=
  match runs with
  | [] => (ix, db)
  | (provider, net) :: runs' =>
      let r := EventIndexer_start this_startBlock provider net
                 (EventIndexer_stop ix) db in
      EventIndexer_restarts this_startBlock runs' r.1 r.2
  end.

(** ** routes/merchantRoutes.ts: the webhook routes *)

Inductive RouteResponse :=
  | Status400 (error : string)
  | Status404 (error : string)
  | Status500
  | Status200 (webhookUrl secret : string).

Section Routes.
(** [new URL(webhookUrl)] does not throw. *)
Variable valid_url : string → bool.

(** POST /merchants/:address/webhooks, for a body whose [webhookUrl] is
    absent or a string; [secret] is the value that [registerWebhook]
    generates. *)
Definition post_merchant_webhooks (address : string)
    (webhookUrl : option string) (secret : string) (db : DB)
    : RouteResponse * DB :=
  match webhookUrl with
  | None => (Status400 "webhookUrl is required", db)
  | Some url =>
      if bool_decide (url = ""%string)
      then (Status400 "webhookUrl is required", db)
      else if negb (valid_url url)
      then (Status400 "Invalid webhook URL format", db)
      else match merchants db !! address with
           | None => (Status404 "Merchant not found", db)
           | Some _ =>
               match registerWebhook address url secret db with
               | (Return s, db') => (Status200 url s, db')
               | (Throw _, db') => (Status500, db')
               end
           end
  end.
End Routes.

(** JavaScript values and objects as far as the webhook list needs them. *)
Inductive JsValue :=
  | JsUndefined
  | JsNumber (n : Z)
  | JsString (s : string).

Global Instance JsValue_eq_dec : EqDecision JsValue.
Proof. solve_decision. Defined.

Definition JsObject : Type := list (string * JsValue).

(** [o.key]: [undefined] for a property the object does not have. *)
Fixpoint js_get (o : JsObject) (key : string) : JsValue :=
  match o with
  | [] => JsUndefined
  | (k, v) :: o' => if decide (k = key) then v else js_get o' key
  end.

(** [JSON.stringify] leaves out the properties whose value is undefined. *)
Definition json_object (o : JsObject) : JsObject :=
  filter (λ kv, kv.2 ≠ JsUndefined) o.

Section WebhookList.
(** The column [created_at] of a config row, which the model of the table
    leaves out. *)
Variable created_at_of : WebhookConfig → Z.

(** A row of [SELECT * FROM webhook_configs] as the driver returns it: an
    object whose properties are the column names. *)
Definition webhook_config_row (wc : WebhookConfig) : JsObject :=
  [("id", JsNumber (wc_id wc));
   ("merchant_address", JsString (merchant_address wc));
   ("webhook_url", JsString (webhook_url wc));
   ("secret", JsString (secret wc));
   ("is_active", JsNumber (if wc_is_active wc then 1 else 0));
   ("created_at", JsNumber (created_at_of wc))]%string.

(** The mapping of GET /merchants/:address/webhooks. *)
Definition sanitizedWebhook (webhook : JsObject) : JsObject :=
  [("id", js_get webhook "id");
   ("webhookUrl", js_get webhook "webhookUrl");
   ("isActive", js_get webhook "isActive");
   ("createdAt", js_get webhook "createdAt")]%string.

(** The [data] of the response of GET /merchants/:address/webhooks, as
    serialised. *)
Definition get_merchant_webhooks (address : string) (db : DB)
    : list JsObject :=
  (λ wc, json_object (sanitizedWebhook (webhook_config_row wc)))
  <$> getWebhooksByMerchant address db.
End WebhookList.

(** ** The backend, await by await

    The two timers of the backend fire with [setInterval(async ...)], which
    does not wait for the callback of the previous firing, and every
    [await] of a callback lets the other callbacks run.  Here the code is cut
    at its awaits of the network ([axios.post], [provider.getBlockNumber],
    [provider.getLogs]): a task is a call that waits at such a point, an
    action runs one piece of code between two of them, and actions of
    different tasks interleave freely.  A state between two actions is a
    state the process can be in, also when it exits.

    The tasks are the calls that write the delivery table (the ticks of the
    retry worker and the calls of [triggerWebhook]) and the checkpoint (the
    poll passes).  What the rest of the code does between two actions (the
    handlers writing the projected tables and the event log, the routes
    registering and deactivating webhooks) is the action [OtherWrites]: it
    may change every table but these two. *)

(** A call of [sendWebhook] that awaits its POST: the id, and the [attempts]
    of the row as its SELECT read it. *)
Record Sending := mkSending {
  sending_id : Z;
  read_attempts : Z;
}.

Inductive Task :=
  (** the callback of the retry worker: the ids of its SELECT that it has
      not sent yet, and the send it awaits *)
  | WorkerTick (queue : list Z) (sending : option Sending)
  (** a call of [triggerWebhook]: the subscriptions of its SELECT that it
      has not served yet, and the send it awaits *)
  | TriggerCall (paymentId eventType : string) (body : Payload)
      (queue : list WebhookConfig) (sending : option Sending)
  (** a call of [syncEvents] past [getBlockNumber]: the height it read and
      the batches it has not fetched yet *)
  | Pass (currentBlock : Z) (ranges : list (Z * Z))
  (** a pass that has returned *)
  | Returned.

Record System := mkSystem {
  database : DB;
  tasks : list Task;
}.

(** The SELECT of [sendWebhook]: the delivery joined with its config. *)
Definition select_delivery (deliveryId : Z) (db : DB) : option Sending :=
  match webhook_deliveries db !! deliveryId with
  | Some d =>
      if has_config (webhook_config_id d) db
      then Some (mkSending deliveryId (attempts d))
      else None
  | None => None
  end.

Definition with_attempts (n : Z) (d : WebhookDelivery) : WebhookDelivery :=
  mkWebhookDelivery (webhook_config_id d) (payment_id d) (event_type d)
    (payload d) (d_status d) n (last_attempt_at d) (next_retry_at d).

(** The UPDATE of [sendWebhook] on the row as it is when the POST settles.
    The 2xx branch counts in SQL ([attempts = attempts + 1]); the catch
    branch writes [delivery.attempts + 1] from the row as it was read. *)
Definition settle (a : Attempt) (s : Sending) (d : WebhookDelivery)
    : WebhookDelivery :=
  if is_2xx (response a) then delivered a d
  else attempt_failed a (with_attempts (read_attempts s) d).

Definition update_delivery (a : Attempt) (s : Sending) (db : DB) : DB :=
  set_webhook_deliveries (alter (settle a s) (sending_id s))
    (webhook_deliveries_seq db) db.

(** The next iteration of the loop of a tick or of [triggerWebhook], up to
    the await of the POST: the worker calls [sendWebhook], which reads the
    row; [triggerWebhook] inserts the delivery first, and an insert that
    throws ends the call. *)
Definition begin_send (t : Task) (db : DB) : option (Task * DB) :=
  match t with
  | WorkerTick (deliveryId :: queue) None =>
      Some (WorkerTick queue (select_delivery deliveryId db), db)
  | TriggerCall p ev body (webhook :: queue) None =>
      match createWebhookDelivery (wc_id webhook) p ev body db with
      | (Return deliveryId, db') =>
          Some (TriggerCall p ev body queue (select_delivery deliveryId db'),
                db')
      | (Throw _, db') => Some (TriggerCall p ev body [] None, db')
      end
  | _ => None
  end.

(** The POST settles and [sendWebhook] updates the row. *)
Definition settle_send (a : Attempt) (t : Task) (db : DB)
    : option (Task * DB) :=
  match t with
  | WorkerTick queue (Some s) =>
      Some (WorkerTick queue None, update_delivery a s db)
  | TriggerCall p ev body queue (Some s) =>
      Some (TriggerCall p ev body queue None, update_delivery a s db)
  | _ => None
  end.

(** [getLogs] resolves for the next batch of a pass (what handling its logs
    writes is left to [OtherWrites] and to the calls of [triggerWebhook]),
    or it is rejected, which ends the pass in its catch. *)
Definition fetch_batch (t : Task) (db : DB) : option (Task * DB) :=
  match t with
  | Pass currentBlock (_ :: ranges) => Some (Pass currentBlock ranges, db)
  | _ => None
  end.

Definition fail_batch (t : Task) (db : DB) : option (Task * DB) :=
  match t with
  | Pass _ (_ :: _) => Some (Returned, db)
  | _ => None
  end.

(** After the last batch: [updateLastIndexedBlock(currentBlock)]. *)
Definition end_pass (t : Task) (db : DB) : option (Task * DB) :=
  match t with
  | Pass currentBlock [] =>
      Some (Returned, (updateLastIndexedBlock currentBlock db).2)
  | _ => None
  end.

(** The tables of [db'] with the delivery table and the checkpoint of
    [db]. *)
Definition other_writes (db' db : DB) : DB :=
  mkDB (pragma_foreign_keys db) (merchants db') (payment_intents db')
    (webhook_configs db') (webhook_configs_seq db') (webhook_deliveries db)
    (webhook_deliveries_seq db) (indexer_state db) (event_logs db').

Definition tick_running (t : Task) : bool :=
  match t with
  | WorkerTick [] None => false
  | WorkerTick _ _ => true
  | _ => false
  end.

Definition pass_running (t : Task) : bool :=
  match t with
  | Pass _ _ => true
  | _ => false
  end.

Inductive Action :=
  (** the timer of the retry worker fires: the SELECT at time [now] *)
  | TickFires (now : Z)
  (** a handler calls [triggerWebhook]: its SELECT *)
  | TriggerCalled (merchantAddress paymentId eventType : string)
      (body : Payload)
  | SendBegins (task : nat)
  | PostSettles (task : nat) (a : Attempt)
  (** [getBlockNumber] resolves for a pass *)
  | PassBegins (currentBlock : Z)
  | BatchFetched (task : nat)
  | BatchFails (task : nat)
  | PassEnds (task : nat)
  | OtherWrites (db' : DB)
  (** the process exits (index.ts does so on SIGINT and SIGTERM) and is
      started again: the database stays, the calls are gone *)
  | ProcessExits.

Definition spawn (t : Task) (s : System) : System :=
  mkSystem (database s) (tasks s ++ [t]).

Definition resume (i : nat) (f : Task → DB → option (Task * DB)) (s : System)
    : option System :=
  match tasks s !! i with
  | Some t =>
      match f t (database s) with
      | Some (t', db') => Some (mkSystem db' (<[i := t']> (tasks s)))
      | None => None
      end
  | None => None
  end.

Section Async.
(** The configured start block of the indexer, and whether a timer may
    fire while the callback of its previous firing has not returned. *)
Variable this_startBlock : Z.
Variable ticks_overlap : bool.
Variable passes_overlap : bool.

(** One action; [None] when the action is not possible in the state.  Block
    heights are not negative. *)
Definition exec (act : Action) (s : System) : option System :=
  match act with
  | TickFires now =>
      if ticks_overlap || negb (existsb tick_running (tasks s))
      then Some (spawn (WorkerTick (pendingRetries now (database s)) None) s)
      else None
  | TriggerCalled m p ev body =>
      Some (spawn (TriggerCall p ev body (activeWebhooks m (database s)) None)
              s)
  | SendBegins i => resume i begin_send s
  | PostSettles i a => resume i (settle_send a) s
  | PassBegins currentBlock =>
      if (0 <=? currentBlock)
         && (passes_overlap || negb (existsb pass_running (tasks s)))
      then
        let startBlock :=
          firstBlock this_startBlock (getLastIndexedBlock (database s))
            currentBlock in
        if startBlock >? currentBlock then Some s
        else Some (spawn (Pass currentBlock
                            (batchRanges (passFuel startBlock currentBlock)
                               startBlock currentBlock)) s)
      else None
  | BatchFetched i => resume i fetch_batch s
  | BatchFails i => resume i fail_batch s
  | PassEnds i => resume i end_pass s
  | OtherWrites db' => Some (mkSystem (other_writes db' (database s)) (tasks s))
  | ProcessExits => Some (mkSystem (database s) [])
  end.

Definition async_step (s s' : System) : Prop :=
  ∃ act, exec act s = Some s'.

(** The states of the running backend, from a fresh database. *)
Definition async_reachable (s : System) : Prop :=
  ∃ fk, rtc async_step (mkSystem (emptyDB fk) []) s.

(** A schedule, action by action. *)
Fixpoint run (acts : list Action) (s : System) : option System :=
  match acts with
  | [] => Some s
  | act :: acts' =>
      match exec act s with
      | Some s' => run acts' s'
      | None => None
      end
  end.
End Async.

(** *** The invariant of the sends *)

Definition sending_of (t : Task) : option Sending :=
  match t with
  | WorkerTick _ s => s
  | TriggerCall _ _ _ _ s => s
  | _ => None
  end.

(** The deliveries that a task is sending or is about to send. *)
Definition claimed (t : Task) : list Z :=
  option_list (sending_id <$> sending_of t)
  ++ match t with
     | WorkerTick queue _ => queue
     | _ => []
     end.

(** The send is the first one of its delivery, made by [triggerWebhook]. *)
Definition first_send (t : Task) : bool :=
  match t with
  | TriggerCall _ _ _ _ (Some _) => true
  | _ => false
  end.

(** The delivery table is well formed, no delivery is claimed twice, every
    claimed delivery is pending, and a delivery being sent is as its send
    read it. *)
Definition sends_ok (s : System) : Prop :=
  deliveries_ok (database s)
  ∧ NoDup (tasks s ≫= claimed)
  ∧ (∀ id, id ∈ tasks s ≫= claimed →
       ∃ d, webhook_deliveries (database s) !! id = Some d
            ∧ d_status d = pending)
  ∧ (∀ t sg, t ∈ tasks s → sending_of t = Some sg →
       ∃ d, webhook_deliveries (database s) !! sending_id sg = Some d
            ∧ attempts d = read_attempts sg
            ∧ (first_send t = true → next_retry_at d = None)).

(** A delivery without a retry time that no call is sending or about to
    send: the row that [createWebhookDelivery] inserted and whose first send
    never settled is one. *)
Definition stranded (id : Z) (d : WebhookDelivery) (s : System) : Prop :=
  webhook_deliveries (database s) !! id = Some d
  ∧ id ≤ webhook_deliveries_seq (database s)
  ∧ next_retry_at d = None
  ∧ id ∉ tasks s ≫= claimed.

(** *** The invariant of the passes: at most one pass is running, and the
    height it read is not below the checkpoint. *)
Definition passes_ok (s : System) : Prop :=
  (length (filter (λ t, pass_running t = true) (tasks s)) ≤ 1)%nat
  ∧ (∀ c ranges, Pass c ranges ∈ tasks s →
       getLastIndexedBlock (database s) ≤ c).

(** *** Schedules used in the examples *)

(** Merchant [0xM] with its payment [0xP] and five subscriptions. *)
Definition db_five_webhooks (fk : bool) : DB :=
  foldr (λ url db, (registerWebhook "0xM" url "s3cr3t" db).2) (db_created fk)
    ["https://m.example/5"; "https://m.example/4"; "https://m.example/3";
     "https://m.example/2"]%string.

Definition http_500 (now : Z) : Attempt := mkAttempt (Http 500) now.
Definition timed_out (now : Z) : Attempt := mkAttempt TimedOut now.

(** Task [i] sends the next [n] deliveries of its queue, each answered by
    a 500 at once. *)
Definition sends_500 (i : nat) (now : Z) (n : nat) : list Action :=
  concat (replicate n [SendBegins i; PostSettles i (http_500 now)]).

(** The event of [0xP] reaches the five subscriptions, every endpoint
    answers 500, and so do they at the three ticks that find the deliveries
    due: the five deliveries are pending with four attempts, due at 5860. *)
Definition schedule_four_attempts (fk : bool) : list Action :=
  [OtherWrites (db_five_webhooks fk);
   TriggerCalled "0xM" "0xP" "payment.created" []]
  ++ sends_500 0 1000 5
  ++ [TickFires 1060] ++ sends_500 1 1060 5
  ++ [TickFires 1360] ++ sends_500 2 1360 5
  ++ [TickFires 2260] ++ sends_500 3 2260 5.

(** The tick of 5860 (task 4) meets an endpoint that hangs: its first three
    sends time out after 10 seconds each, and it awaits the fourth when the
    timer fires again at 5890 (task 5).  The endpoint now answers 500 at
    once: the second tick selects the two deliveries that the first has not
    settled and settles both, at five attempts, [failed]. *)
Definition schedule_overlap (fk : bool) : list Action :=
  schedule_four_attempts fk
  ++ [TickFires 5860;
      SendBegins 4; PostSettles 4 (timed_out 5870);
      SendBegins 4; PostSettles 4 (timed_out 5880);
      SendBegins 4; PostSettles 4 (timed_out 5890);
      SendBegins 4;
      TickFires 5890;
      SendBegins 5; PostSettles 5 (http_500 5890);
      SendBegins 5; PostSettles 5 (http_500 5890)].

(** The first tick goes on: its fourth send times out, and it sends the
    fifth delivery of its list. *)
Definition schedule_resend (fk : bool) : list Action :=
  schedule_overlap fk
  ++ [PostSettles 4 (timed_out 5900);
      SendBegins 4; PostSettles 4 (http_500 5900)].

(** An event of [0xP] reaches the subscription of [0xM], and the process
    exits while the POST is awaited. *)
Definition schedule_exit_mid_send : list Action :=
  [OtherWrites (db_created true);
   TriggerCalled "0xM" "0xP" "payment.created" [];
   SendBegins 0;
   ProcessExits].

(** The same event, delivered at the first attempt. *)
Definition schedule_delivered : list Action :=
  [OtherWrites (db_created true);
   TriggerCalled "0xM" "0xP" "payment.created" [];
   SendBegins 0;
   PostSettles 0 (mkAttempt (Http 200) 2000)].

(** A first pass brings the checkpoint to 100.  The next pass reads height
    105 and is slow; the timer fires again, the second pass reads height 110
    and ends before the first does. *)
Definition schedule_passes : list Action :=
  [PassBegins 100; BatchFetched 0; PassEnds 0;
   PassBegins 105;
   PassBegins 110; BatchFetched 2; PassEnds 2].

Definition schedule_passes_lowered : list Action :=
  schedule_passes ++ [BatchFetched 1; PassEnds 1].

(** The state after a schedule from a fresh database. *)
Definition state_after (this_startBlock : Z) (ticks_overlap passes_overlap : bool)
    (fk : bool) (acts : list Action) : System :=
  default (mkSystem (emptyDB fk) [])
    (run this_startBlock ticks_overlap passes_overlap acts
       (mkSystem (emptyDB fk) [])).

(** The completion of [0xP] in a block for which [getBlock] is rejected. *)
Definition log_completed_rejected : Log :=
  mkLog 105 "0xT3"
    (Return (Some (PaymentCompleted "0xP" "0xC" "0xM" 100 1 1700)))
    (Throw ProviderError) 2000.

Definition provider_105_rejected : Provider :=
  mkProvider (Some 105) (λ _ _, Some [log_completed_rejected]).

(** * Properties *)

(** ** Combinators keep preorders *)

Lemma bind_run {A B} (m : Eff A) (f : A → Eff B) (db : DB) :
  (m ≫= f) db = match m db with
                | (Return a, db') => f a db'
                | (Throw e, db') => (Throw e, db')
                end.
Proof. reflexivity. Qed.

Lemma modify_bind_run {B} (f : DB → DB) (k : unit → Eff B) (db : DB) :
  (modify f ≫= k) db = k tt (f db).
Proof. reflexivity. Qed.

Lemma get_bind_run {B} (k : DB → Eff B) (db : DB) :
  (get ≫= k) db = k db db.
Proof. reflexivity. Qed.

Section Preserves.
Context (R : relation DB) `{!PreOrder R}.

Lemma preserves_ret {A} (a : A) : preserves R (mret a).
Proof. intros db. simpl. reflexivity. Qed.

Lemma preserves_throw {A} (e : Error) : preserves R (@throw A e).
Proof. intros db. simpl. reflexivity. Qed.

Lemma preserves_get : preserves R get.
Proof. intros db. simpl. reflexivity. Qed.

Lemma preserves_modify (f : DB → DB) :
  (∀ db, R db (f db)) → preserves R (modify f).
Proof. intros H db. apply H. Qed.

Lemma preserves_bind {A B} (m : Eff A) (f : A → Eff B) :
  preserves R m → (∀ a, preserves R (f a)) → preserves R (m ≫= f).
Proof.
  intros Hm Hf db. rewrite bind_run. specialize (Hm db).
  destruct (m db) as [[a|e] db1]; simpl in *; [|done].
  etrans; [exact Hm|]. apply Hf.
Qed.

Lemma preserves_get_bind {A} (f : DB → Eff A) :
  (∀ db, R db (f db db).2) → preserves R (get ≫= f).
Proof. intros H db. apply H. Qed.

Lemma preserves_try_catch (m : Eff unit) :
  preserves R m → preserves R (try_catch m).
Proof.
  intros Hm db. unfold try_catch. specialize (Hm db).
  by destruct (m db) as [[a|e] db1].
Qed.

Lemma preserves_for_of {A} (l : list A) (f : A → Eff unit) :
  (∀ x, preserves R (f x)) → preserves R (for_of l f).
Proof.
  intros Hf. induction l as [|x l IH]; simpl.
  - apply preserves_ret.
  - apply preserves_bind; [apply Hf|]. intros _. apply IH.
Qed.
End Preserves.

Global Instance same_but_deliveries_preorder : PreOrder same_but_deliveries.
Proof.
  split.
  - intros db. by repeat split.
  - intros a b c (?&?&?&?&?&?&?) (?&?&?&?&?&?&?).
    repeat split; congruence.
Qed.

Global Instance same_checkpoint_preorder : PreOrder same_checkpoint.
Proof. split; unfold same_checkpoint; [done|]. intros a b c. congruence. Qed.

Global Instance keeps_deliveries_preorder : PreOrder keeps_deliveries.
Proof.
  split.
  - intros db Hok. split; [done|]. split; [lia|]. auto.
  - intros a b c Hab Hbc Hok.
    destruct (Hab Hok) as (Hokb & Hseq & Hterm).
    destruct (Hbc Hokb) as (Hokc & Hseq' & Hterm').
    split; [done|]. split; [lia|]. auto.
Qed.

(** ** What the webhook service touches *)

Lemma sendWebhook_joined net id db d :
  webhook_deliveries db !! id = Some d →
  has_config (webhook_config_id d) db = true →
  sendWebhook net id db =
    (Return tt,
     set_webhook_deliveries
       (insert id (if is_2xx (response (net id)) then delivered (net id) d
                   else attempt_failed (net id) d))
       (webhook_deliveries_seq db) db).
Proof. intros Hd Hc. unfold sendWebhook. by rewrite Hd, Hc. Qed.

Lemma pendingRetries_elem (now : Z) (db : DB) (id : Z) :
  id ∈ pendingRetries now db ↔
  ∃ d, webhook_deliveries db !! id = Some d ∧ retry_due now d = true.
Proof.
  unfold pendingRetries. rewrite list_elem_of_fmap. split.
  - intros ([k d] & -> & Hin). apply list_elem_of_filter in Hin as [Hdue Hin].
    apply elem_of_map_to_list in Hin. by exists d.
  - intros (d & Hd & Hdue). exists (id, d). split; [done|].
    apply list_elem_of_filter. split; [done|]. by apply elem_of_map_to_list.
Qed.

Lemma retry_due_pending (now : Z) (d : WebhookDelivery) :
  retry_due now d = true → d_status d = pending.
Proof.
  unfold retry_due. intros H.
  apply andb_true_iff in H as [H _]. apply andb_true_iff in H as [H _].
  by apply bool_decide_eq_true in H.
Qed.

Lemma createWebhookDelivery_same_but_deliveries c p ev pl :
  preserves same_but_deliveries (createWebhookDelivery c p ev pl).
Proof.
  intros db. unfold createWebhookDelivery.
  destruct (_ && _); simpl; [reflexivity|]. by repeat split.
Qed.

Lemma sendWebhook_same_but_deliveries net id :
  preserves same_but_deliveries (sendWebhook net id).
Proof.
  intros db. unfold sendWebhook.
  destruct (webhook_deliveries db !! id) as [d|]; [|reflexivity].
  destruct (has_config _ _); [|reflexivity]. by repeat split.
Qed.

Lemma triggerWebhook_same_but_deliveries net m p ev pl :
  preserves same_but_deliveries (triggerWebhook net m p ev pl).
Proof.
  apply (preserves_get_bind same_but_deliveries). intros db.
  apply (preserves_for_of same_but_deliveries). intros wc.
  apply (preserves_bind same_but_deliveries).
  - apply createWebhookDelivery_same_but_deliveries.
  - intros id. apply sendWebhook_same_but_deliveries.
Qed.

Lemma keeps_deliveries_same (db db' : DB) :
  webhook_deliveries db' = webhook_deliveries db →
  webhook_deliveries_seq db' = webhook_deliveries_seq db →
  keeps_deliveries db db'.
Proof.
  intros Hd Hs Hok. unfold deliveries_ok. rewrite Hd, Hs.
  split; [done|]. split; [lia|]. auto.
Qed.

(** The row that a send leaves for a pending delivery with attempts left. *)
Lemma attempt_outcome_ok (a : Attempt) (d : WebhookDelivery) :
  0 ≤ attempts d < MAX_RETRY_ATTEMPTS →
  let d' := if is_2xx (response a) then delivered a d else attempt_failed a d in
  0 ≤ attempts d' ≤ MAX_RETRY_ATTEMPTS
  ∧ (d_status d = pending → d_status d' = pending →
     attempts d' < MAX_RETRY_ATTEMPTS)
  ∧ attempts d' = attempts d + 1.
Proof.
  unfold MAX_RETRY_ATTEMPTS. intros Hatt.
  destruct (is_2xx (response a)); simpl.
  - split; [lia|]. split; [done|]. done.
  - unfold attempt_failed, MAX_RETRY_ATTEMPTS.
    destruct (attempts d + 1 >=? 5) eqn:E; simpl.
    + split; [lia|]. split; [done|]. done.
    + split; [lia|]. split; [lia|]. done.
Qed.

(** Sending a delivery that is pending with attempts left. *)
Lemma sendWebhook_pending_keeps net id db d :
  webhook_deliveries db !! id = Some d →
  d_status d = pending →
  keeps_deliveries db (sendWebhook net id db).2
  ∧ (∀ other, other ≠ id →
       webhook_deliveries (sendWebhook net id db).2 !! other
       = webhook_deliveries db !! other).
Proof.
  intros Hd Hpend. unfold sendWebhook. rewrite Hd.
  destruct (has_config _ _); simpl; [|split; [reflexivity|done]].
  split.
  - intros Hok. destruct (Hok _ _ Hd) as (Hid & Hatt & Hlt).
    specialize (Hlt Hpend).
    destruct (attempt_outcome_ok (net id) d) as (Hb & Hp & _); [lia|].
    split; [|split; [simpl; lia|]].
    + intros k dk. simpl. rewrite lookup_insert. case_decide as Hk.
      * intros [= <-]. subst k. split; [done|]. split; [done|].
        intros Hp'. by apply Hp.
      * apply Hok.
    + intros k dk Hk Hterm. simpl. rewrite lookup_insert_ne; [done|].
      intros <-. rewrite Hd in Hk. inversion Hk; subst dk. by apply Hterm.
  - intros other Hne. simpl. by rewrite lookup_insert_ne.
Qed.

(** Creating a delivery and sending it at once, as [triggerWebhook] does. *)
Lemma create_send_keeps net c p ev pl :
  preserves keeps_deliveries
    (createWebhookDelivery c p ev pl ≫= sendWebhook net).
Proof.
  intros db. rewrite bind_run. unfold createWebhookDelivery.
  destruct (_ && _); simpl; [reflexivity|].
  set (id := webhook_deliveries_seq db + 1).
  set (row := mkWebhookDelivery c p ev pl pending 0 None None).
  set (db1 := set_webhook_deliveries (insert id row) id db).
  intros Hok.
  assert (webhook_deliveries db !! id = None) as Hfresh.
  { destruct (webhook_deliveries db !! id) as [d|] eqn:E; [|done].
    destruct (Hok _ _ E) as [Hle _]. unfold id in Hle. lia. }
  assert (keeps_deliveries db db1) as H1.
  { intros _. split; [|split; [simpl; lia|]].
    - intros k dk. simpl. rewrite lookup_insert. case_decide as Hk.
      + intros [= <-]. simpl. unfold MAX_RETRY_ATTEMPTS. lia.
      + intros Hdk. destruct (Hok _ _ Hdk) as (?&?&?). split; [lia|done].
    - intros k dk Hk _. simpl. rewrite lookup_insert_ne; [done|].
      intros <-. by rewrite Hfresh in Hk. }
  assert (webhook_deliveries db1 !! id = Some row) as Hrow
    by apply lookup_insert_eq.
  destruct (sendWebhook_pending_keeps net id db1 row Hrow eq_refl) as [H2 _].
  exact (transitivity H1 H2 Hok).
Qed.

Lemma triggerWebhook_keeps_deliveries net m p ev pl :
  preserves keeps_deliveries (triggerWebhook net m p ev pl).
Proof.
  apply (preserves_get_bind keeps_deliveries). intros db.
  apply (preserves_for_of keeps_deliveries). intros wc. apply create_send_keeps.
Qed.

Lemma triggerWebhook_same_checkpoint net m p ev pl :
  preserves same_checkpoint (triggerWebhook net m p ev pl).
Proof.
  intros db. by destruct (triggerWebhook_same_but_deliveries net m p ev pl db)
    as (_&_&_&_&_&?&_).
Qed.

(** The loop of a worker tick over ids that are pairwise distinct and, when
    the loop starts, pending. *)
Lemma for_of_sendWebhook_keeps net (l : list Z) (db : DB) :
  NoDup l →
  (∀ id, id ∈ l → ∃ d, webhook_deliveries db !! id = Some d
                       ∧ d_status d = pending) →
  keeps_deliveries db (for_of l (sendWebhook net) db).2.
Proof.
  revert db. induction l as [|id l IH]; intros db Hnd Hsel; simpl.
  - reflexivity.
  - rewrite bind_run.
    destruct (Hsel id) as (d & Hd & Hpend); [left|].
    destruct (sendWebhook_pending_keeps net id db d Hd Hpend) as [H1 Hother].
    destruct (sendWebhook net id db) as [[[]|e] db1] eqn:Hrun; simpl in *.
    + etrans; [exact H1|]. apply NoDup_cons in Hnd as [Hnotin Hnd].
      apply IH; [done|]. intros k Hk.
      destruct (Hsel k) as (dk & Hdk & Hpk); [by right|].
      exists dk. split; [|done]. rewrite Hother; [done|].
      intros ->. done.
    + exact H1.
Qed.

Lemma pendingRetries_NoDup now db : NoDup (pendingRetries now db).
Proof.
  unfold pendingRetries.
  eapply sublist_NoDup;
    [apply (NoDup_fst_map_to_list (webhook_deliveries db))|].
  apply fmap_sublist, sublist_filter.
Qed.

Lemma retryWorker_keeps_deliveries net now :
  preserves keeps_deliveries (startWebhookRetryWorker_tick net now).
Proof.
  intros db. unfold startWebhookRetryWorker_tick. rewrite bind_run. simpl.
  apply for_of_sendWebhook_keeps; [apply pendingRetries_NoDup|].
  intros id Hid.
  apply pendingRetries_elem in Hid as (d & Hd & Hdue).
  exists d. split; [done|]. by eapply retry_due_pending.
Qed.

(** ** What the indexer touches *)

Section IndexerPreserves.
Context (R : relation DB) `{!PreOrder R}.
Hypothesis R_merchants : ∀ f db, R db (set_merchants f db).
Hypothesis R_payment_intents : ∀ f db, R db (set_payment_intents f db).
Hypothesis R_event_logs : ∀ f db, R db (set_event_logs f db).
Hypothesis R_triggerWebhook :
  ∀ net m p ev pl, preserves R (triggerWebhook net m p ev pl).

Lemma dispatch_preserves net e blockNumber txHash timestamp :
  preserves R (dispatch net e blockNumber txHash timestamp).
Proof.
  destruct e; simpl.
  - by apply (preserves_modify R).
  - by apply (preserves_modify R).
  - by apply (preserves_modify R).
  - apply (preserves_get_bind R). intros db.
    destruct (_ && _); [reflexivity|].
    apply (preserves_bind R); [by apply (preserves_modify R)|].
    intros _. apply R_triggerWebhook.
  - apply (preserves_bind R); [by apply (preserves_modify R)|]. intros _.
    apply (preserves_bind R); [by apply (preserves_modify R)|]. intros _.
    apply R_triggerWebhook.
  - apply (preserves_bind R); [by apply (preserves_modify R)|]. intros _.
    apply (preserves_get_bind R). intros db.
    destruct (payment_intents db !! paymentId);
      [apply R_triggerWebhook|reflexivity].
  - apply (preserves_bind R); [by apply (preserves_modify R)|]. intros _.
    apply (preserves_get_bind R). intros db.
    destruct (payment_intents db !! paymentId);
      [apply R_triggerWebhook|reflexivity].
  - apply (preserves_bind R); [by apply (preserves_modify R)|]. intros _.
    apply R_triggerWebhook.
Qed.

Lemma handleEvent_preserves net e log : preserves R (handleEvent net e log).
Proof.
  unfold handleEvent. destruct (getBlock log); [|apply (preserves_throw R)].
  apply (preserves_bind R); [by apply (preserves_modify R)|]. intros _.
  apply dispatch_preserves.
Qed.

Lemma processLog_preserves net log : preserves R (processLog net log).
Proof.
  unfold processLog. destruct (parseLog log) as [[e|]|err].
  - apply handleEvent_preserves.
  - apply (preserves_ret R).
  - apply (preserves_throw R).
Qed.

Lemma processLogs_preserves net logs : preserves R (processLogs net logs).
Proof.
  induction logs as [|log rest IH]; simpl; [apply (preserves_ret R)|].
  apply (preserves_bind R).
  - apply (preserves_try_catch R), processLog_preserves.
  - intros caught. apply (preserves_bind R); [exact IH|].
    intros errors. apply (preserves_ret R).
Qed.

Lemma processBlockRange_preserves provider net fromBlock toBlock :
  preserves R (processBlockRange provider net fromBlock toBlock).
Proof.
  unfold processBlockRange. destruct (getLogs provider fromBlock toBlock).
  - apply processLogs_preserves.
  - apply (preserves_throw R).
Qed.

Lemma batchLoop_preserves fuel provider net fromBlock currentBlock :
  preserves R (batchLoop fuel provider net fromBlock currentBlock).
Proof.
  revert fromBlock. induction fuel as [|fuel IH]; intros fromBlock; simpl.
  - destruct (fromBlock <=? currentBlock);
      [apply (preserves_throw R)|apply (preserves_ret R)].
  - destruct (fromBlock <=? currentBlock); [|apply (preserves_ret R)].
    apply (preserves_bind R); [apply processBlockRange_preserves|].
    intros _. apply IH.
Qed.
End IndexerPreserves.

Lemma batchLoop_same_checkpoint fuel provider net fromBlock currentBlock :
  preserves same_checkpoint (batchLoop fuel provider net fromBlock currentBlock).
Proof.
  apply (batchLoop_preserves same_checkpoint); try done.
  apply triggerWebhook_same_checkpoint.
Qed.

Lemma batchLoop_keeps_deliveries fuel provider net fromBlock currentBlock :
  preserves keeps_deliveries
    (batchLoop fuel provider net fromBlock currentBlock).
Proof.
  apply (batchLoop_preserves keeps_deliveries);
    try (intros; by apply keeps_deliveries_same).
  apply triggerWebhook_keeps_deliveries.
Qed.

Lemma syncEvents_keeps_deliveries this_startBlock provider net :
  preserves keeps_deliveries (syncEvents this_startBlock provider net).
Proof.
  apply (preserves_try_catch keeps_deliveries). unfold syncEvents_body.
  destruct (getBlockNumber provider) as [currentBlock|];
    [|apply (preserves_throw keeps_deliveries)].
  apply (preserves_get_bind keeps_deliveries). intros db.
  destruct (_ >? _); [reflexivity|].
  apply (preserves_bind keeps_deliveries);
    [apply batchLoop_keeps_deliveries|].
  intros _. apply (preserves_modify keeps_deliveries).
  intros db'. by apply keeps_deliveries_same.
Qed.

Lemma step_keeps_deliveries (db db' : DB) :
  step db db' → keeps_deliveries db db'.
Proof.
  destruct 1.
  - apply syncEvents_keeps_deliveries.
  - apply retryWorker_keeps_deliveries.
  - unfold registerWebhook. destruct (_ && _); simpl; [reflexivity|].
    by apply keeps_deliveries_same.
  - by apply keeps_deliveries_same.
Qed.

Lemma reachable_deliveries_ok (db : DB) : reachable db → deliveries_ok db.
Proof.
  intros [fk Hrtc]. revert db Hrtc. apply rtc_ind_r.
  - intros id d Hd. simpl in Hd. by rewrite lookup_empty in Hd.
  - intros db db' _ Hstep Hok. by apply (step_keeps_deliveries _ _ Hstep).
Qed.

(** ** What [triggerWebhook] enqueues *)

Lemma has_config_same (db db' : DB) (id : Z) :
  webhook_configs db' = webhook_configs db →
  has_config id db' = has_config id db.
Proof. unfold has_config. by intros ->. Qed.

Lemma for_of_enqueue net p ev pl (l : list WebhookConfig) : ∀ db,
  (∀ id, webhook_deliveries_seq db < id → webhook_deliveries db !! id = None) →
  (pragma_foreign_keys db = true → is_Some (payment_intents db !! p)) →
  (∀ wc, wc ∈ l → has_config (wc_id wc) db = true) →
  ∃ db',
    for_of l (λ wc, createWebhookDelivery (wc_id wc) p ev pl
                    ≫= sendWebhook net) db = (Return tt, db')
    ∧ same_but_deliveries db db'
    ∧ webhook_deliveries_seq db' = webhook_deliveries_seq db + Z.of_nat (length l)
    ∧ (∀ id, id ≤ webhook_deliveries_seq db →
         webhook_deliveries db' !! id = webhook_deliveries db !! id)
    ∧ (∀ id, webhook_deliveries_seq db' < id →
         webhook_deliveries db' !! id = None)
    ∧ (∀ (i : nat) wc, l !! i = Some wc →
         ∃ d, webhook_deliveries db' !! (webhook_deliveries_seq db + 1 + Z.of_nat i)
              = Some d
              ∧ webhook_config_id d = wc_id wc ∧ payment_id d = p
              ∧ event_type d = ev ∧ payload d = pl ∧ attempts d = 1).
Proof.
  induction l as [|wc l IH]; intros db Hfresh Hfk Hcfg.
  - exists db. simpl. split; [done|]. split; [reflexivity|].
    split; [lia|]. split; [done|]. split; [done|]. intros i wc Hi. done.
  - assert (has_config (wc_id wc) db = true) as Hwc by (apply Hcfg; left).
    set (id := webhook_deliveries_seq db + 1).
    set (row := mkWebhookDelivery (wc_id wc) p ev pl pending 0 None None).
    set (db1 := set_webhook_deliveries (insert id row) id db).
    assert (createWebhookDelivery (wc_id wc) p ev pl db = (Return id, db1))
      as Hcreate.
    { unfold createWebhookDelivery. rewrite Hwc.
      destruct (pragma_foreign_keys db) eqn:Efk; [|done].
      rewrite bool_decide_eq_true_2 by auto. done. }
    set (d1 := if is_2xx (response (net id)) then delivered (net id) row
               else attempt_failed (net id) row).
    set (db2 := set_webhook_deliveries (insert id d1) id db1).
    assert (sendWebhook net id db1 = (Return tt, db2)) as Hsend.
    { rewrite (sendWebhook_joined net id db1 row); [done|apply lookup_insert_eq|].
      simpl. by rewrite (has_config_same db db1). }
    destruct (IH db2) as (db' & Hrun & Hsame & Hseq & Hold & Hfresh' & Hnew).
    { intros k Hk. simpl in *. rewrite !lookup_insert_ne by (unfold id; lia).
      apply Hfresh. unfold id in Hk. lia. }
    { done. }
    { intros wc' Hin. rewrite (has_config_same db db2) by done.
      apply Hcfg. by right. }
    exists db'. split.
    { simpl. rewrite bind_run, bind_run, Hcreate, Hsend. exact Hrun. }
    split. { etrans; [|exact Hsame]. by repeat split. }
    split. { rewrite Hseq. simpl. unfold id. lia. }
    split.
    { intros k Hk. rewrite Hold by (simpl; unfold id; lia). simpl.
      by rewrite !lookup_insert_ne by (unfold id; lia). }
    split; [done|].
    intros [|i] wc' Hi; simpl in Hi.
    + inversion Hi; subst wc'. exists d1. split.
      * replace (id + Z.of_nat 0) with id by lia.
        rewrite Hold by (simpl; lia).
        apply (lookup_insert_eq (M:=gmap Z)).
      * unfold d1, attempt_failed, MAX_RETRY_ATTEMPTS.
        by destruct (is_2xx _).
    + destruct (Hnew i wc' Hi) as (d & Hd & Hprops). exists d.
      split; [|done]. simpl in Hd.
      replace (id + Z.of_nat (S i)) with (id + 1 + Z.of_nat i) by lia.
      done.
Qed.

Lemma activeWebhooks_has_config (m : string) (db : DB) (wc : WebhookConfig) :
  wc ∈ activeWebhooks m db → has_config (wc_id wc) db = true.
Proof.
  unfold activeWebhooks, has_config. intros Hin.
  apply list_elem_of_filter in Hin as [_ Hin].
  apply bool_decide_eq_true. apply Exists_exists. by exists wc.
Qed.

Lemma triggerWebhook_enqueues net m p ev pl db :
  deliveries_ok db →
  (pragma_foreign_keys db = true → is_Some (payment_intents db !! p)) →
  ∃ db',
    triggerWebhook net m p ev pl db = (Return tt, db')
    ∧ same_but_deliveries db db'
    ∧ enqueued db db' m p ev pl.
Proof.
  intros Hok Hfk.
  assert (∀ id, webhook_deliveries_seq db < id →
                webhook_deliveries db !! id = None) as Hfresh.
  { intros id Hid. destruct (webhook_deliveries db !! id) as [d|] eqn:E; [|done].
    destruct (Hok _ _ E) as [Hle _]. lia. }
  destruct (for_of_enqueue net p ev pl (activeWebhooks m db) db Hfresh Hfk)
    as (db' & Hrun & Hsame & _ & _ & _ & Hnew).
  { intros wc. apply activeWebhooks_has_config. }
  exists db'. split; [exact Hrun|]. split; [exact Hsame|].
  intros i wc Hi. split; [apply Hfresh; lia|]. by apply Hnew.
Qed.

(** ** The handlers as functions of the projected tables *)

Lemma triggerWebhook_merchants net m p ev pl db :
  merchants (triggerWebhook net m p ev pl db).2 = merchants db.
Proof.
  by destruct (triggerWebhook_same_but_deliveries net m p ev pl db)
    as (_&?&_).
Qed.

Lemma triggerWebhook_payment_intents net m p ev pl db :
  payment_intents (triggerWebhook net m p ev pl db).2 = payment_intents db.
Proof.
  by destruct (triggerWebhook_same_but_deliveries net m p ev pl db)
    as (_&_&?&_).
Qed.

Lemma dispatch_merchants net e blockNumber txHash timestamp db :
  merchants (dispatch net e blockNumber txHash timestamp db).2
  = project_merchants e (merchants db).
Proof.
  destruct e; simpl; try done.
  - unfold handlePaymentIntentCreated. rewrite get_bind_run.
    destruct (_ && _); [done|].
    by rewrite modify_bind_run, triggerWebhook_merchants.
  - unfold handlePaymentCompleted.
    by rewrite !modify_bind_run, triggerWebhook_merchants.
  - unfold handlePaymentRefunded. rewrite modify_bind_run, get_bind_run.
    destruct (payment_intents _ !! _); [|done].
    by rewrite triggerWebhook_merchants.
  - unfold handlePaymentExpired. rewrite modify_bind_run, get_bind_run.
    destruct (payment_intents _ !! _); [|done].
    by rewrite triggerWebhook_merchants.
  - unfold handlePaymentCancelled.
    by rewrite modify_bind_run, triggerWebhook_merchants.
Qed.

Lemma dispatch_payment_intents net e blockNumber txHash timestamp db :
  payment_intents (dispatch net e blockNumber txHash timestamp db).2
  = if insert_rejected e db then payment_intents db
    else project_payments e blockNumber txHash timestamp (payment_intents db).
Proof.
  destruct e; simpl; try done.
  - unfold handlePaymentIntentCreated. rewrite get_bind_run.
    destruct (_ && _); [done|].
    by rewrite modify_bind_run, triggerWebhook_payment_intents.
  - unfold handlePaymentCompleted.
    by rewrite !modify_bind_run, triggerWebhook_payment_intents.
  - unfold handlePaymentRefunded. rewrite modify_bind_run, get_bind_run.
    destruct (payment_intents _ !! _); [|done].
    by rewrite triggerWebhook_payment_intents.
  - unfold handlePaymentExpired. rewrite modify_bind_run, get_bind_run.
    destruct (payment_intents _ !! _); [|done].
    by rewrite triggerWebhook_payment_intents.
  - unfold handlePaymentCancelled.
    by rewrite modify_bind_run, triggerWebhook_payment_intents.
Qed.

Lemma dispatch_returns_inserted net e blockNumber txHash timestamp db :
  (dispatch net e blockNumber txHash timestamp db).1 = Return tt →
  insert_rejected e db = false.
Proof.
  destruct e; simpl; try done.
  unfold handlePaymentIntentCreated. rewrite get_bind_run.
  by destruct (_ && _).
Qed.

(** ** The running example *)

Example db_completed_state (fk : bool) :
  payment_intents (db_completed fk) !! "0xP"
  = Some (mkPaymentIntent "0xM" "0xUSDT" 100 9999 Completed 1600
            (Some "0xC") (Some 1700) (Some 1) 100 "0xT2")
  ∧ merchants (db_completed fk) !! "0xM" = Some (mkMerchant "Shop" true 1600 100)
  ∧ indexer_state (db_completed fk) = Some 105
  ∧ map_to_list (webhook_deliveries (db_completed fk))
    = [(1, mkWebhookDelivery 1 "0xP" "payment.completed"
             [("paymentId", JStr "0xP"); ("merchant", JStr "0xM");
              ("payer", JStr "0xC"); ("amount", JBig 100);
              ("platformFee", JBig 1); ("status", JStr "completed");
              ("timestamp", JNum 1700)]%string
             success 1 (Some 2000) None)].
Proof. destruct fk; vm_compute; done. Qed.

(** ** Out-of-order Expired and Cancelled events *)

(** C1, as stated, fails (scenario D): a PaymentExpired event for the
    payment [0xP], which is Completed, changes its row to Expired and
    enqueues a [payment.expired] delivery.  This is so with and without
    foreign-key enforcement. *)
Lemma handlePaymentExpired_overwrites_completed :
  Forall (λ fk,
    let db := db_completed fk in
    let db' := (handlePaymentExpired net_200 "0xP" db).2 in
    status <$> payment_intents db !! "0xP" = Some Completed
    ∧ status <$> payment_intents db' !! "0xP" = Some Expired
    ∧ payment_intents db' ≠ payment_intents db
    ∧ webhook_deliveries db !! 2 = None
    ∧ event_type <$> webhook_deliveries db' !! 2 = Some "payment.expired"%string)
  [true; false].
Proof.
  repeat constructor; try (vm_compute; reflexivity);
    intros H; apply (f_equal (λ m, status <$> m !! "0xP")) in H;
    vm_compute in H; discriminate.
Qed.

(** C1, amended.  The projector does not look at the current status: for
    every payment with a stored row, whatever its status, a PaymentExpired
    (PaymentCancelled) event sets the status to Expired (Cancelled), leaves
    the other columns of the row and the other rows unchanged, and a
    [payment.expired] ([payment.cancelled]) delivery is created and sent
    once for every active subscription of the merchant. *)
Theorem expired_cancelled_unguarded (net : Net) (db : DB) (p m : string)
    (row : PaymentIntent) :
  reachable db →
  payment_intents db !! p = Some row →
  (∃ db',
     handlePaymentExpired net p db = (Return tt, db')
     ∧ payment_intents db' !! p = Some (set_status Expired row)
     ∧ (∀ q, q ≠ p → payment_intents db' !! q = payment_intents db !! q)
     ∧ enqueued db db' (merchant row) p "payment.expired"
         [("paymentId", JStr p); ("status", JStr "expired")]%string)
  ∧ (∃ db',
       handlePaymentCancelled net p m db = (Return tt, db')
       ∧ payment_intents db' !! p = Some (set_status Cancelled row)
       ∧ (∀ q, q ≠ p → payment_intents db' !! q = payment_intents db !! q)
       ∧ enqueued db db' m p "payment.cancelled"
           [("paymentId", JStr p); ("status", JStr "cancelled")]%string).
Proof.
  intros Hreach Hrow. apply reachable_deliveries_ok in Hreach as Hok.
  split.
  - set (db1 := set_payment_intents (alter (set_status Expired) p) db).
    assert (payment_intents db1 !! p = Some (set_status Expired row)) as Hrow1.
    { simpl. rewrite lookup_alter_eq. by rewrite Hrow. }
    destruct (triggerWebhook_enqueues net (merchant row) p "payment.expired"
                [("paymentId", JStr p); ("status", JStr "expired")]%string db1)
      as (db' & Hrun & Hsame & Henq).
    { by apply (keeps_deliveries_same db db1). }
    { intros _. by rewrite Hrow1. }
    exists db'. split.
    { unfold handlePaymentExpired. rewrite modify_bind_run, get_bind_run.
      fold db1. rewrite Hrow1. exact Hrun. }
    destruct Hsame as (_ & _ & Hpay & _). rewrite Hpay.
    split; [done|]. split; [|done].
    intros q Hq. simpl. by rewrite lookup_alter_ne.
  - set (db1 := set_payment_intents (alter (set_status Cancelled) p) db).
    assert (payment_intents db1 !! p = Some (set_status Cancelled row))
      as Hrow1.
    { simpl. rewrite lookup_alter_eq. by rewrite Hrow. }
    destruct (triggerWebhook_enqueues net m p "payment.cancelled"
                [("paymentId", JStr p); ("status", JStr "cancelled")]%string db1)
      as (db' & Hrun & Hsame & Henq).
    { by apply (keeps_deliveries_same db db1). }
    { intros _. by rewrite Hrow1. }
    exists db'. split.
    { unfold handlePaymentCancelled. rewrite modify_bind_run. exact Hrun. }
    destruct Hsame as (_ & _ & Hpay & _). rewrite Hpay.
    split; [done|]. split; [|done].
    intros q Hq. simpl. by rewrite lookup_alter_ne.
Qed.

Lemma expired_cancelled_unguarded_witness :
  ∃ db',
    handlePaymentExpired net_500 "0xP" (db_completed true) = (Return tt, db')
    ∧ payment_intents db' !! "0xP" = Some (set_status Expired row_completed).
Proof.
  assert (reachable (db_completed true)) as Hreach.
  { exists true. unfold db_completed, db_created.
    eapply rtc_r; [eapply rtc_r; [apply rtc_once|]|]; constructor. }
  destruct (expired_cancelled_unguarded net_500 (db_completed true) "0xP" "0xM"
              row_completed Hreach)
    as [(db' & Hrun & Hrow & _) _]; [vm_compute; reflexivity|].
  exists db'. split; [exact Hrun|exact Hrow].
Defined.

(** ** Overwriting writes are idempotent under replay *)

Section Overwrites.
Context {A P : Type}.
Variable apply : P → A → A.
Variable compose : P → P → P.
Variable unit_patch : P.
Hypothesis apply_unit : ∀ a, apply unit_patch a = a.
Hypothesis apply_compose : ∀ q p a, apply (compose q p) a = apply q (apply p a).
Hypothesis apply_idem : ∀ p a, apply p (apply p a) = apply p a.

Lemma run_then_write (w1 w2 : write A P) (x : option A) :
  run_write apply (then_write apply compose w1 w2) x
  = run_write apply w2 (run_write apply w1 x).
Proof.
  destruct w2 as [a|q], w1 as [b|p]; simpl; try done.
  destruct x; simpl; [|done]. by rewrite apply_compose.
Qed.

Lemma run_write_idem (w : write A P) (x : option A) :
  run_write apply w (run_write apply w x) = run_write apply w x.
Proof.
  destruct w as [a|p]; simpl; [done|].
  destruct x; simpl; [|done]. by rewrite apply_idem.
Qed.

Lemma run_writes_as_one (ws : list (write A P)) :
  ∃ w, ∀ x, run_writes apply ws x = run_write apply w x.
Proof.
  unfold run_writes. induction ws as [|w' ws IH] using rev_ind.
  - exists (Patch unit_patch). intros [a|]; simpl; [|done].
    by rewrite apply_unit.
  - destruct IH as [w Hw]. exists (then_write apply compose w w').
    intros x. by rewrite foldl_snoc, Hw, run_then_write.
Qed.

Lemma run_writes_replay (ws : list (write A P)) (x : option A) :
  run_writes apply ws (run_writes apply ws x) = run_writes apply ws x.
Proof.
  destruct (run_writes_as_one ws) as [w Hw].
  rewrite !Hw. apply run_write_idem.
Qed.
End Overwrites.

Lemma payment_writes_replay (ws : list (write PaymentIntent PaymentPatch))
    (x : option PaymentIntent) :
  run_writes apply_payment_patch ws (run_writes apply_payment_patch ws x)
  = run_writes apply_payment_patch ws x.
Proof.
  apply (run_writes_replay apply_payment_patch compose_payment_patch
           (mkPaymentPatch None None)).
  - by intros [].
  - intros [[s|] [c|]] [[s'|] [c'|]] []; reflexivity.
  - intros [[s|] [c|]] []; reflexivity.
Qed.

Lemma merchant_writes_replay (ws : list (write Merchant (option bool)))
    (x : option Merchant) :
  run_writes apply_merchant_patch ws (run_writes apply_merchant_patch ws x)
  = run_writes apply_merchant_patch ws x.
Proof.
  apply (run_writes_replay apply_merchant_patch or_else None).
  - by intros [].
  - intros [b|] [b'|] []; reflexivity.
  - intros [b|] []; reflexivity.
Qed.

Lemma project_payments_lookup e blockNumber txHash timestamp
    (P : gmap string PaymentIntent) (p : string) :
  project_payments e blockNumber txHash timestamp P !! p
  = run_write apply_payment_patch
      (payment_write p e blockNumber txHash timestamp) (P !! p).
Proof.
  destruct e; simpl; try (by destruct (P !! p) as [[]|]).
  - rewrite lookup_insert. case_decide; [done|]. by destruct (P !! p) as [[]|].
  - rewrite lookup_alter. case_decide; [subst|]; by destruct (P !! p) as [[]|].
  - rewrite lookup_alter. case_decide; [subst|]; by destruct (P !! p) as [[]|].
  - rewrite lookup_alter. case_decide; [subst|]; by destruct (P !! p) as [[]|].
  - rewrite lookup_alter. case_decide; [subst|]; by destruct (P !! p) as [[]|].
Qed.

Lemma project_merchants_lookup e (M : gmap string Merchant) (m : string) :
  completes m e = false →
  project_merchants e M !! m
  = run_write apply_merchant_patch (merchant_write m e) (M !! m).
Proof.
  intros Hc. destruct e; simpl in *; try (by destruct (M !! m) as [[]|]).
  - rewrite lookup_insert. case_decide; [done|]. by destruct (M !! m) as [[]|].
  - rewrite lookup_alter. case_decide; [subst|]; by destruct (M !! m) as [[]|].
  - rewrite lookup_alter. case_decide; [subst|]; by destruct (M !! m) as [[]|].
  - apply bool_decide_eq_false in Hc. rewrite lookup_alter_ne by done.
    by destruct (M !! m) as [[]|].
Qed.

(** ** A batch of logs as a function of the projected tables *)

Global Instance same_pragma_preorder : PreOrder same_pragma.
Proof. split; unfold same_pragma; [done|]. intros a b c. congruence. Qed.

Lemma processLogs_pragma net logs db :
  pragma_foreign_keys (processLogs net logs db).2 = pragma_foreign_keys db.
Proof.
  apply (processLogs_preserves same_pragma); try done.
  intros net' m p ev pl db'.
  by destruct (triggerWebhook_same_but_deliveries net' m p ev pl db') as [? _].
Qed.

Lemma processLog_pragma net log db :
  pragma_foreign_keys (processLog net log db).2 = pragma_foreign_keys db.
Proof.
  apply (processLog_preserves same_pragma); try done.
  intros net' m p ev pl db'.
  by destruct (triggerWebhook_same_but_deliveries net' m p ev pl db') as [? _].
Qed.

Lemma handleEvent_run net e log db timestamp :
  blockTimestamp log = Some timestamp →
  handleEvent net e log db
  = dispatch net e (blockNumber log) (transactionHash log) timestamp
      (set_event_logs
         (λ l, l ++ [mkEventLog (blockNumber log) (transactionHash log)
                       (eventName e) e timestamp]) db).
Proof.
  unfold blockTimestamp, handleEvent.
  destruct (getBlock log); [|done]. by intros [= <-].
Qed.

Lemma processLog_unhandled net log db :
  handled log = None → (processLog net log db).2 = db.
Proof.
  unfold handled, blockTimestamp, processLog, handleEvent.
  destruct (parseLog log) as [[e|]|err]; try done.
  by destruct (getBlock log).
Qed.

Lemma processLog_handled net log db e timestamp :
  handled log = Some (e, timestamp) →
  processLog net log db
  = dispatch net e (blockNumber log) (transactionHash log) timestamp
      (set_event_logs
         (λ l, l ++ [mkEventLog (blockNumber log) (transactionHash log)
                       (eventName e) e timestamp]) db).
Proof.
  unfold handled, processLog.
  destruct (parseLog log) as [[e'|]|err]; try done.
  destruct (blockTimestamp log) as [t|] eqn:Ht; [|done].
  intros [= -> ->]. by apply handleEvent_run.
Qed.

Lemma processLog_merchants net log db :
  merchants (processLog net log db).2 = log_project_merchants (merchants db) log.
Proof.
  unfold log_project_merchants.
  destruct (handled log) as [[e timestamp]|] eqn:Hh.
  - by rewrite (processLog_handled _ _ _ _ _ Hh), dispatch_merchants.
  - by rewrite processLog_unhandled.
Qed.

Lemma processLog_payment_intents net log db :
  payment_intents (processLog net log db).2
  = match handled log with
    | Some (e, timestamp) =>
        if rejected (pragma_foreign_keys db) (merchants db) e
        then payment_intents db
        else project_payments e (blockNumber log) (transactionHash log)
               timestamp (payment_intents db)
    | None => payment_intents db
    end.
Proof.
  destruct (handled log) as [[e timestamp]|] eqn:Hh.
  - by rewrite (processLog_handled _ _ _ _ _ Hh), dispatch_payment_intents.
  - by rewrite processLog_unhandled.
Qed.

Lemma processLog_clean net log db :
  (processLog net log db).1 = Return tt →
  match handled log with
  | Some (e, _) => rejected (pragma_foreign_keys db) (merchants db) e = false
  | None => True
  end.
Proof.
  destruct (handled log) as [[e timestamp]|] eqn:Hh; [|done].
  rewrite (processLog_handled _ _ _ _ _ Hh).
  intros Hret. by apply dispatch_returns_inserted in Hret.
Qed.

Lemma processLogs_cons_state net log rest db :
  (processLogs net (log :: rest) db).2
  = (processLogs net rest (processLog net log db).2).2.
Proof.
  simpl. rewrite bind_run. unfold try_catch.
  destruct (processLog net log db) as [[[]|e] db1]; simpl;
    rewrite bind_run; by destruct (processLogs net rest db1) as [[|] ?].
Qed.

Lemma processLogs_cons_clean net log rest db :
  (processLogs net (log :: rest) db).1 = Return [] →
  (processLog net log db).1 = Return tt
  ∧ (processLogs net rest (processLog net log db).2).1 = Return [].
Proof.
  simpl. rewrite bind_run. unfold try_catch.
  destruct (processLog net log db) as [[[]|e] db1]; simpl;
    rewrite bind_run;
    destruct (processLogs net rest db1) as [[errors|e'] db2]; simpl;
    try done; by intros [= ->].
Qed.

Lemma processLogs_merchants net logs db :
  merchants (processLogs net logs db).2
  = foldl log_project_merchants (merchants db) logs.
Proof.
  revert db. induction logs as [|log rest IH]; intros db; [done|].
  by rewrite processLogs_cons_state, IH, processLog_merchants.
Qed.

Lemma processLogs_clean_accepted net logs db :
  (processLogs net logs db).1 = Return [] →
  inserts_accepted (pragma_foreign_keys db) (merchants db) logs.
Proof.
  revert db. induction logs as [|log rest IH]; intros db Hclean; [done|].
  apply processLogs_cons_clean in Hclean as [Hlog Hrest].
  apply processLog_clean in Hlog. apply IH in Hrest.
  rewrite processLog_merchants in Hrest. unfold log_project_merchants in Hrest.
  assert (pragma_foreign_keys (processLog net log db).2 = pragma_foreign_keys db)
    as Hfk by apply processLog_pragma.
  rewrite Hfk in Hrest. simpl.
  by destruct (handled log) as [[e timestamp]|].
Qed.

Lemma inserts_accepted_unenforced (M : gmap string Merchant) logs :
  inserts_accepted false M logs.
Proof.
  revert M. induction logs as [|log rest IH]; intros M; simpl; [done|].
  destruct (handled log) as [[e timestamp]|]; [|done].
  split; [by destruct e|done].
Qed.

Lemma project_merchants_dom e (M M' : gmap string Merchant) :
  dom M ⊆ dom M' → dom (project_merchants e M) ⊆ dom (project_merchants e M').
Proof.
  intros Hsub. destruct e; simpl; rewrite ?dom_insert_L, ?dom_alter_L;
    try done.
  by apply union_mono_l.
Qed.

Lemma project_merchants_dom_grows e (M : gmap string Merchant) :
  dom M ⊆ dom (project_merchants e M).
Proof.
  destruct e; simpl; rewrite ?dom_insert_L, ?dom_alter_L; try done.
  apply union_subseteq_r.
Qed.

Lemma foldl_log_project_merchants_dom logs (M : gmap string Merchant) :
  dom M ⊆ dom (foldl log_project_merchants M logs).
Proof.
  revert M. induction logs as [|log rest IH]; intros M; simpl; [done|].
  etrans; [|apply IH]. unfold log_project_merchants.
  destruct (handled log) as [[e timestamp]|]; [|done].
  apply project_merchants_dom_grows.
Qed.

Lemma inserts_accepted_mono fk (M M' : gmap string Merchant) logs :
  dom M ⊆ dom M' → inserts_accepted fk M logs → inserts_accepted fk M' logs.
Proof.
  revert M M'. induction logs as [|log rest IH]; intros M M' Hsub; simpl;
    [done|].
  destruct (handled log) as [[e timestamp]|]; [|by apply IH].
  intros [Hrej Hrest]. split.
  - destruct e; simpl in *; try done.
    destruct fk; [|done]. simpl in *.
    apply negb_false_iff, bool_decide_eq_true in Hrej.
    apply negb_false_iff, bool_decide_eq_true.
    apply elem_of_dom. apply elem_of_dom in Hrej.
    by eapply elem_of_weaken.
  - eapply IH; [|exact Hrest]. by apply project_merchants_dom.
Qed.

Lemma processLogs_payment_row net logs db (p : string) :
  inserts_accepted (pragma_foreign_keys db) (merchants db) logs →
  payment_intents (processLogs net logs db).2 !! p
  = run_writes apply_payment_patch (log_payment_write p <$> logs)
      (payment_intents db !! p).
Proof.
  revert db. induction logs as [|log rest IH]; intros db Hacc; [done|].
  rewrite processLogs_cons_state. simpl in Hacc.
  assert (pragma_foreign_keys (processLog net log db).2 = pragma_foreign_keys db)
    as Hfk by apply processLog_pragma.
  rewrite IH.
  2:{ rewrite Hfk, processLog_merchants. unfold log_project_merchants.
      destruct (handled log) as [[e timestamp]|]; [by destruct Hacc|done]. }
  rewrite processLog_payment_intents. unfold run_writes. simpl. f_equal.
  unfold log_payment_write.
  destruct (handled log) as [[e timestamp]|].
  - destruct Hacc as [-> _]. apply project_payments_lookup.
  - simpl. by destruct (payment_intents db !! p) as [[]|].
Qed.

Lemma processLogs_merchant_row net logs db (m : string) :
  no_completion m logs →
  merchants (processLogs net logs db).2 !! m
  = run_writes apply_merchant_patch (log_merchant_write m <$> logs)
      (merchants db !! m).
Proof.
  rewrite processLogs_merchants. generalize (merchants db). clear db.
  induction logs as [|log rest IH]; intros M Hno; [done|].
  apply Forall_cons in Hno as [Hlog Hno].
  simpl. rewrite IH by done. unfold run_writes. simpl. f_equal.
  unfold log_project_merchants, log_merchant_write.
  destruct (handled log) as [[e timestamp]|].
  - apply project_merchants_lookup. by eapply Hlog.
  - simpl. by destruct (M !! m) as [[]|].
Qed.

(** ** Replaying a block range *)

Lemma replays_handled (log log' : Log) :
  replays log log' →
  fst <$> handled log' = fst <$> handled log.
Proof.
  intros (_ & _ & Hparse & Hblock). unfold handled, blockTimestamp.
  rewrite Hparse, Hblock.
  destruct (parseLog log) as [[e|]|]; try done. by destruct (getBlock log).
Qed.

Lemma replays_project_merchants (M : gmap string Merchant) (log log' : Log) :
  replays log log' →
  log_project_merchants M log' = log_project_merchants M log.
Proof.
  intros Hreplay. apply replays_handled in Hreplay.
  unfold log_project_merchants.
  destruct (handled log') as [[e' t']|], (handled log) as [[e t]|];
    simpl in Hreplay; try done.
  by injection Hreplay as ->.
Qed.

Lemma replays_merchant_write (m : string) (log log' : Log) :
  replays log log' →
  log_merchant_write m log' = log_merchant_write m log.
Proof.
  intros Hreplay. apply replays_handled in Hreplay.
  unfold log_merchant_write.
  destruct (handled log') as [[e' t']|], (handled log) as [[e t]|];
    simpl in Hreplay; try done.
  by injection Hreplay as ->.
Qed.

Lemma replays_payment_write (p : string) (log log' : Log) :
  replays log log' → created_at_block log →
  log_payment_write p log' = log_payment_write p log.
Proof.
  intros (Hnumber & Hhash & Hparse & Hblock).
  unfold created_at_block, log_payment_write, handled, blockTimestamp.
  rewrite Hnumber, Hhash, Hparse, Hblock.
  destruct (parseLog log) as [[e|]|]; try done.
  destruct (getBlock log) as [[t|]|]; try done.
  - destruct e; try done. intros Ht. simpl.
    destruct (t =? 0) eqn:Hz; [lia|done].
  - by destruct e.
Qed.

Lemma replays_no_completion (m : string) (logs logs' : list Log) :
  Forall2 replays logs logs' → no_completion m logs → no_completion m logs'.
Proof.
  unfold no_completion. induction 1 as [|log log' logs logs' Hreplay _ IH];
    [done|].
  intros [Hlog Hrest]%Forall_cons. constructor; [|by apply IH].
  intros e' t' Hh'. apply replays_handled in Hreplay. rewrite Hh' in Hreplay.
  destruct (handled log) as [[e t]|]; [|done].
  injection Hreplay as ->. by eapply Hlog.
Qed.

Lemma replays_inserts_accepted fk (logs logs' : list Log) :
  Forall2 replays logs logs' →
  ∀ M, inserts_accepted fk M logs → inserts_accepted fk M logs'.
Proof.
  induction 1 as [|log log' logs logs' Hreplay _ IH]; [done|].
  intros M. simpl. apply replays_handled in Hreplay.
  destruct (handled log') as [[e' t']|], (handled log) as [[e t]|];
    simpl in Hreplay; try done; [|apply IH].
  injection Hreplay as ->. intros [? ?]. split; [done|by apply IH].
Qed.

Lemma replays_foldl_project_merchants (logs logs' : list Log) :
  Forall2 replays logs logs' →
  ∀ M, foldl log_project_merchants M logs'
       = foldl log_project_merchants M logs.
Proof.
  induction 1 as [|log log' logs logs' Hreplay _ IH]; [done|].
  intros M. simpl. by rewrite IH, (replays_project_merchants M log log').
Qed.

(** What a log writes to the row of [m] depends on that row alone. *)
Lemma log_project_merchants_local (m : string) (log : Log)
    (M M' : gmap string Merchant) :
  M !! m = M' !! m →
  log_project_merchants M log !! m = log_project_merchants M' log !! m.
Proof.
  intros Heq. unfold log_project_merchants.
  destruct (handled log) as [[e t]|]; [|done].
  destruct e; simpl; try done.
  - destruct (decide (merchant0 = m)) as [->|Hne];
      [by rewrite !lookup_insert_eq|by rewrite !lookup_insert_ne].
  - rewrite !lookup_alter. case_decide; [subst|done]. by rewrite Heq.
  - rewrite !lookup_alter. case_decide; [subst|done]. by rewrite Heq.
  - rewrite !lookup_alter. case_decide; [subst|done]. by rewrite Heq.
Qed.

Lemma foldl_project_merchants_local (m : string) (logs : list Log) :
  ∀ M M' : gmap string Merchant,
  M !! m = M' !! m →
  foldl log_project_merchants M logs !! m
  = foldl log_project_merchants M' logs !! m.
Proof.
  induction logs as [|log rest IH]; intros M M' Heq; [done|].
  simpl. apply IH. by apply log_project_merchants_local.
Qed.

(** After a registration of [m] the row of [m] no longer depends on the
    table the range was handled from. *)
Lemma foldl_project_merchants_registered (m : string) (logs : list Log) :
  registered_in m logs →
  ∀ M M' : gmap string Merchant,
  foldl log_project_merchants M logs !! m
  = foldl log_project_merchants M' logs !! m.
Proof.
  unfold registered_in.
  induction 1 as [log rest (n & t & timestamp & Hh)|log rest _ IH];
    intros M M'; simpl; [|apply IH].
  apply foldl_project_merchants_local. unfold log_project_merchants.
  rewrite Hh. simpl. by rewrite !lookup_insert_eq.
Qed.

(** Every event leaves the columns of a merchant row other than the total
    as an overwrite leaves them. *)
Lemma project_merchants_other_columns e (M : gmap string Merchant)
    (m : string) :
  other_columns <$> project_merchants e M !! m
  = other_columns
    <$> run_write apply_merchant_patch (merchant_write m e) (M !! m).
Proof.
  destruct e; simpl; try (by destruct (M !! m) as [[]|]).
  - rewrite lookup_insert. case_decide; [done|]. by destruct (M !! m) as [[]|].
  - rewrite lookup_alter. case_decide; [subst|]; by destruct (M !! m) as [[]|].
  - rewrite lookup_alter. case_decide; [subst|]; by destruct (M !! m) as [[]|].
  - rewrite lookup_alter. case_decide; [subst|]; by destruct (M !! m) as [[]|].
Qed.

Lemma run_write_other_columns (w : write Merchant (option bool))
    (x y : option Merchant) :
  other_columns <$> x = other_columns <$> y →
  other_columns <$> run_write apply_merchant_patch w x
  = other_columns <$> run_write apply_merchant_patch w y.
Proof.
  destruct w as [a|q]; simpl; [done|].
  destruct x as [[]|], y as [[]|]; simpl; try done.
  intros [= -> -> ->]. done.
Qed.

Lemma foldl_project_merchants_other_columns (m : string) (logs : list Log) :
  ∀ (M : gmap string Merchant) (x : option Merchant),
  other_columns <$> M !! m = other_columns <$> x →
  other_columns <$> foldl log_project_merchants M logs !! m
  = other_columns
    <$> run_writes apply_merchant_patch (log_merchant_write m <$> logs) x.
Proof.
  induction logs as [|log rest IH]; intros M x Heq; [done|].
  simpl. apply IH. unfold log_project_merchants, log_merchant_write.
  destruct (handled log) as [[e t]|].
  - rewrite project_merchants_other_columns.
    by apply run_write_other_columns.
  - simpl. by destruct (M !! m) as [[]|], x as [[]|].
Qed.




(** ** The event store *)

(** C3, as stated, fails: storing the same event a second time does not
    leave the log as it was; the log has the row twice. *)
Lemma storeEventLog_duplicate_appends :
  let db1 := (store_event (emptyDB true)).2 in
  let db2 := (store_event db1).2 in
  event_logs db1 = [event_row]
  ∧ event_logs db2 = [event_row; event_row]
  ∧ event_logs db2 ≠ event_logs db1.
Proof. repeat split. discriminate. Qed.

(** C3, amended.  Inserting an event, also one whose dedup key is already
    stored, raises no error and appends one row to the event log: the log
    after the insert is the log before it followed by the new row, and the
    other tables are untouched. *)
Theorem storeEventLog_appends (blockNumber : Z) (txHash eventName : string)
    (args : Event) (timestamp : Z) (db : DB) :
  let row := mkEventLog blockNumber txHash eventName args timestamp in
  ∃ db',
    storeEventLog blockNumber txHash eventName args timestamp db
      = (Return tt, db')
    ∧ event_logs db' = event_logs db ++ [row]
    ∧ length (filter (λ r, dedup_key r = dedup_key row) (event_logs db'))
      = S (length (filter (λ r, dedup_key r = dedup_key row) (event_logs db)))
    ∧ merchants db' = merchants db
    ∧ payment_intents db' = payment_intents db
    ∧ webhook_deliveries db' = webhook_deliveries db
    ∧ indexer_state db' = indexer_state db.
Proof.
  intros row. eexists. split; [reflexivity|]. simpl.
  repeat split. rewrite filter_app, length_app.
  rewrite filter_cons_True by done. simpl. lia.
Qed.

(** ** The payment-intent row *)

(** C4, as stated, fails: a PaymentIntentCreated event for a payment that
    already has a row (here a Completed one) does not leave the row
    unchanged; the row is replaced by a Pending one and [payer], [paid_at]
    and [platform_fee] are cleared.  A second PaymentCompleted event
    overwrites the three columns. *)
Lemma handlePaymentIntentCreated_replaces_completed :
  Forall (λ fk,
    let db := db_completed fk in
    let db' := (handlePaymentIntentCreated net_200 "0xP" "0xM" "0xUSDT" 100
                  9999 100 "0xT2" 1600 db).2 in
    let db'' := (handlePaymentCompleted net_200 "0xP" "0xD" "0xM" 100 2 1900
                   db).2 in
    payment_intents db !! "0xP" = Some row_completed
    ∧ payment_intents db' !! "0xP"
      = Some (mkPaymentIntent "0xM" "0xUSDT" 100 9999 Pending 1600
                None None None 100 "0xT2")
    ∧ payer_columns <$> payment_intents db'' !! "0xP"
      = Some (Some "0xD", Some 1900, Some 2))
  [true; false].
Proof. repeat constructor; vm_compute; reflexivity. Qed.

Lemma project_payments_payer_columns e blockNumber txHash timestamp
    (P : gmap string PaymentIntent) (p : string) :
  writes_payer_columns p e = false →
  payer_columns <$> project_payments e blockNumber txHash timestamp P !! p
  = payer_columns <$> P !! p.
Proof.
  intros Hw. destruct e; simpl in *; try done.
  - apply bool_decide_eq_false in Hw. by rewrite lookup_insert_ne.
  - apply bool_decide_eq_false in Hw. by rewrite lookup_alter_ne.
  - rewrite lookup_alter. case_decide; [subst|done]. by destruct (P !! p).
  - rewrite lookup_alter. case_decide; [subst|done]. by destruct (P !! p).
  - rewrite lookup_alter. case_decide; [subst|done]. by destruct (P !! p).
Qed.

(** [Number] is exact up to 2^53 and rounds beyond: 2^53 + 1 becomes 2^53,
    2^53 + 3 becomes 2^53 + 4. *)
Lemma Number_exact (x : Z) : Z.abs x < 2 ^ 53 → Number x = x.
Proof.
  intros Hx. unfold Number.
  destruct (decide (x = 0)) as [->|Hne]; [done|].
  assert (Z.log2 (Z.abs x) < 53) as Hlog by (apply Z.log2_lt_pow2; lia).
  destruct (Z.log2 (Z.abs x) <? 53) eqn:E; [done|lia].
Qed.

Lemma Number_rounds :
  Number (2 ^ 53 + 1) = 2 ^ 53 ∧ Number (2 ^ 53 + 3) = 2 ^ 53 + 4.
Proof. split; vm_compute; reflexivity. Qed.

(** C4, amended.  [payment_intents] is keyed by [payment_id], so a payment
    has at most one row.  Handling a PaymentIntentCreated event whose insert
    is accepted writes the Pending row of the event with [payer], [paid_at]
    and [platform_fee] unset, replacing a row that already exists (no second
    row appears); the expiry is stored as [Number(args.expiryTimestamp)],
    the event's value when that is below 2^53.  Handling a PaymentCompleted
    event for a payment with a row sets the three columns from the event
    ([paid_at] as [Number(args.timestamp)]), whatever the status of the row.
    No other event changes them. *)
Theorem payment_row_written (net : Net) (db : DB) (p : string) :
  (∀ m tok a x blockNumber txHash timestamp,
     pragma_foreign_keys db = false ∨ is_Some (merchants db !! m) →
     let db' := (handlePaymentIntentCreated net p m tok a x blockNumber txHash
                   timestamp db).2 in
     payment_intents db' !! p
     = Some (mkPaymentIntent m tok a (Number x) Pending timestamp None None
               None blockNumber txHash)
     ∧ (Z.abs x < 2 ^ 53 → Number x = x)
     ∧ (∀ q, q ≠ p → payment_intents db' !! q = payment_intents db !! q)
     ∧ (is_Some (payment_intents db !! p) →
        dom (payment_intents db') = dom (payment_intents db)))
  ∧ (∀ row c m a f t,
       payment_intents db !! p = Some row →
       let db' := (handlePaymentCompleted net p c m a f t db).2 in
       payment_intents db' !! p = Some (set_completed c (Number t) f row)
       ∧ payer_columns (set_completed c (Number t) f row)
         = (Some c, Some (Number t), Some f))
  ∧ (∀ e blockNumber txHash timestamp,
       writes_payer_columns p e = false →
       let db' := (dispatch net e blockNumber txHash timestamp db).2 in
       payer_columns <$> payment_intents db' !! p
       = payer_columns <$> payment_intents db !! p).
Proof.
  split; [|split].
  - intros m tok a x blockNumber txHash timestamp Hfk db'.
    pose proof (dispatch_payment_intents net (PaymentIntentCreated p m tok a x)
                  blockNumber txHash timestamp db) as Hp.
    simpl in Hp. fold db' in Hp.
    replace (pragma_foreign_keys db
             && negb (bool_decide (is_Some (merchants db !! m)))) with false
      in Hp.
    2:{ destruct Hfk as [->|Hm]; [done|].
        rewrite (bool_decide_eq_true_2 _ Hm). by rewrite andb_false_r. }
    rewrite Hp. split; [apply lookup_insert_eq|].
    split; [apply Number_exact|]. split.
    + intros q Hq. by rewrite lookup_insert_ne.
    + intros Hsome. rewrite dom_insert_L.
      apply subseteq_union_1_L, singleton_subseteq_l. by apply elem_of_dom.
  - intros row c m a f t Hrow db'.
    pose proof (dispatch_payment_intents net (PaymentCompleted p c m a f t)
                  0 "" 0 db) as Hp.
    simpl in Hp. fold db' in Hp. rewrite Hp.
    split; [|done]. rewrite lookup_alter_eq. by rewrite Hrow.
  - intros e blockNumber txHash timestamp Hw db'. unfold db'.
    rewrite dispatch_payment_intents.
    destruct (insert_rejected e db); [done|].
    by apply project_payments_payer_columns.
Qed.

Lemma payment_row_written_witness :
  payment_intents
    (handlePaymentIntentCreated net_200 "0xP" "0xM" "0xUSDT" 100 9999 100
       "0xT2" 1600 (db_completed true)).2 !! "0xP"
  = Some (mkPaymentIntent "0xM" "0xUSDT" 100 9999 Pending 1600
            None None None 100 "0xT2")
  ∧ payment_intents
      (handlePaymentCompleted net_200 "0xP" "0xD" "0xM" 100 2 1900
         (db_completed true)).2 !! "0xP"
    = Some (set_completed "0xD" 1900 2 row_completed)
  ∧ payer_columns <$>
      payment_intents
        (dispatch net_200 (PaymentExpired "0xP" 1800) 110 "0xT4" 1800
           (db_completed true)).2 !! "0xP"
    = payer_columns <$> payment_intents (db_completed true) !! "0xP".
Proof.
  destruct (payment_row_written net_200 (db_completed true) "0xP")
    as (Hcreated & Hcompleted & Hother).
  split; [|split].
  - apply Hcreated. right. vm_compute. eauto.
  - apply (Hcompleted row_completed). vm_compute. reflexivity.
  - apply Hother. reflexivity.
Defined.

(** ** The merchant projection *)

(** C5, as stated, fails: a second registration of an address replaces the
    row and resets the accumulated total. *)
Lemma handleMerchantRegistered_resets_total :
  merchants db_merchant_paid !! "0xM" = Some (mkMerchant "Shop" true 1600 100)
  ∧ merchants (handleMerchantRegistered "0xM" "Shop" 1600 db_merchant_paid).2 !! "0xM"
    = Some (mkMerchant "Shop" true 1600 0)
  ∧ merchants (handleMerchantRegistered "0xM" "Shop" 1600 db_merchant_paid).2
    ≠ merchants db_merchant_paid.
Proof.
  split; [reflexivity|]. split; [reflexivity|].
  intros H. apply (f_equal (λ m, m !! "0xM")) in H.
  vm_compute in H. discriminate.
Qed.

(** C5, amended.  Handling a MerchantRegistered event writes the row of the
    address with [is_active] true and a zero total whether or not the
    address already has a row (an existing row, with its accumulated total,
    is replaced); the rows of other addresses are left unchanged.  The
    registration time is stored as [Number(args.timestamp)]. *)
Theorem handleMerchantRegistered_replaces (merchant businessName : string)
    (timestamp : Z) (db : DB) :
  ∃ db',
    handleMerchantRegistered merchant businessName timestamp db
      = (Return tt, db')
    ∧ merchants db' !! merchant
      = Some (mkMerchant businessName true (Number timestamp) 0)
    ∧ (∀ other, other ≠ merchant →
         merchants db' !! other = merchants db !! other).
Proof.
  eexists. split; [reflexivity|]. simpl. split.
  - apply lookup_insert_eq.
  - intros other Hne. by apply lookup_insert_ne.
Qed.

(** ** The selection of the retry worker *)

(** C6, as stated, fails: a pending delivery with no attempts and a null
    [next_retry_at] satisfies the selection of the specification and is not
    selected by the worker's query. *)
Lemma pendingRetries_skips_null_retry :
  webhook_deliveries db_unsent !! 1 = Some delivery_unsent
  ∧ spec_due 100 delivery_unsent = true
  ∧ 1 ∉ pendingRetries 100 db_unsent.
Proof.
  split; [reflexivity|]. split; [reflexivity|].
  assert (pendingRetries 100 db_unsent = []) as -> by (vm_compute; reflexivity).
  apply not_elem_of_nil.
Qed.

(** C6, amended.  A tick of the retry worker selects exactly the deliveries
    with status [pending], [attempts < MAX_RETRY_ATTEMPTS] and a
    [next_retry_at] that is set and not after the current time; a delivery
    whose [next_retry_at] is null is never selected.  The first attempt of a
    delivery is made by [triggerWebhook] when it creates the row. *)
Theorem pendingRetries_exact (now : Z) (db : DB) (id : Z) :
  (id ∈ pendingRetries now db ↔
     ∃ d t, webhook_deliveries db !! id = Some d
            ∧ d_status d = pending
            ∧ attempts d < MAX_RETRY_ATTEMPTS
            ∧ next_retry_at d = Some t ∧ t ≤ now)
  ∧ (∀ d, webhook_deliveries db !! id = Some d → next_retry_at d = None →
          id ∉ pendingRetries now db)
  ∧ (∀ net m p ev pl,
       reachable db →
       (pragma_foreign_keys db = true → is_Some (payment_intents db !! p)) →
       ∃ db', triggerWebhook net m p ev pl db = (Return tt, db')
              ∧ enqueued db db' m p ev pl).
Proof.
  pose proof (pendingRetries_elem now db id) as Hsel.
  split; [|split].
  - rewrite Hsel. unfold retry_due. split.
    + intros (d & Hd & Hdue).
      apply andb_true_iff in Hdue as [Hdue Hatt].
      apply andb_true_iff in Hdue as [Hst Hnext].
      apply bool_decide_eq_true in Hst.
      destruct (next_retry_at d) as [t|] eqn:Ht; [|done].
      exists d, t. repeat split; try done; lia.
    + intros (d & t & Hd & Hst & Hatt & Ht & Hle). exists d. split; [done|].
      rewrite Ht. rewrite bool_decide_eq_true_2 by done. simpl.
      apply andb_true_iff. split; lia.
  - intros d Hd Hnull. rewrite Hsel. intros (d' & Hd' & Hdue).
    rewrite Hd in Hd'. inversion Hd'; subst d'.
    unfold retry_due in Hdue. rewrite Hnull in Hdue.
    by rewrite andb_false_r in Hdue.
  - intros net m p ev pl Hreach Hfk.
    destruct (triggerWebhook_enqueues net m p ev pl db) as (db' & Hrun & _ & Henq);
      [by apply reachable_deliveries_ok|done|].
    by exists db'.
Qed.

Lemma pendingRetries_exact_witness :
  1 ∈ pendingRetries 1060 db_retry_due ∧ 1 ∉ pendingRetries 100 db_unsent.
Proof.
  split.
  - apply (proj1 (pendingRetries_exact 1060 db_retry_due 1)).
    eexists _, 1060. split; [reflexivity|]. split; [reflexivity|].
    split; [reflexivity|]. split; [reflexivity|lia].
  - apply (proj1 (proj2 (pendingRetries_exact 100 db_unsent 1)) delivery_unsent);
      reflexivity.
Defined.

(** ** Retry delays and the failure branch of [sendWebhook] *)

Lemma nextRetryDelay_table (attempts : Z) :
  1 ≤ attempts ≤ 5 →
  js_index RETRY_DELAYS (attempts - 1) = Some (nextRetryDelay attempts).
Proof.
  intros H.
  assert (attempts = 1 ∨ attempts = 2 ∨ attempts = 3 ∨ attempts = 4
          ∨ attempts = 5) as Hc by lia.
  destruct Hc as [->|[->|[->|[->| ->]]]]; reflexivity.
Qed.

Lemma nextRetryDelay_clamped (attempts : Z) :
  5 < attempts → nextRetryDelay attempts = 7200.
Proof.
  intros H. unfold nextRetryDelay, js_index.
  destruct (attempts - 1 <? 0) eqn:E; [lia|].
  replace (RETRY_DELAYS !! Z.to_nat (attempts - 1)) with (@None Z); [done|].
  symmetry. apply lookup_ge_None_2. simpl. lia.
Qed.



(** ** The backend, await by await: the sends *)

Lemma resume_Some i f s s' :
  resume i f s = Some s' →
  ∃ t t' db',
    tasks s !! i = Some t
    ∧ f t (database s) = Some (t', db')
    ∧ s' = mkSystem db' (<[i := t']> (tasks s)).
Proof.
  unfold resume. destruct (tasks s !! i) as [t|] eqn:Hi; [|done].
  destruct (f t (database s)) as [[t' db']|] eqn:Hf; [|done].
  intros [= <-]. by exists t, t', db'.
Qed.

Lemma tasks_split (ts : list Task) (i : nat) (t t' : Task) :
  ts !! i = Some t →
  ∃ l1 l2, ts = l1 ++ t :: l2 ∧ <[i := t']> ts = l1 ++ t' :: l2.
Proof.
  intros Hi. exists (take i ts), (drop (S i) ts). split.
  - symmetry. by apply take_drop_middle.
  - apply insert_take_drop. by eapply lookup_lt_Some.
Qed.

Lemma claimed_sending (t : Task) (sg : Sending) :
  sending_of t = Some sg → sending_id sg ∈ claimed t.
Proof.
  intros Hs. unfold claimed. rewrite Hs. simpl. by left.
Qed.

Lemma claimed_bind (ts : list Task) (t : Task) (id : Z) :
  t ∈ ts → id ∈ claimed t → id ∈ ts ≫= claimed.
Proof. intros Ht Hid. apply list_elem_of_bind. by exists t. Qed.

(** What the invariant says about one task and about the others. *)
Lemma sends_ok_split db l1 t l2 :
  sends_ok (mkSystem db (l1 ++ t :: l2)) →
  NoDup (claimed t)
  ∧ NoDup ((l1 ++ l2) ≫= claimed)
  ∧ (∀ id, id ∈ claimed t → id ∉ (l1 ++ l2) ≫= claimed).
Proof.
  intros (_ & Hnodup & _). simpl in Hnodup.
  rewrite bind_app, bind_cons in Hnodup. rewrite bind_app.
  apply NoDup_app in Hnodup as (H1 & H12 & Ht2).
  apply NoDup_app in Ht2 as (Ht & Ht2 & H2).
  split; [done|]. split.
  - apply NoDup_app. split; [done|]. split; [|done].
    intros id Hid Hid2. apply (H12 id Hid). apply elem_of_app. by right.
  - intros id Hid [Hin|Hin]%elem_of_app.
    + apply (H12 id Hin). apply elem_of_app. by left.
    + by apply (Ht2 id).
Qed.

(** Replacing one task, and the rows only it claims. *)
Lemma sends_ok_replace db db' l1 t t' l2 :
  sends_ok (mkSystem db (l1 ++ t :: l2)) →
  deliveries_ok db' →
  (∀ id, id ∈ (l1 ++ l2) ≫= claimed →
     webhook_deliveries db' !! id = webhook_deliveries db !! id) →
  NoDup (claimed t') →
  (∀ id, id ∈ claimed t' → id ∉ (l1 ++ l2) ≫= claimed) →
  (∀ id, id ∈ claimed t' →
     ∃ d, webhook_deliveries db' !! id = Some d ∧ d_status d = pending) →
  (∀ sg, sending_of t' = Some sg →
     ∃ d, webhook_deliveries db' !! sending_id sg = Some d
          ∧ attempts d = read_attempts sg
          ∧ (first_send t' = true → next_retry_at d = None)) →
  sends_ok (mkSystem db' (l1 ++ t' :: l2)).
Proof.
  intros Hok Hok' Hsame Hnodup' Hfresh Hpending Hsending.
  destruct (sends_ok_split _ _ _ _ Hok) as (_ & Hothers & _).
  destruct Hok as (_ & _ & Hpend & Hsend). simpl in *.
  assert (∀ id, id ∈ (l1 ++ l2) ≫= claimed →
                id ∈ (l1 ++ t :: l2) ≫= claimed) as Hsub.
  { intros id. rewrite !bind_app, bind_cons, !elem_of_app. tauto. }
  split; [done|]. split; [|split].
  - simpl. rewrite bind_app, bind_cons. rewrite bind_app in Hothers, Hfresh.
    apply NoDup_app in Hothers as (H1 & H12 & H2).
    apply NoDup_app. split; [done|]. split.
    + intros id Hid [Hin|Hin]%elem_of_app.
      * apply (Hfresh id Hin). apply elem_of_app. by left.
      * by apply (H12 id).
    + apply NoDup_app. split; [done|]. split; [|done].
      intros id Hid Hin. apply (Hfresh id Hid). apply elem_of_app. by right.
  - simpl. intros id. rewrite bind_app, bind_cons, !elem_of_app.
    intros [Hin|[Hin|Hin]]; [|by apply Hpending|].
    + rewrite Hsame by (rewrite bind_app; apply elem_of_app; by left).
      apply Hpend, Hsub. rewrite bind_app. apply elem_of_app. by left.
    + rewrite Hsame by (rewrite bind_app; apply elem_of_app; by right).
      apply Hpend, Hsub. rewrite bind_app. apply elem_of_app. by right.
  - simpl. intros t0 sg Ht0 Hsg.
    apply elem_of_app in Ht0 as [Ht0|Ht0];
      [|apply elem_of_cons in Ht0 as [->|Ht0]; [by apply Hsending|]].
    + rewrite Hsame.
      * apply (Hsend t0 sg); [|done]. apply elem_of_app. by left.
      * apply (claimed_bind _ t0); [|by apply claimed_sending].
        apply elem_of_app. by left.
    + rewrite Hsame.
      * apply (Hsend t0 sg); [|done]. apply elem_of_app. right. by right.
      * apply (claimed_bind _ t0); [|by apply claimed_sending].
        apply elem_of_app. by right.
Qed.

(** A task that claims nothing replaces one that claimed nothing. *)
Lemma sends_ok_replace_idle db db' l1 t t' l2 :
  sends_ok (mkSystem db (l1 ++ t :: l2)) →
  webhook_deliveries db' = webhook_deliveries db →
  webhook_deliveries_seq db' = webhook_deliveries_seq db →
  claimed t' = [] → sending_of t' = None →
  sends_ok (mkSystem db' (l1 ++ t' :: l2)).
Proof.
  intros Hok Hd Hseq Hclaimed Hsending.
  apply (sends_ok_replace db db' l1 t t' l2 Hok).
  - destruct Hok as (Hok & _). unfold deliveries_ok in *. simpl in *.
    by rewrite Hd, Hseq.
  - intros id _. by rewrite Hd.
  - rewrite Hclaimed. constructor.
  - rewrite Hclaimed. by intros id ?%elem_of_nil.
  - rewrite Hclaimed. by intros id ?%elem_of_nil.
  - by rewrite Hsending.
Qed.

Lemma claimed_nil : ([] : list Task) ≫= claimed = [].
Proof. reflexivity. Qed.

(** A new task. *)
Lemma sends_ok_spawn (s : System) (t : Task) :
  sends_ok s →
  sending_of t = None →
  NoDup (claimed t) →
  (∀ id, id ∈ claimed t → id ∉ tasks s ≫= claimed) →
  (∀ id, id ∈ claimed t →
     ∃ d, webhook_deliveries (database s) !! id = Some d
          ∧ d_status d = pending) →
  sends_ok (spawn t s).
Proof.
  intros (Hok & Hnodup & Hpend & Hsend) Hnone Hnodup' Hfresh Hpending.
  unfold spawn. split; [done|]. simpl. split; [|split].
  - rewrite bind_app, bind_cons, claimed_nil, app_nil_r.
    apply NoDup_app. split; [done|]. split; [|done].
    intros id Hid Hin. by apply (Hfresh id).
  - intros id. rewrite bind_app, bind_cons, claimed_nil, app_nil_r, elem_of_app.
    intros [Hin|Hin]; [by apply Hpend|by apply Hpending].
  - intros t0 sg [Ht0|Ht0]%elem_of_app Hsg; [by apply (Hsend t0)|].
    apply list_elem_of_singleton in Ht0 as ->. congruence.
Qed.

Lemma select_delivery_Some id db sg :
  select_delivery id db = Some sg →
  ∃ d, webhook_deliveries db !! id = Some d
       ∧ sg = mkSending id (attempts d).
Proof.
  unfold select_delivery. destruct (webhook_deliveries db !! id) as [d|]; [|done].
  destruct (has_config _ db); [|done]. intros [= <-]. by exists d.
Qed.

Lemma with_attempts_id (d : WebhookDelivery) : with_attempts (attempts d) d = d.
Proof. by destruct d. Qed.

(** A send that is not interleaved with another one of the same delivery
    writes what [sendWebhook] writes. *)
Lemma settle_as_sendWebhook (net : Net) (id : Z) (db : DB) (sg : Sending) :
  select_delivery id db = Some sg →
  update_delivery (net id) sg db = (sendWebhook net id db).2.
Proof.
  unfold select_delivery, sendWebhook, update_delivery.
  destruct (webhook_deliveries db !! id) as [d|] eqn:Hd; [|done].
  destruct (has_config _ db); [|done]. intros [= <-]. simpl.
  destruct db as [fk M P cfgs cseq D dseq chk logs].
  unfold set_webhook_deliveries. simpl in *. f_equal.
  apply map_eq. intros j. destruct (decide (j = id)) as [->|Hne].
  - by rewrite lookup_alter_eq, lookup_insert_eq, Hd.
  - by rewrite lookup_alter_ne, lookup_insert_ne.
Qed.

Lemma deliveries_ok_settle (a : Attempt) (sg : Sending) (db : DB)
    (d : WebhookDelivery) :
  deliveries_ok db →
  webhook_deliveries db !! sending_id sg = Some d →
  d_status d = pending →
  attempts d = read_attempts sg →
  deliveries_ok (update_delivery a sg db).
Proof.
  intros Hok Hd Hpending Hread id d'. unfold update_delivery. simpl.
  destruct (decide (id = sending_id sg)) as [->|Hne].
  - rewrite lookup_alter_eq, Hd. simpl. intros [= <-].
    destruct (Hok _ _ Hd) as (Hid & Hatt & Hleft).
    specialize (Hleft Hpending).
    split; [done|]. unfold settle. rewrite <- Hread, with_attempts_id.
    destruct (attempt_outcome_ok a d) as (Hb & Hp & _); [lia|].
    split; [done|]. intros Hp'. by apply Hp.
  - rewrite lookup_alter_ne by done. apply Hok.
Qed.

Lemma deliveries_ok_create c p ev body db id db' :
  deliveries_ok db →
  createWebhookDelivery c p ev body db = (Return id, db') →
  id = webhook_deliveries_seq db + 1
  ∧ webhook_deliveries db'
    = <[id := mkWebhookDelivery c p ev body pending 0 None None]>
        (webhook_deliveries db)
  ∧ webhook_configs db' = webhook_configs db
  ∧ deliveries_ok db'.
Proof.
  intros Hok. unfold createWebhookDelivery.
  destruct (pragma_foreign_keys db && _); [done|].
  intros [= <- <-]. split; [done|]. split; [done|]. split; [done|].
  intros id d. simpl.
  destruct (decide (id = webhook_deliveries_seq db + 1)) as [->|Hne].
  - rewrite lookup_insert_eq. intros [= <-]. simpl.
    unfold MAX_RETRY_ATTEMPTS. lia.
  - rewrite lookup_insert_ne by done. intros Hd.
    destruct (Hok _ _ Hd) as (? & ? & ?). split; [lia|done].
Qed.

Lemma createWebhookDelivery_throws c p ev body db e db' :
  createWebhookDelivery c p ev body db = (Throw e, db') → db' = db.
Proof.
  unfold createWebhookDelivery.
  destruct (pragma_foreign_keys db && _); [|done]. by intros [= _ <-].
Qed.

Lemma tick_idle_claims_nothing (ts : list Task) (t : Task) (id : Z) :
  existsb tick_running ts = false →
  t ∈ ts → id ∈ claimed t → first_send t = true.
Proof.
  intros Hidle Ht Hid.
  assert (tick_running t = false) as Hrun.
  { destruct (tick_running t) eqn:E; [|done].
    assert (existsb tick_running ts = true); [|congruence].
    apply existsb_exists. exists t. split; [|done].
    by apply list_elem_of_In. }
  destruct t as [[|id' queue] [sg|]|p ev body queue [sg|]|c ranges|];
    simpl in *; try done; by apply elem_of_nil in Hid.
Qed.

(** The invariant is kept by every action, provided the ticks of the
    retry worker do not overlap. *)
Lemma exec_sends_ok this_startBlock passes_overlap act s s' :
  exec this_startBlock false passes_overlap act s = Some s' →
  sends_ok s → sends_ok s'.
Proof.
  intros Hexec Hok. destruct act as [now|m p ev body|i|i a|c|i|i|i|db'|];
    simpl in Hexec.
  - (* TickFires *)
    destruct (existsb tick_running (tasks s)) eqn:Hidle; [done|].
    injection Hexec as <-.
    apply sends_ok_spawn; [done|done|apply pendingRetries_NoDup|..].
    + simpl. intros id Hid Hin.
      apply list_elem_of_bind in Hin as (t & Hclaim & Ht).
      pose proof (tick_idle_claims_nothing _ t id Hidle Ht Hclaim) as Hfirst.
      destruct t as [|p ev body queue [sg|]| |]; try done.
      destruct Hok as (_ & _ & _ & Hsend).
      destruct (Hsend _ sg Ht eq_refl) as (d & Hd & _ & Hnext).
      unfold claimed in Hclaim. simpl in Hclaim.
      apply list_elem_of_singleton in Hclaim as ->.
      apply pendingRetries_elem in Hid as (d' & Hd' & Hdue).
      rewrite Hd in Hd'. injection Hd' as <-.
      unfold retry_due in Hdue. rewrite (Hnext eq_refl) in Hdue.
      by rewrite andb_false_r in Hdue.
    + simpl. intros id Hid.
      apply pendingRetries_elem in Hid as (d & Hd & Hdue).
      exists d. split; [done|]. by apply (retry_due_pending now).
  - (* TriggerCalled *)
    injection Hexec as <-.
    apply sends_ok_spawn; [done|done|constructor|..];
      by intros id ?%elem_of_nil.
  - (* SendBegins *)
    apply resume_Some in Hexec as (t & t' & db' & Hi & Hbegin & ->).
    destruct (tasks_split _ i t t' Hi) as (l1 & l2 & Hts & ->).
    destruct s as [db ts]. simpl in *. subst ts.
    pose proof (sends_ok_split _ _ _ _ Hok) as (Hnodup & _ & Hfresh).
    pose proof Hok as (Hdok & _ & Hpend & _). simpl in *.
    destruct t as [[|id queue] [sg|]|p ev body [|webhook queue] [sg|]|c ranges|];
      try done.
    + (* the worker *)
      injection Hbegin as <- <-.
      assert (∀ id', id' ∈ claimed (WorkerTick queue (select_delivery id db)) →
                     id' ∈ claimed (WorkerTick (id :: queue) None)) as Hsub.
      { intros id'. unfold claimed. simpl.
        destruct (select_delivery id db) as [sg|] eqn:Hsel; simpl.
        - apply select_delivery_Some in Hsel as (d & _ & ->). simpl.
          rewrite !elem_of_cons. tauto.
        - rewrite elem_of_cons. tauto. }
      apply (sends_ok_replace db db l1 _ _ l2 Hok); try done.
      * unfold claimed in *. simpl in *.
        destruct (select_delivery id db) as [sg|] eqn:Hsel; simpl.
        -- apply select_delivery_Some in Hsel as (d & _ & ->). done.
        -- by apply NoDup_cons in Hnodup as [_ ?].
      * intros id' Hid'. by apply Hfresh, Hsub.
      * intros id' Hid'. apply Hpend. rewrite bind_app, bind_cons, !elem_of_app.
        right. left. by apply Hsub.
      * intros sg Hsg. simpl in Hsg.
        apply select_delivery_Some in Hsg as (d & Hd & ->). by exists d.
    + (* triggerWebhook *)
      cbn [begin_send] in Hbegin.
      destruct (createWebhookDelivery (wc_id webhook) p ev body db)
        as [[id|e] db1] eqn:Hcreate; injection Hbegin as <- <-.
      * destruct (deliveries_ok_create _ _ _ _ _ _ _ Hdok Hcreate)
          as (Hid & Hrows & Hcfg & Hdok1).
        assert (∀ id', id' ∈ (l1 ++ TriggerCall p ev body (webhook :: queue)
                                       None :: l2) ≫= claimed → id' ≠ id)
          as Hold.
        { intros id' Hin ->. destruct (Hpend _ Hin) as (d & Hd & _).
          destruct (Hdok _ _ Hd) as (Hle & _). lia. }
        assert (∀ id', id' ∈ (l1 ++ l2) ≫= claimed → id' ≠ id) as Hold'.
        { intros id' Hin. apply Hold.
          revert Hin. rewrite !bind_app, bind_cons, !elem_of_app. tauto. }
        apply (sends_ok_replace db db1 l1 _ _ l2 Hok); try done.
        -- intros id' Hin. rewrite Hrows. apply lookup_insert_ne.
           intros Heq. by apply (Hold' id' Hin).
        -- unfold claimed. simpl. rewrite app_nil_r.
           destruct (select_delivery id db1); simpl; repeat constructor.
           by intros ?%elem_of_nil.
        -- unfold claimed. simpl. rewrite app_nil_r.
           intros id' Hid' Hin.
           destruct (select_delivery id db1) as [sg|] eqn:Hsel; simpl in Hid';
             [|by apply elem_of_nil in Hid'].
           apply select_delivery_Some in Hsel as (d & _ & ->). simpl in Hid'.
           apply list_elem_of_singleton in Hid'. by apply (Hold' id' Hin).
        -- unfold claimed. simpl. rewrite app_nil_r. intros id' Hid'.
           destruct (select_delivery id db1) as [sg|] eqn:Hsel; simpl in Hid';
             [|by apply elem_of_nil in Hid'].
           apply select_delivery_Some in Hsel as (d & _ & ->). simpl in Hid'.
           apply list_elem_of_singleton in Hid' as ->.
           rewrite Hrows, lookup_insert_eq. by eexists.
        -- simpl. intros sg Hsel.
           apply select_delivery_Some in Hsel as (d & Hd & ->). simpl.
           rewrite Hrows, lookup_insert_eq in Hd. injection Hd as <-.
           rewrite Hrows, lookup_insert_eq. by eexists.
      * apply createWebhookDelivery_throws in Hcreate as ->.
        by apply (sends_ok_replace_idle db db l1 _ _ l2 Hok).
  - (* PostSettles *)
    apply resume_Some in Hexec as (t & t' & db' & Hi & Hsettle & ->).
    destruct (tasks_split _ i t t' Hi) as (l1 & l2 & Hts & ->).
    destruct s as [db ts]. simpl in *. subst ts.
    pose proof (sends_ok_split _ _ _ _ Hok) as (Hnodup & _ & Hfresh).
    pose proof Hok as (Hdok & _ & Hpend & Hsend). simpl in *.
    assert (∃ sg, sending_of t = Some sg
                  ∧ db' = update_delivery a sg db
                  ∧ sending_of t' = None
                  ∧ claimed t = sending_id sg :: claimed t')
      as (sg & Hsg & -> & Hnone & Hclaim).
    { destruct t as [queue [sg|]|p ev body queue [sg|]|c ranges|]; try done;
        injection Hsettle as <- <-; by exists sg. }
    destruct (Hsend t sg) as (d & Hd & Hread & _); [|done|].
    { apply elem_of_app. right. by left. }
    destruct (Hpend (sending_id sg)) as (d0 & Hd0 & Hpending).
    { apply (claimed_bind _ t); [|by apply claimed_sending].
      apply elem_of_app. right. by left. }
    rewrite Hd in Hd0. injection Hd0 as <-.
    rewrite Hclaim in Hnodup, Hfresh. apply NoDup_cons in Hnodup as [Hsid Hnodup].
    assert (∀ id, id ≠ sending_id sg →
              webhook_deliveries (update_delivery a sg db) !! id
              = webhook_deliveries db !! id) as Hother.
    { intros id Hne. unfold update_delivery. simpl.
      by rewrite lookup_alter_ne. }
    apply (sends_ok_replace db _ l1 t t' l2 Hok).
    + by apply (deliveries_ok_settle a sg db d).
    + intros id Hin. apply Hother. intros ->.
      apply (Hfresh (sending_id sg)); [by left|done].
    + done.
    + intros id Hid. apply Hfresh. by right.
    + intros id Hid. rewrite Hother by (by intros ->).
      apply Hpend. rewrite bind_app, bind_cons, !elem_of_app. right. left.
      rewrite Hclaim. by right.
    + by rewrite Hnone.
  - (* PassBegins *)
    destruct (_ && _); [|done].
    destruct (_ >? c); injection Hexec as <-; [done|].
    apply sends_ok_spawn; [done|done|constructor|..];
      by intros id ?%elem_of_nil.
  - (* BatchFetched *)
    apply resume_Some in Hexec as (t & t' & db' & Hi & Hf & ->).
    destruct (tasks_split _ i t t' Hi) as (l1 & l2 & Hts & ->).
    destruct s as [db ts]. simpl in *. subst ts.
    destruct t as [| |c [|range ranges]|]; try done.
    injection Hf as <- <-.
    by apply (sends_ok_replace_idle db db l1 _ _ l2 Hok).
  - (* BatchFails *)
    apply resume_Some in Hexec as (t & t' & db' & Hi & Hf & ->).
    destruct (tasks_split _ i t t' Hi) as (l1 & l2 & Hts & ->).
    destruct s as [db ts]. simpl in *. subst ts.
    destruct t as [| |c [|range ranges]|]; try done.
    injection Hf as <- <-.
    by apply (sends_ok_replace_idle db db l1 _ _ l2 Hok).
  - (* PassEnds *)
    apply resume_Some in Hexec as (t & t' & db' & Hi & Hf & ->).
    destruct (tasks_split _ i t t' Hi) as (l1 & l2 & Hts & ->).
    destruct s as [db ts]. simpl in *. subst ts.
    destruct t as [| |c [|range ranges]|]; try done.
    injection Hf as <- <-.
    by apply (sends_ok_replace_idle db _ l1 _ _ l2 Hok).
  - (* OtherWrites *)
    injection Hexec as <-.
    destruct Hok as (Hdok & Hnodup & Hpend & Hsend).
    split; [|split; [|split]]; done.
  - (* ProcessExits *)
    injection Hexec as <-. destruct Hok as (Hdok & _).
    split; [done|]. simpl. split; [constructor|]. split.
    + by intros id ?%elem_of_nil.
    + by intros t sg ?%elem_of_nil.
Qed.

(** No action changes a delivery that is [success] or [failed]. *)
Lemma exec_keeps_terminal this_startBlock ticks_overlap passes_overlap act s s' :
  exec this_startBlock ticks_overlap passes_overlap act s = Some s' →
  sends_ok s →
  ∀ id d, webhook_deliveries (database s) !! id = Some d → terminal d →
          webhook_deliveries (database s') !! id = Some d.
Proof.
  intros Hexec Hok id d Hd Hterm.
  destruct act as [now|m p ev body|i|i a|c|i|i|i|db'|]; simpl in Hexec.
  - destruct (_ || _); [|done]. by injection Hexec as <-.
  - by injection Hexec as <-.
  - apply resume_Some in Hexec as (t & t' & db' & Hi & Hbegin & ->). simpl.
    destruct t as [[|id' queue] [sg|]|p ev body [|webhook queue] [sg|]|c ranges|];
      try done.
    + by injection Hbegin as <- <-.
    + destruct Hok as (Hdok & _). cbn [begin_send] in Hbegin.
      destruct (createWebhookDelivery (wc_id webhook) p ev body (database s))
        as [[id'|e] db1] eqn:Hcreate; injection Hbegin as <- <-.
      * destruct (deliveries_ok_create _ _ _ _ _ _ _ Hdok Hcreate)
          as (Hid & -> & _).
        rewrite lookup_insert_ne; [done|]. intros ->.
        destruct (Hdok _ _ Hd) as (Hle & _). lia.
      * by apply createWebhookDelivery_throws in Hcreate as ->.
  - apply resume_Some in Hexec as (t & t' & db' & Hi & Hsettle & ->). simpl.
    assert (∃ sg, sending_of t = Some sg ∧ db' = update_delivery a sg (database s))
      as (sg & Hsg & ->).
    { destruct t as [queue [sg|]|p ev body queue [sg|]|c ranges|]; try done;
        injection Hsettle as <- <-; by exists sg. }
    destruct Hok as (_ & _ & Hpend & _).
    destruct (Hpend (sending_id sg)) as (d0 & Hd0 & Hpending).
    { apply (claimed_bind _ t); [by eapply list_elem_of_lookup_2|].
      by apply claimed_sending. }
    unfold update_delivery. simpl. rewrite lookup_alter_ne; [done|].
    intros <-. rewrite Hd in Hd0. injection Hd0 as <-. by apply Hterm.
  - destruct (_ && _); [|done]. by destruct (_ >? c); injection Hexec as <-.
  - apply resume_Some in Hexec as (t & t' & db' & Hi & Hf & ->). simpl.
    destruct t as [| |c [|range ranges]|]; try done. by injection Hf as <- <-.
  - apply resume_Some in Hexec as (t & t' & db' & Hi & Hf & ->). simpl.
    destruct t as [| |c [|range ranges]|]; try done. by injection Hf as <- <-.
  - apply resume_Some in Hexec as (t & t' & db' & Hi & Hf & ->). simpl.
    destruct t as [| |c [|range ranges]|]; try done. by injection Hf as <- <-.
  - by injection Hexec as <-.
  - by injection Hexec as <-.
Qed.

Lemma sends_ok_initial (fk : bool) : sends_ok (mkSystem (emptyDB fk) []).
Proof.
  split; [by intros id d ?|]. simpl. split; [constructor|]. split.
  - by intros id ?%elem_of_nil.
  - by intros t sg ?%elem_of_nil.
Qed.

Lemma rtc_sends_ok this_startBlock passes_overlap s s' :
  rtc (async_step this_startBlock false passes_overlap) s s' →
  sends_ok s → sends_ok s'.
Proof.
  induction 1 as [|s1 s2 s3 [act Hexec] _ IH]; [done|].
  intros Hok. apply IH. by eapply exec_sends_ok.
Qed.

Lemma rtc_keeps_terminal this_startBlock passes_overlap s s' :
  rtc (async_step this_startBlock false passes_overlap) s s' →
  sends_ok s →
  ∀ id d, webhook_deliveries (database s) !! id = Some d → terminal d →
          webhook_deliveries (database s') !! id = Some d.
Proof.
  induction 1 as [|s1 s2 s3 [act Hexec] _ IH]; [done|].
  intros Hok id d Hd Hterm. apply IH.
  - by eapply exec_sends_ok.
  - by eapply exec_keeps_terminal.
  - done.
Qed.

Lemma run_rtc this_startBlock ticks_overlap passes_overlap acts s s' :
  run this_startBlock ticks_overlap passes_overlap acts s = Some s' →
  rtc (async_step this_startBlock ticks_overlap passes_overlap) s s'.
Proof.
  revert s. induction acts as [|act acts IH]; intros s; simpl.
  - intros [= <-]. apply rtc_refl.
  - destruct (exec _ _ _ act s) as [s1|] eqn:Hexec; [|done].
    intros Hrun. eapply rtc_l; [by exists act|by apply IH].
Qed.

Lemma run_app this_startBlock ticks_overlap passes_overlap acts acts' s :
  run this_startBlock ticks_overlap passes_overlap (acts ++ acts') s
  = match run this_startBlock ticks_overlap passes_overlap acts s with
    | Some s' => run this_startBlock ticks_overlap passes_overlap acts' s'
    | None => None
    end.
Proof.
  revert s. induction acts as [|act acts IH]; intros s; simpl; [done|].
  by destruct (exec _ _ _ act s).
Qed.

(** ** The backend, await by await: a delivery that nothing sends *)

Lemma claimed_replace (l1 l2 : list Task) (t t' : Task) (id : Z) :
  (id ∈ claimed t' → id ∈ claimed t) →
  id ∉ (l1 ++ t :: l2) ≫= claimed →
  id ∉ (l1 ++ t' :: l2) ≫= claimed.
Proof.
  intros Hsub. rewrite !bind_app, !bind_cons, !elem_of_app. tauto.
Qed.

Lemma claimed_spawn (ts : list Task) (t : Task) (id : Z) :
  id ∉ claimed t → id ∉ ts ≫= claimed → id ∉ (ts ++ [t]) ≫= claimed.
Proof.
  rewrite bind_app, bind_cons, claimed_nil, app_nil_r, elem_of_app. tauto.
Qed.

Lemma createWebhookDelivery_Return c p ev body db id db' :
  createWebhookDelivery c p ev body db = (Return id, db') →
  id = webhook_deliveries_seq db + 1
  ∧ webhook_deliveries db'
    = <[id := mkWebhookDelivery c p ev body pending 0 None None]>
        (webhook_deliveries db)
  ∧ webhook_deliveries_seq db' = id
  ∧ indexer_state db' = indexer_state db.
Proof.
  unfold createWebhookDelivery.
  destruct (pragma_foreign_keys db && _); [done|]. by intros [= <- <-].
Qed.

(** Every action leaves a stranded delivery stranded, and as it is. *)
Lemma exec_stranded this_startBlock ticks_overlap passes_overlap act s s'
    (id : Z) (d : WebhookDelivery) :
  exec this_startBlock ticks_overlap passes_overlap act s = Some s' →
  stranded id d s → stranded id d s'.
Proof.
  intros Hexec (Hd & Hseq & Hnext & Hfree).
  destruct act as [now|m p ev body|i|i a|c|i|i|i|db'|]; simpl in Hexec.
  - destruct (_ || _); [|done]. injection Hexec as <-.
    split; [done|]. split; [done|]. split; [done|]. simpl.
    apply claimed_spawn; [|done]. unfold claimed. simpl.
    intros (d' & Hd' & Hdue)%pendingRetries_elem.
    rewrite Hd in Hd'. injection Hd' as <-.
    unfold retry_due in Hdue. rewrite Hnext in Hdue.
    by rewrite andb_false_r in Hdue.
  - injection Hexec as <-. split; [done|]. split; [done|]. split; [done|].
    simpl. apply claimed_spawn; [|done]. by intros ?%elem_of_nil.
  - apply resume_Some in Hexec as (t & t' & db' & Hi & Hbegin & ->).
    destruct (tasks_split _ i t t' Hi) as (l1 & l2 & Hts & ->).
    unfold stranded. simpl. rewrite Hts in Hfree.
    destruct t as [[|id' queue] [sg|]|p ev body [|webhook queue] [sg|]|c ranges|];
      try done.
    + injection Hbegin as <- <-. split; [done|]. split; [done|].
      split; [done|]. eapply claimed_replace; [|exact Hfree].
      unfold claimed. simpl.
      destruct (select_delivery id' (database s)) as [sg|] eqn:Hsel; simpl.
      * apply select_delivery_Some in Hsel as (d' & _ & ->). simpl.
        rewrite !elem_of_cons. tauto.
      * rewrite elem_of_cons. tauto.
    + cbn [begin_send] in Hbegin.
      destruct (createWebhookDelivery (wc_id webhook) p ev body (database s))
        as [[id'|e] db1] eqn:Hcreate; injection Hbegin as <- <-.
      * apply createWebhookDelivery_Return in Hcreate
          as (Hid & Hrows & Hseq' & _).
        assert (id ≠ id') as Hne by lia.
        split; [by rewrite Hrows, lookup_insert_ne|]. split; [lia|].
        split; [done|].
        assert (id ∉ (l1 ++ TriggerCall p ev body (webhook :: queue) None :: l2)
                       ≫= claimed → id ∉ (l1 ++ l2) ≫= claimed) as Hrest.
        { rewrite !bind_app, bind_cons, !elem_of_app. tauto. }
        apply Hrest in Hfree.
        assert (id ∉ claimed (TriggerCall p ev body queue
                                (select_delivery id' db1))) as Hnew.
        { unfold claimed. simpl.
          destruct (select_delivery id' db1) as [sg|] eqn:Hsel; simpl.
          - apply select_delivery_Some in Hsel as (d' & _ & ->). simpl.
            by intros ?%list_elem_of_singleton.
          - by intros ?%elem_of_nil. }
        revert Hfree. rewrite !bind_app, bind_cons, !elem_of_app. tauto.
      * apply createWebhookDelivery_throws in Hcreate as ->.
        split; [done|]. split; [done|]. split; [done|].
        eapply claimed_replace; [|exact Hfree]. by intros ?%elem_of_nil.
  - apply resume_Some in Hexec as (t & t' & db' & Hi & Hsettle & ->).
    destruct (tasks_split _ i t t' Hi) as (l1 & l2 & Hts & ->).
    unfold stranded. simpl. rewrite Hts in Hfree.
    assert (∃ sg, db' = update_delivery a sg (database s)
                  ∧ claimed t = sending_id sg :: claimed t')
      as (sg & -> & Hclaim).
    { destruct t as [queue [sg|]|p ev body queue [sg|]|c ranges|]; try done;
        injection Hsettle as <- <-; by exists sg. }
    assert (id ≠ sending_id sg) as Hne.
    { intros ->. apply Hfree. rewrite bind_app, bind_cons, !elem_of_app.
      right. left. rewrite Hclaim. by left. }
    unfold update_delivery. simpl.
    split; [by rewrite lookup_alter_ne|]. split; [done|]. split; [done|].
    eapply claimed_replace; [|exact Hfree]. rewrite Hclaim. by right.
  - destruct (_ && _); [|done].
    destruct (_ >? c); injection Hexec as <-; [done|].
    split; [done|]. split; [done|]. split; [done|]. simpl.
    apply claimed_spawn; [|done]. by intros ?%elem_of_nil.
  - apply resume_Some in Hexec as (t & t' & db' & Hi & Hf & ->).
    destruct (tasks_split _ i t t' Hi) as (l1 & l2 & Hts & ->).
    unfold stranded. simpl. rewrite Hts in Hfree.
    destruct t as [| |c [|range ranges]|]; try done. injection Hf as <- <-.
    split; [done|]. split; [done|]. split; [done|].
    eapply claimed_replace; [|exact Hfree]. by intros ?%elem_of_nil.
  - apply resume_Some in Hexec as (t & t' & db' & Hi & Hf & ->).
    destruct (tasks_split _ i t t' Hi) as (l1 & l2 & Hts & ->).
    unfold stranded. simpl. rewrite Hts in Hfree.
    destruct t as [| |c [|range ranges]|]; try done. injection Hf as <- <-.
    split; [done|]. split; [done|]. split; [done|].
    eapply claimed_replace; [|exact Hfree]. by intros ?%elem_of_nil.
  - apply resume_Some in Hexec as (t & t' & db' & Hi & Hf & ->).
    destruct (tasks_split _ i t t' Hi) as (l1 & l2 & Hts & ->).
    unfold stranded. simpl. rewrite Hts in Hfree.
    destruct t as [| |c [|range ranges]|]; try done. injection Hf as <- <-.
    split; [done|]. split; [done|]. split; [done|].
    eapply claimed_replace; [|exact Hfree]. by intros ?%elem_of_nil.
  - injection Hexec as <-. done.
  - injection Hexec as <-. split; [done|]. split; [done|]. split; [done|].
    simpl. by intros ?%elem_of_nil.
Qed.

Lemma rtc_stranded this_startBlock ticks_overlap passes_overlap s s'
    (id : Z) (d : WebhookDelivery) :
  rtc (async_step this_startBlock ticks_overlap passes_overlap) s s' →
  stranded id d s → stranded id d s'.
Proof.
  induction 1 as [|s1 s2 s3 [act Hexec] _ IH]; [done|].
  intros Hs. apply IH. by eapply exec_stranded.
Qed.

(** ** Bounded attempts and terminal deliveries *)

Lemma async_reachable_sends_ok this_startBlock passes_overlap s :
  async_reachable this_startBlock false passes_overlap s → sends_ok s.
Proof.
  intros [fk Hrun]. eapply rtc_sends_ok; [exact Hrun|].
  apply sends_ok_initial.
Qed.

(** C8, as stated, fails.  The timer of the retry worker does not wait for
    the callback of its previous firing, [sendWebhook] sends whatever row
    its id names, and the UPDATEs of the catch branch have no condition on
    the status.  Five deliveries are due with four attempts each.  The tick
    of 5860 is slowed down by an endpoint that hangs, and while it awaits
    its fourth POST the tick of 5890 selects the two deliveries not settled
    yet and settles both as [failed] with five attempts.  The first tick
    then writes its stale count over one of them and sends the other, which
    is [failed], once more: six attempts.  (The SELECT has no ORDER BY; the
    ticks here go through the deliveries in the order 5, 3, 4, 2, 1.) *)
Lemma overlapping_ticks_resend :
  Forall (λ fk,
    let before := state_after 0 true false fk (schedule_overlap fk) in
    let after := state_after 0 true false fk (schedule_resend fk) in
    async_reachable 0 true false before
    ∧ rtc (async_step 0 true false) before after
    ∧ webhook_deliveries (database before) !! 1
      = Some (mkWebhookDelivery 1 "0xP" "payment.created" [] failed 5
                (Some 5890) (Some 5860))
    ∧ webhook_deliveries (database after) !! 1
      = Some (mkWebhookDelivery 1 "0xP" "payment.created" [] failed 6
                (Some 5900) (Some 5860))
    ∧ webhook_deliveries (database before) !! 2
      = Some (mkWebhookDelivery 2 "0xP" "payment.created" [] failed 5
                (Some 5890) (Some 5860))
    ∧ webhook_deliveries (database after) !! 2
      = Some (mkWebhookDelivery 2 "0xP" "payment.created" [] failed 5
                (Some 5900) (Some 5860))
    ∧ MAX_RETRY_ATTEMPTS < 6)
  [true; false].
Proof.
  apply Forall_cons. split; [|apply Forall_cons; split; [|by apply Forall_nil]].
  - cbv zeta. split; [|split; [|do 4 (split; [vm_compute; reflexivity|]); done]].
    + exists true. apply (run_rtc _ _ _ (schedule_overlap true)).
      vm_compute. reflexivity.
    + apply (run_rtc _ _ _ [PostSettles 4 (timed_out 5900);
                            SendBegins 4; PostSettles 4 (http_500 5900)]).
      vm_compute. reflexivity.
  - cbv zeta. split; [|split; [|do 4 (split; [vm_compute; reflexivity|]); done]].
    + exists false. apply (run_rtc _ _ _ (schedule_overlap false)).
      vm_compute. reflexivity.
    + apply (run_rtc _ _ _ [PostSettles 4 (timed_out 5900);
                            SendBegins 4; PostSettles 4 (http_500 5900)]).
      vm_compute. reflexivity.
Qed.

(** C8, amended.  Provided a tick of the retry worker has returned when the
    timer fires again, in every state the backend reaches, between any two
    awaits and whatever else interleaves (poll passes, overlapping or not,
    handlers, routes, an exit of the process), every delivery has
    [attempts ≤ MAX_RETRY_ATTEMPTS], and a delivery whose status is
    [success] or [failed] is terminal: its row stays exactly as it is in
    every later state, no call is sending it or has it in its list, and no
    tick selects it. *)
Theorem deliveries_bounded_and_terminal (this_startBlock : Z)
    (passes_overlap : bool) (s : System) :
  async_reachable this_startBlock false passes_overlap s →
  (∀ id d, webhook_deliveries (database s) !! id = Some d →
     attempts d ≤ MAX_RETRY_ATTEMPTS)
  ∧ (∀ s' id d,
       rtc (async_step this_startBlock false passes_overlap) s s' →
       webhook_deliveries (database s) !! id = Some d → terminal d →
       webhook_deliveries (database s') !! id = Some d)
  ∧ (∀ id d, webhook_deliveries (database s) !! id = Some d → terminal d →
       (id ∉ tasks s ≫= claimed)
       ∧ ∀ now, id ∉ pendingRetries now (database s)).
Proof.
  intros Hreach.
  pose proof (async_reachable_sends_ok _ _ _ Hreach) as Hok.
  split; [|split].
  - intros id d Hd. destruct Hok as (Hdok & _).
    destruct (Hdok id d Hd) as (_ & ? & _). lia.
  - intros s' id d Hrun Hd Hterm. by eapply rtc_keeps_terminal.
  - intros id d Hd Hterm. split.
    + intros Hin. destruct Hok as (_ & _ & Hpend & _).
      destruct (Hpend id Hin) as (d' & Hd' & Hpending).
      rewrite Hd in Hd'. injection Hd' as <-. by apply Hterm.
    + intros now Hin.
      apply pendingRetries_elem in Hin as (d' & Hd' & Hdue).
      rewrite Hd in Hd'. injection Hd' as <-.
      by apply Hterm, (retry_due_pending now).
Qed.

Lemma deliveries_bounded_and_terminal_witness :
  let s := state_after 0 false false true schedule_delivered in
  async_reachable 0 false false s
  ∧ d_status <$> webhook_deliveries (database s) !! 1 = Some success
  ∧ (∀ id d, webhook_deliveries (database s) !! id = Some d →
       attempts d ≤ MAX_RETRY_ATTEMPTS)
  ∧ 1 ∉ pendingRetries 5000 (database s).
Proof.
  intros s.
  assert (async_reachable 0 false false s) as Hreach.
  { exists true. apply (run_rtc _ _ _ schedule_delivered).
    vm_compute. reflexivity. }
  destruct (deliveries_bounded_and_terminal 0 false s Hreach)
    as (Hbound & _ & Hsel).
  split; [exact Hreach|]. split; [vm_compute; reflexivity|].
  split; [exact Hbound|].
  destruct (Hsel 1 (mkWebhookDelivery 1 "0xP" "payment.created" [] success 1
                      (Some 2000) None)) as [_ Hnever].
  - vm_compute. reflexivity.
  - simpl. discriminate.
  - apply Hnever.
Defined.

(** ** The poll pass and the checkpoint *)

Lemma processLogs_returns net logs db :
  ∃ errors, (processLogs net logs db).1 = Return errors.
Proof.
  revert db. induction logs as [|log rest IH]; intros db; simpl; [by eexists|].
  rewrite bind_run. unfold try_catch.
  destruct (processLog net log db) as [[[]|e] db1];
    rewrite bind_run; destruct (IH db1) as [errors Herr];
    destruct (processLogs net rest db1) as [[errs|e'] db2]; simpl in *;
    try done; by eexists.
Qed.

Lemma processBlockRange_result provider net fromBlock toBlock db :
  match getLogs provider fromBlock toBlock with
  | Some _ => ∃ errors,
      (processBlockRange provider net fromBlock toBlock db).1 = Return errors
  | None =>
      processBlockRange provider net fromBlock toBlock db
      = (Throw ProviderError, db)
  end.
Proof.
  unfold processBlockRange.
  destruct (getLogs provider fromBlock toBlock); [|done].
  apply processLogs_returns.
Qed.

(** The fuel given to the loop is enough: with it the loop ends by its
    condition, returning when every batch is fetched and throwing the
    provider's error when one fails. *)
Lemma batchLoop_fuel fuel provider net fromBlock currentBlock db :
  (Z.to_nat (currentBlock - fromBlock + 1) ≤ fuel)%nat →
  (Forall (batch_fetched provider) (batchRanges fuel fromBlock currentBlock) →
   (batchLoop fuel provider net fromBlock currentBlock db).1 = Return tt)
  ∧ (Exists (batch_fails provider) (batchRanges fuel fromBlock currentBlock) →
     (batchLoop fuel provider net fromBlock currentBlock db).1
     = Throw ProviderError).
Proof.
  revert fromBlock db. induction fuel as [|fuel IH]; intros fromBlock db Hfuel;
    simpl.
  - destruct (fromBlock <=? currentBlock) eqn:E; [lia|].
    split; [done|]. by intros ?%Exists_nil.
  - destruct (fromBlock <=? currentBlock) eqn:E;
      [|split; [done|by intros ?%Exists_nil]].
    rewrite bind_run.
    set (toBlock := Z.min (fromBlock + batchSize - 1) currentBlock).
    pose proof (processBlockRange_result provider net fromBlock toBlock db) as Hr.
    unfold batchSize in *. split.
    + intros Hall. apply Forall_cons in Hall as [[logs Hlogs] Hall].
      simpl in Hlogs. fold toBlock in Hlogs. rewrite Hlogs in Hr.
      destruct Hr as [errors Hr].
      destruct (processBlockRange _ _ _ _ _) as [[errs|e] db1]; [|done].
      apply IH; [lia|done].
    + intros Hex. apply Exists_cons in Hex as [Hfail|Hex].
      * unfold batch_fails in Hfail. simpl in Hfail. fold toBlock in Hfail.
        rewrite Hfail in Hr. by rewrite Hr.
      * destruct (getLogs provider fromBlock toBlock) as [logs|].
        -- destruct Hr as [errors Hr].
           destruct (processBlockRange _ _ _ _ _) as [[errs|e] db1]; [|done].
           apply IH; [lia|done].
        -- by rewrite Hr.
Qed.

(** With that fuel the ranges cover every block from the first block of
    the pass to the current height. *)
Lemma batchRanges_cover fuel fromBlock currentBlock (b : Z) :
  (Z.to_nat (currentBlock - fromBlock + 1) ≤ fuel)%nat →
  fromBlock ≤ b ≤ currentBlock →
  Exists (λ range, range.1 ≤ b ≤ range.2)
         (batchRanges fuel fromBlock currentBlock).
Proof.
  revert fromBlock. induction fuel as [|fuel IH]; intros fromBlock Hfuel Hb;
    simpl.
  - lia.
  - destruct (fromBlock <=? currentBlock) eqn:E; [|lia].
    unfold batchSize in *.
    destruct (decide (b ≤ Z.min (fromBlock + 1000 - 1) currentBlock)).
    + left. simpl. lia.
    + right. apply IH; lia.
Qed.

Lemma try_catch_state (m : Eff unit) (db : DB) :
  (try_catch m db).2 = (m db).2.
Proof. unfold try_catch. by destruct (m db) as [[|] ?]. Qed.

Lemma syncEvents_body_run this_startBlock provider net db c :
  getBlockNumber provider = Some c →
  let s := firstBlock this_startBlock (getLastIndexedBlock db) c in
  syncEvents_body this_startBlock provider net db
  = if s >? c then (Return tt, db)
    else match batchLoop (passFuel s c) provider net s c db with
         | (Return _, db1) => (Return tt, set_indexer_state (Some c) db1)
         | (Throw e, db1) => (Throw e, db1)
         end.
Proof.
  intros Hc s. unfold syncEvents_body. rewrite Hc, get_bind_run. fold s.
  destruct (s >? c); [done|]. by rewrite bind_run.
Qed.

Lemma getLastIndexedBlock_Some (db : DB) (c : Z) :
  indexer_state db = Some c → getLastIndexedBlock db = c.
Proof.
  unfold getLastIndexedBlock. intros ->. destruct (c =? 0) eqn:E; lia.
Qed.

Lemma firstBlock_after (this_startBlock lastIndexedBlock c : Z) :
  0 ≤ c →
  firstBlock this_startBlock lastIndexedBlock c ≤ c → lastIndexedBlock ≤ c.
Proof.
  unfold firstBlock. destruct (lastIndexedBlock =? 0) eqn:E; lia.
Qed.

(** One pass: what becomes of the checkpoint row. *)
Lemma syncEvents_checkpoint_cases this_startBlock provider net db :
  let db' := (syncEvents this_startBlock provider net db).2 in
  match getBlockNumber provider with
  | None => indexer_state db' = indexer_state db
  | Some c =>
      let s := firstBlock this_startBlock (getLastIndexedBlock db) c in
      if s >? c then indexer_state db' = indexer_state db
      else
        (Forall (batch_fetched provider) (passRanges this_startBlock db c) →
         indexer_state db' = Some c)
        ∧ (Exists (batch_fails provider) (passRanges this_startBlock db c) →
           indexer_state db' = indexer_state db)
        ∧ (indexer_state db' = indexer_state db ∨
           indexer_state db' = Some c
           ∧ Forall (batch_fetched provider) (passRanges this_startBlock db c))
  end.
Proof.
  intros db'. unfold db', syncEvents. rewrite try_catch_state.
  destruct (getBlockNumber provider) as [c|] eqn:Hc; [|by unfold syncEvents_body; rewrite Hc].
  rewrite (syncEvents_body_run _ _ _ _ _ Hc). simpl.
  set (s := firstBlock this_startBlock (getLastIndexedBlock db) c).
  destruct (s >? c) eqn:Hs; [done|].
  destruct (batchLoop_fuel (passFuel s c) provider net s c db) as [Hret Hthrow];
    [done|].
  pose proof (batchLoop_same_checkpoint (passFuel s c) provider net s c db)
    as Hsame.
  unfold passRanges. fold s.
  destruct (batchLoop (passFuel s c) provider net s c db) as [[[]|e] db1] eqn:Hrun;
    simpl in *.
  - split; [done|]. split.
    + intros Hex. by specialize (Hthrow Hex).
    + right. split; [done|].
      apply Forall_forall. intros range Hin.
      destruct (getLogs provider range.1 range.2) as [logs|] eqn:Hlogs;
        [by eexists|].
      assert (Exists (batch_fails provider) (batchRanges (passFuel s c) s c))
        as Hex by (apply Exists_exists; by exists range).
      by specialize (Hthrow Hex).
  - split; [|split; [done|by left]].
    intros Hall. by specialize (Hret Hall).
Qed.

Lemma syncEvents_monotone this_startBlock provider net db :
  height_nonneg provider →
  getLastIndexedBlock db
  ≤ getLastIndexedBlock (syncEvents this_startBlock provider net db).2.
Proof.
  intros Hh.
  pose proof (syncEvents_checkpoint_cases this_startBlock provider net db) as H.
  simpl in H. unfold getLastIndexedBlock at 2.
  destruct (getBlockNumber provider) as [c|] eqn:Hc.
  - destruct (_ >? c) eqn:Hs.
    + rewrite H. fold (getLastIndexedBlock db). lia.
    + destruct H as (_ & _ & [H|[H _]]).
      * rewrite H. fold (getLastIndexedBlock db). lia.
      * rewrite H. specialize (Hh c Hc).
        assert (getLastIndexedBlock db ≤ c)
          by (apply (firstBlock_after this_startBlock); lia).
        destruct (c =? 0) eqn:E; lia.
  - rewrite H. fold (getLastIndexedBlock db). lia.
Qed.

Lemma syncPasses_monotone this_startBlock passes db :
  Forall (λ pass, height_nonneg pass.1) passes →
  getLastIndexedBlock db
  ≤ getLastIndexedBlock (syncPasses this_startBlock passes db).
Proof.
  unfold syncPasses. revert db.
  induction passes as [|[provider net] passes IH]; intros db Hall; simpl; [lia|].
  apply Forall_cons in Hall as [Hh Hall].
  etrans; [|apply IH; exact Hall]. by apply syncEvents_monotone.
Qed.

(** ** The backend, await by await: the passes *)

Lemma running_replace (l1 l2 : list Task) (t t' : Task) :
  (pass_running t' = true → pass_running t = true) →
  (length (filter (λ t, pass_running t = true) (l1 ++ t' :: l2))
   ≤ length (filter (λ t, pass_running t = true) (l1 ++ t :: l2)))%nat.
Proof.
  intros Hsub. rewrite !filter_app, !length_app, !filter_cons.
  destruct (decide (pass_running t' = true)) as [Hr|Hr].
  - rewrite decide_True by auto. done.
  - destruct (decide (pass_running t = true)); simpl; lia.
Qed.

Lemma running_none (ts : list Task) :
  existsb pass_running ts = false →
  filter (λ t, pass_running t = true) ts = [].
Proof.
  induction ts as [|t ts IH]; simpl; [done|].
  intros [Ht Hts]%orb_false_iff. rewrite filter_cons.
  rewrite decide_False by congruence. by apply IH.
Qed.

Lemma running_only (l1 l2 : list Task) (t t0 : Task) :
  (length (filter (λ t, pass_running t = true) (l1 ++ t :: l2)) ≤ 1)%nat →
  pass_running t = true →
  t0 ∈ l1 ++ l2 → pass_running t0 = false.
Proof.
  rewrite filter_app, length_app, filter_cons. intros Hlen Ht Hin.
  rewrite decide_True in Hlen by done. simpl in Hlen.
  destruct (pass_running t0) eqn:E; [|done].
  apply elem_of_app in Hin as [Hin|Hin].
  - assert (t0 ∈ filter (λ t, pass_running t = true) l1) as Hf
      by (by apply list_elem_of_filter).
    destruct (filter _ l1); [by apply elem_of_nil in Hf|simpl in Hlen; lia].
  - assert (t0 ∈ filter (λ t, pass_running t = true) l2) as Hf
      by (by apply list_elem_of_filter).
    destruct (filter _ l2); [by apply elem_of_nil in Hf|simpl in Hlen; lia].
Qed.

Lemma getLastIndexedBlock_set (c : Z) (db : DB) :
  getLastIndexedBlock (set_indexer_state (Some c) db) = c.
Proof. unfold getLastIndexedBlock. simpl. destruct (c =? 0) eqn:E; lia. Qed.

Lemma getLastIndexedBlock_same (db db' : DB) :
  indexer_state db' = indexer_state db →
  getLastIndexedBlock db' = getLastIndexedBlock db.
Proof. unfold getLastIndexedBlock. by intros ->. Qed.

(** A task other than a pass is replaced, and the checkpoint is kept. *)
Lemma passes_ok_replace db db' l1 t t' l2 :
  passes_ok (mkSystem db (l1 ++ t :: l2)) →
  indexer_state db' = indexer_state db →
  (pass_running t' = true → pass_running t = true) →
  (∀ c ranges, t' = Pass c ranges → ∃ ranges', t = Pass c ranges') →
  passes_ok (mkSystem db' (l1 ++ t' :: l2)).
Proof.
  intros [Hone Hbound] Hsame Hrun Hpass. simpl in *. split; simpl.
  - etrans; [by apply running_replace|done].
  - intros c ranges Hin. rewrite (getLastIndexedBlock_same db db' Hsame).
    apply elem_of_app in Hin as [Hin|Hin];
      [|apply elem_of_cons in Hin as [Heq|Hin]].
    + apply (Hbound c ranges). apply elem_of_app. by left.
    + destruct (Hpass c ranges) as [ranges' ->]; [done|].
      apply (Hbound c ranges'). apply elem_of_app. right. by left.
    + apply (Hbound c ranges). apply elem_of_app. right. by right.
Qed.

Lemma passes_ok_spawn (s : System) (t : Task) :
  passes_ok s → pass_running t = false → passes_ok (spawn t s).
Proof.
  intros [Hone Hbound] Ht. split; simpl.
  - rewrite filter_app, filter_cons, decide_False by congruence.
    by rewrite filter_nil, app_nil_r.
  - intros c ranges [Hin|Hin]%elem_of_app; [by eapply Hbound|].
    apply list_elem_of_singleton in Hin as <-. done.
Qed.

(** The invariant of the passes is kept by every action, and no action
    lowers the checkpoint, provided the passes do not overlap. *)
Lemma exec_passes_ok this_startBlock ticks_overlap act s s' :
  exec this_startBlock ticks_overlap false act s = Some s' →
  passes_ok s →
  passes_ok s'
  ∧ getLastIndexedBlock (database s) ≤ getLastIndexedBlock (database s').
Proof.
  intros Hexec Hok. destruct act as [now|m p ev body|i|i a|c|i|i|i|db'|];
    simpl in Hexec.
  - destruct (_ || _); [|done]. injection Hexec as <-.
    split; [by apply passes_ok_spawn|simpl; lia].
  - injection Hexec as <-. split; [by apply passes_ok_spawn|simpl; lia].
  - apply resume_Some in Hexec as (t & t' & db' & Hi & Hbegin & ->).
    destruct (tasks_split _ i t t' Hi) as (l1 & l2 & Hts & ->).
    destruct s as [db ts]. simpl in *. subst ts.
    assert (indexer_state db' = indexer_state db
            ∧ pass_running t' = false) as [Hsame Hrun].
    { destruct t
        as [[|id queue] [sg|]|p ev body [|webhook queue] [sg|]|c ranges|];
        try done.
      - by injection Hbegin as <- <-.
      - cbn [begin_send] in Hbegin.
        destruct (createWebhookDelivery (wc_id webhook) p ev body db)
          as [[id|e] db1] eqn:Hcreate; injection Hbegin as <- <-.
        + by apply createWebhookDelivery_Return in Hcreate as (_ & _ & _ & ?).
        + by apply createWebhookDelivery_throws in Hcreate as ->. }
    split; [|by rewrite (getLastIndexedBlock_same db db' Hsame)].
    apply (passes_ok_replace db db' l1 t t' l2 Hok Hsame); [congruence|].
    intros c ranges ->. done.
  - apply resume_Some in Hexec as (t & t' & db' & Hi & Hsettle & ->).
    destruct (tasks_split _ i t t' Hi) as (l1 & l2 & Hts & ->).
    destruct s as [db ts]. simpl in *. subst ts.
    assert (indexer_state db' = indexer_state db
            ∧ pass_running t' = false) as [Hsame Hrun].
    { destruct t as [queue [sg|]|p ev body queue [sg|]|c ranges|]; try done;
        by injection Hsettle as <- <-. }
    split; [|by rewrite (getLastIndexedBlock_same db db' Hsame)].
    apply (passes_ok_replace db db' l1 t t' l2 Hok Hsame); [congruence|].
    intros c ranges ->. done.
  - destruct (0 <=? c) eqn:Hc; [|done]. simpl in Hexec.
    destruct (existsb pass_running (tasks s)) eqn:Hidle; [done|].
    simpl in Hexec.
    destruct (_ >? c) eqn:Hstart; injection Hexec as <-; [split; [done|lia]|].
    split; [|simpl; lia]. destruct Hok as [Hone Hbound]. split; simpl.
    + rewrite filter_app, length_app, (running_none _ Hidle).
      rewrite filter_cons, decide_True by done. by rewrite filter_nil.
    + intros c' ranges [Hin|Hin]%elem_of_app; [by eapply Hbound|].
      apply list_elem_of_singleton in Hin. injection Hin as -> _.
      apply (firstBlock_after this_startBlock); lia.
  - apply resume_Some in Hexec as (t & t' & db' & Hi & Hf & ->).
    destruct (tasks_split _ i t t' Hi) as (l1 & l2 & Hts & ->).
    destruct s as [db ts]. simpl in *. subst ts.
    destruct t as [| |c [|range ranges]|]; try done. injection Hf as <- <-.
    split; [|lia].
    apply (passes_ok_replace db db l1 _ _ l2 Hok); [done|done|].
    intros c' ranges' [= -> ->]. by eexists.
  - apply resume_Some in Hexec as (t & t' & db' & Hi & Hf & ->).
    destruct (tasks_split _ i t t' Hi) as (l1 & l2 & Hts & ->).
    destruct s as [db ts]. simpl in *. subst ts.
    destruct t as [| |c [|range ranges]|]; try done. injection Hf as <- <-.
    split; [|lia].
    by apply (passes_ok_replace db db l1 _ _ l2 Hok).
  - apply resume_Some in Hexec as (t & t' & db' & Hi & Hf & ->).
    destruct (tasks_split _ i t t' Hi) as (l1 & l2 & Hts & ->).
    destruct s as [db ts]. simpl in *. subst ts.
    destruct t as [| |c [|range ranges]|]; try done. injection Hf as <- <-.
    destruct Hok as [Hone Hbound]. simpl in *.
    assert (getLastIndexedBlock db ≤ c) as Hle.
    { apply (Hbound c []). apply elem_of_app. right. by left. }
    change (updateLastIndexedBlock c db).2
      with (set_indexer_state (Some c) db).
    rewrite getLastIndexedBlock_set. split; [|done]. split; simpl.
    + etrans; [|exact Hone]. by apply running_replace.
    + intros c' ranges Hin.
      assert (Pass c' ranges ∈ l1 ++ l2) as Hin'.
      { revert Hin. rewrite !elem_of_app, elem_of_cons.
        intros [?|[?|?]]; [by left|done|by right]. }
      by pose proof (running_only l1 l2 (Pass c []) _ Hone eq_refl Hin').
  - injection Hexec as <-.
    assert (getLastIndexedBlock (other_writes db' (database s))
            = getLastIndexedBlock (database s)) as Hsame
      by (by apply getLastIndexedBlock_same).
    simpl. rewrite Hsame. split; [|lia].
    destruct Hok as [Hone Hbound]. split; [done|]. simpl.
    intros c ranges Hin. rewrite Hsame. by apply (Hbound c ranges).
  - injection Hexec as <-. split; [|simpl; lia]. split; simpl; [lia|].
    by intros c ranges ?%elem_of_nil.
Qed.

Lemma passes_ok_initial (fk : bool) : passes_ok (mkSystem (emptyDB fk) []).
Proof. split; simpl; [lia|]. by intros c ranges ?%elem_of_nil. Qed.

Lemma rtc_passes_ok this_startBlock ticks_overlap s s' :
  rtc (async_step this_startBlock ticks_overlap false) s s' →
  passes_ok s →
  passes_ok s'
  ∧ getLastIndexedBlock (database s) ≤ getLastIndexedBlock (database s').
Proof.
  induction 1 as [|s1 s2 s3 [act Hexec] _ IH]; [intros ?; split; [done|lia]|].
  intros Hok. destruct (exec_passes_ok _ _ _ _ _ Hexec Hok) as [Hok2 Hle].
  destruct (IH Hok2) as [Hok3 Hle']. split; [done|lia].
Qed.

(** C9, as stated, fails, in two ways.  (1) An error while a log of a batch
    is handled does not abort the pass: it is caught per log.  From
    checkpoint 100 the pass fetches the batch 101..105, [getBlock] is
    rejected for the completion of [0xP], and the pass returns without an
    error and writes the checkpoint 105; the completion is neither stored
    nor applied, and the next pass starts after it.  (2) The timer of the
    indexer does not wait for a pass to return, and the checkpoint is
    written without a condition: a pass that read height 105 and ends after
    a later pass that read height 110 brings the checkpoint from 110 back
    to 105. *)
Lemma checkpoint_moves_on_errors_and_back :
  Forall (λ fk,
    let db := db_created fk in
    let pass := syncEvents 100 provider_105_rejected net_200 db in
    (processLogs net_200 [log_completed_rejected] db).1
    = Return [ProviderError]
    ∧ pass.1 = Return None
    ∧ indexer_state db = Some 100
    ∧ indexer_state pass.2 = Some 105
    ∧ event_logs pass.2 = event_logs db
    ∧ payment_intents pass.2 = payment_intents db
    ∧ merchants pass.2 = merchants db)
  [true; false]
  ∧ Forall (λ fk,
      let before := state_after 100 false true fk schedule_passes in
      let after := state_after 100 false true fk schedule_passes_lowered in
      async_reachable 100 false true before
      ∧ rtc (async_step 100 false true) before after
      ∧ indexer_state (database before) = Some 110
      ∧ indexer_state (database after) = Some 105)
    [true; false].
Proof.
  split.
  - apply Forall_cons.
    split; [|apply Forall_cons; split; [|by apply Forall_nil]];
      cbv zeta; do 6 (split; [vm_compute; reflexivity|]);
      vm_compute; reflexivity.
  - apply Forall_cons.
    split; [|apply Forall_cons; split; [|by apply Forall_nil]]; cbv zeta.
    + split; [|split; [|split; vm_compute; reflexivity]].
      * exists true. apply (run_rtc _ _ _ schedule_passes).
        vm_compute. reflexivity.
      * apply (run_rtc _ _ _ [BatchFetched 1; PassEnds 1]).
        vm_compute. reflexivity.
    + split; [|split; [|split; vm_compute; reflexivity]].
      * exists false. apply (run_rtc _ _ _ schedule_passes).
        vm_compute. reflexivity.
      * apply (run_rtc _ _ _ [BatchFetched 1; PassEnds 1]).
        vm_compute. reflexivity.
Qed.

(** C9, amended.  A batch fails when the provider rejects its [getLogs]
    call (an error while one of its logs is handled is caught and the pass
    goes on).  A pass in which a batch fails leaves the checkpoint row as it
    was; the checkpoint is written, with the current height, only after
    every batch of the pass has been fetched, and it is written then; the
    batches of a pass cover every block from its first block to the current
    height.  Over one pass the checkpoint value does not decrease, and,
    provided a pass has returned when the timer fires again, it does not
    decrease from any state the backend reaches to any later one, whatever
    else interleaves. *)
Theorem syncEvents_checkpoint (this_startBlock : Z) (provider : Provider)
    (net : Net) (db : DB) :
  height_nonneg provider →
  let db' := (syncEvents this_startBlock provider net db).2 in
  (∀ c, getBlockNumber provider = Some c →
     Exists (batch_fails provider) (passRanges this_startBlock db c) →
     indexer_state db' = indexer_state db)
  ∧ (indexer_state db' ≠ indexer_state db →
     ∃ c, getBlockNumber provider = Some c
          ∧ indexer_state db' = Some c
          ∧ Forall (batch_fetched provider) (passRanges this_startBlock db c))
  ∧ (∀ c, getBlockNumber provider = Some c →
       firstBlock this_startBlock (getLastIndexedBlock db) c ≤ c →
       Forall (batch_fetched provider) (passRanges this_startBlock db c) →
       indexer_state db' = Some c)
  ∧ (∀ c b, firstBlock this_startBlock (getLastIndexedBlock db) c ≤ b ≤ c →
       Exists (λ range, range.1 ≤ b ≤ range.2)
              (passRanges this_startBlock db c))
  ∧ getLastIndexedBlock db ≤ getLastIndexedBlock db'
  ∧ (∀ ticks_overlap s s',
       async_reachable this_startBlock ticks_overlap false s →
       rtc (async_step this_startBlock ticks_overlap false) s s' →
       getLastIndexedBlock (database s) ≤ getLastIndexedBlock (database s')).
Proof.
  intros Hh db'.
  pose proof (syncEvents_checkpoint_cases this_startBlock provider net db) as H.
  simpl in H. fold db' in H.
  split; [|split; [|split; [|split; [|split]]]].
  - intros c Hc Hex. rewrite Hc in H.
    destruct (_ >? c) eqn:Hs; [done|]. by apply H.
  - intros Hne. destruct (getBlockNumber provider) as [c|]; [|done].
    destruct (_ >? c) eqn:Hs; [done|].
    destruct H as (_ & _ & [H|[H Hall]]); [done|]. by exists c.
  - intros c Hc Hle Hall. rewrite Hc in H.
    destruct (_ >? c) eqn:Hs; [lia|]. by apply H.
  - intros c b Hb. unfold passRanges. by apply batchRanges_cover.
  - by apply syncEvents_monotone.
  - intros ticks_overlap s s' [fk Hreach] Hrun.
    destruct (rtc_passes_ok _ _ _ _ Hreach (passes_ok_initial fk)) as [Hok _].
    by destruct (rtc_passes_ok _ _ _ _ Hrun Hok).
Qed.

Lemma syncEvents_checkpoint_witness :
  indexer_state (db_created true) = Some 100
  ∧ indexer_state (syncEvents 100 provider_105 net_200 (db_created true)).2
    = Some 105
  ∧ indexer_state
      (syncEvents 100 provider_105_rejected net_200 (db_created true)).2
    = Some 105.
Proof.
  split; [vm_compute; reflexivity|].
  assert (height_nonneg provider_105) as Hh
    by (intros c; simpl; intros [= <-]; lia).
  assert (height_nonneg provider_105_rejected) as Hh'
    by (intros c; simpl; intros [= <-]; lia).
  destruct (syncEvents_checkpoint 100 provider_105 net_200 (db_created true) Hh)
    as (_ & _ & Hset & _).
  split.
  - apply Hset; [reflexivity|vm_compute; discriminate|].
    vm_compute. repeat constructor; by eexists.
  - vm_compute. reflexivity.
Defined.

(** ** Signature verification *)

Lemma Buffer_from_length (s : string) :
  length (Buffer_from s) = String.length s.
Proof. induction s as [|c s IH]; simpl; [done|]. by rewrite IH. Qed.

Lemma Buffer_from_inj (s1 s2 : string) :
  Buffer_from s1 = Buffer_from s2 → s1 = s2.
Proof.
  unfold Buffer_from. intros H.
  rewrite <- (String.string_of_list_ascii_of_string s1),
          <- (String.string_of_list_ascii_of_string s2).
  by rewrite H.
Qed.

Section SignerProperties.
Context {Any : Type}.
Variable JSON_stringify : Any → string.
Variable hmac_sha256_hex : string → string → string.

(** A SHA-256 digest has 32 bytes, 64 characters in hex. *)
Hypothesis hmac_sha256_hex_length :
  ∀ key msg, String.length (hmac_sha256_hex key msg) = 64%nat.

(** C10.  [verifySignature] returns a boolean only when the supplied
    signature has the byte length of the 64-character hex digest computed
    by [generateSignature]; for a signature of any other length it throws
    (the RangeError of [crypto.timingSafeEqual]) instead of returning
    false.  At length 64 the boolean is the equality of the signatures. *)
Theorem verifySignature_length (payload : Any) (signature secret : string) :
  (∀ b, verifySignature JSON_stringify hmac_sha256_hex payload signature secret
        = Return b →
        length (Buffer_from signature) = 64%nat)
  ∧ (length (Buffer_from signature) ≠ 64%nat →
       verifySignature JSON_stringify hmac_sha256_hex payload signature secret
       = Throw RangeError)
  ∧ (length (Buffer_from signature) = 64%nat →
       verifySignature JSON_stringify hmac_sha256_hex payload signature secret
       = Return (bool_decide
           (signature
            = generateSignature JSON_stringify hmac_sha256_hex payload secret))).
Proof.
  unfold verifySignature, timingSafeEqual.
  set (expected := generateSignature _ _ _ _).
  assert (length (Buffer_from expected) = 64%nat) as Hlen.
  { rewrite Buffer_from_length. apply hmac_sha256_hex_length. }
  rewrite Hlen. repeat split.
  - intros b. by case_decide.
  - intros Hne. by case_decide.
  - intros Heq. case_decide; [|done]. f_equal.
    apply bool_decide_ext. split; [apply Buffer_from_inj|by intros ->].
Qed.
End SignerProperties.

Lemma verifySignature_length_witness :
  verifySignature (λ s : string, s) zero_digest "{}" "abc" "secret"
  = Throw RangeError.
Proof.
  destruct (verifySignature_length (λ s : string, s) zero_digest
              (λ _ _, eq_refl) "{}" "abc" "secret") as (_ & Hthrows & _).
  apply Hthrows. simpl. lia.
Defined.


(** * Further properties of the webhook service *)

(** ** Signatures *)

Section SignatureRoundTrip.
Context {Any : Type}.
Variable JSON_stringify : Any → string.
Variable hmac_sha256_hex : string → string → string.

(** X1.  A signature made by [generateSignature] verifies under the same
    payload and secret, and [verifySignature] returns true for no other
    signature. *)
Theorem verifySignature_generateSignature (payload : Any)
    (secret signature : string) :
  verifySignature JSON_stringify hmac_sha256_hex payload
    (generateSignature JSON_stringify hmac_sha256_hex payload secret) secret
  = Return true
  ∧ (verifySignature JSON_stringify hmac_sha256_hex payload signature secret
     = Return true →
     signature = generateSignature JSON_stringify hmac_sha256_hex payload secret).
Proof.
  unfold verifySignature, timingSafeEqual. split.
  - rewrite decide_True by done. by rewrite bool_decide_eq_true_2.
  - case_decide; [|done]. intros [= Heq].
    apply bool_decide_eq_true in Heq. by apply Buffer_from_inj.
Qed.
End SignatureRoundTrip.

Section RequestSigned.
Variable JSON_stringify : WebhookPayload → string.
Variable hmac_sha256_hex : string → string → string.

(** X2.  The request that [sendWebhook] posts goes to the url of the
    subscription, carries the delivery id, the event type, the time and the
    stored payload in its body, repeats the event type and the time in its
    headers, and its signature header verifies against its body under the
    secret of the subscription. *)
Theorem webhookRequest_signed (deliveryId : Z) (d : WebhookDelivery)
    (wc : WebhookConfig) (timestamp : Z) :
  let r := webhookRequest JSON_stringify hmac_sha256_hex deliveryId d wc
             timestamp in
  verifySignature JSON_stringify hmac_sha256_hex (req_body r) (req_signature r)
    (secret wc) = Return true
  ∧ req_url r = webhook_url wc
  ∧ req_body r = mkWebhookPayload deliveryId (event_type d) timestamp (payload d)
  ∧ req_event r = wp_event (req_body r)
  ∧ req_timestamp r = wp_timestamp (req_body r).
Proof.
  simpl. split; [|done].
  unfold verifySignature, timingSafeEqual.
  rewrite decide_True by done. by rewrite bool_decide_eq_true_2.
Qed.
End RequestSigned.

(** ** One send *)

(** X3.  [sendWebhook] never throws and writes at most the row of the id it
    is given: the other tables, the id counter and every other delivery are
    as before; for an id without a row, or a row whose subscription is
    missing, nothing changes at all; otherwise the row becomes the outcome
    of one attempt. *)
Theorem sendWebhook_one_row (net : Net) (id : Z) (db : DB) :
  let r := sendWebhook net id db in
  r.1 = Return tt
  ∧ same_but_deliveries db r.2
  ∧ webhook_deliveries_seq r.2 = webhook_deliveries_seq db
  ∧ (∀ other, other ≠ id →
       webhook_deliveries r.2 !! other = webhook_deliveries db !! other)
  ∧ match webhook_deliveries db !! id with
    | None => r.2 = db
    | Some d =>
        if has_config (webhook_config_id d) db
        then webhook_deliveries r.2 !! id = Some (attempt_outcome (net id) d)
        else r.2 = db
    end.
Proof.
  simpl. unfold sendWebhook.
  destruct (webhook_deliveries db !! id) as [d|] eqn:Hd;
    [|by repeat split].
  destruct (has_config (webhook_config_id d) db); [|by repeat split].
  simpl. repeat split.
  - intros other Hne. by rewrite lookup_insert_ne.
  - apply lookup_insert_eq.
Qed.

Lemma sendWebhook_row net id db (k : Z) :
  webhook_deliveries (sendWebhook net id db).2 !! k
  = if decide (k = id)
    then (λ d, if has_config (webhook_config_id d) db
               then attempt_outcome (net id) d else d)
         <$> webhook_deliveries db !! k
    else webhook_deliveries db !! k.
Proof.
  unfold sendWebhook. case_decide as Hk.
  - subst k. destruct (webhook_deliveries db !! id) as [d|] eqn:Hd; simpl.
    + destruct (has_config _ _); simpl; [apply lookup_insert_eq|done].
    + by rewrite Hd.
  - destruct (webhook_deliveries db !! id) as [d|]; [|done].
    destruct (has_config _ _); simpl; [|done]. by rewrite lookup_insert_ne.
Qed.

(** X4.  A 2xx response settles a delivery: the status becomes [success],
    [attempts] is incremented, [last_attempt_at] is the time of the attempt
    and [next_retry_at] is kept; from then on no tick of the retry worker
    selects the delivery, at any time. *)
Theorem sendWebhook_success (net : Net) (id : Z) (db : DB)
    (d : WebhookDelivery) :
  webhook_deliveries db !! id = Some d →
  has_config (webhook_config_id d) db = true →
  is_2xx (response (net id)) = true →
  let db' := (sendWebhook net id db).2 in
  ∃ d', webhook_deliveries db' !! id = Some d'
        ∧ d_status d' = success
        ∧ attempts d' = attempts d + 1
        ∧ last_attempt_at d' = Some (now (net id))
        ∧ next_retry_at d' = next_retry_at d
        ∧ payload d' = payload d ∧ event_type d' = event_type d
        ∧ ∀ t, id ∉ pendingRetries t db'.
Proof.
  intros Hd Hc Hok db'. exists (delivered (net id) d).
  assert (webhook_deliveries db' !! id = Some (delivered (net id) d)) as Hrow.
  { unfold db'. rewrite sendWebhook_row, decide_True by done.
    rewrite Hd. simpl. by rewrite Hc; unfold attempt_outcome; rewrite Hok. }
  split; [done|]. repeat split.
  intros t Hin. apply pendingRetries_elem in Hin as (d' & Hd' & Hdue).
  rewrite Hrow in Hd'. inversion Hd'; subst d'.
  by apply retry_due_pending in Hdue.
Qed.

Lemma sendWebhook_success_witness :
  ∃ d', webhook_deliveries (sendWebhook net_200 1 db_retry_due).2 !! 1 = Some d'
        ∧ d_status d' = success ∧ attempts d' = 2.
Proof.
  destruct (sendWebhook_success net_200 1 db_retry_due
              (mkWebhookDelivery 1 "0xP" "payment.created" [] pending 1
                 (Some 1000) (Some 1060)))
    as (d' & Hrow & Hst & Hatt & _); [reflexivity|reflexivity|reflexivity|].
  exists d'. split; [exact Hrow|]. split; [exact Hst|exact Hatt].
Defined.

(** ** One tick of the retry worker *)

Lemma has_config_sendWebhook net id db (c : Z) :
  has_config c (sendWebhook net id db).2 = has_config c db.
Proof.
  apply has_config_same.
  by destruct (sendWebhook_same_but_deliveries net id db) as (_&_&_&?&_).
Qed.

Lemma for_of_sendWebhook_rows net (l : list Z) : ∀ db (k : Z),
  NoDup l →
  webhook_deliveries (for_of l (sendWebhook net) db).2 !! k
  = if decide (k ∈ l)
    then (λ d, if has_config (webhook_config_id d) db
               then attempt_outcome (net k) d else d)
         <$> webhook_deliveries db !! k
    else webhook_deliveries db !! k.
Proof.
  induction l as [|id l IH]; intros db k Hnd; cbn [for_of].
  - case_decide as Hin; [by apply not_elem_of_nil in Hin|done].
  - apply NoDup_cons in Hnd as [Hnotin Hnd]. rewrite bind_run.
    pose proof (sendWebhook_row net id db k) as Hk.
    assert ((sendWebhook net id db).1 = Return tt) as Hret.
    { unfold sendWebhook. destruct (webhook_deliveries db !! id); [|done].
      by destruct (has_config _ _). }
    destruct (sendWebhook net id db) as [[[]|e] db1] eqn:Hrun; [|done].
    simpl in Hk. rewrite IH by done. rewrite Hk.
    assert (∀ c, has_config c db1 = has_config c db) as Hcfg.
    { intros c. pose proof (has_config_sendWebhook net id db c) as H.
      by rewrite Hrun in H. }
    destruct (decide (k = id)) as [->|Hne].
    + rewrite decide_False by done. rewrite decide_True by left. done.
    + destruct (decide (k ∈ l)) as [Hin|Hnin].
      * rewrite decide_True by (by right).
        destruct (webhook_deliveries db !! k) as [d|]; simpl; [|done].
        by rewrite Hcfg.
      * rewrite decide_False; [done|].
        intros [?|?]%elem_of_cons; done.
Qed.

Lemma retryWorker_tick_row net now db (id : Z) :
  webhook_deliveries (startWebhookRetryWorker_tick net now db).2 !! id
  = (λ d, if retry_due now d && has_config (webhook_config_id d) db
          then attempt_outcome (net id) d else d)
    <$> webhook_deliveries db !! id.
Proof.
  unfold startWebhookRetryWorker_tick. rewrite get_bind_run.
  rewrite for_of_sendWebhook_rows by apply pendingRetries_NoDup.
  destruct (webhook_deliveries db !! id) as [d|] eqn:Hd; simpl.
  - destruct (decide (id ∈ pendingRetries now db)) as [Hin|Hnin].
    + apply pendingRetries_elem in Hin as (d' & Hd' & Hdue).
      rewrite Hd in Hd'. inversion Hd'; subst d'. by rewrite Hdue.
    + destruct (retry_due now d) eqn:Hdue; [|done].
      exfalso. apply Hnin. apply pendingRetries_elem. eauto.
  - by destruct (decide _).
Qed.

(** X5.  A tick of the retry worker is, row by row, one attempt on every
    delivery that is due ([pending], [next_retry_at] set and not after the
    time of the tick, attempts left) and whose subscription exists, and
    nothing on every other delivery: a delivery is sent at most once per
    tick and never before its [next_retry_at].  The tick never throws,
    creates no delivery and touches no other table. *)
Theorem retryWorker_tick_rows (net : Net) (now : Z) (db : DB) :
  let r := startWebhookRetryWorker_tick net now db in
  r.1 = Return tt
  ∧ same_but_deliveries db r.2
  ∧ ∀ id,
      webhook_deliveries r.2 !! id
      = (λ d, if retry_due now d && has_config (webhook_config_id d) db
              then attempt_outcome (net id) d else d)
        <$> webhook_deliveries db !! id.
Proof.
  simpl. unfold startWebhookRetryWorker_tick. rewrite get_bind_run.
  split; [|split].
  - generalize (pendingRetries now db). intros l. generalize db.
    induction l as [|id l IH]; intros db0; simpl; [done|].
    rewrite bind_run.
    assert ((sendWebhook net id db0).1 = Return tt) as Hret.
    { unfold sendWebhook. destruct (webhook_deliveries db0 !! id); [|done].
      by destruct (has_config _ _). }
    destruct (sendWebhook net id db0) as [[[]|e] db1]; [apply IH|done].
  - apply (preserves_for_of same_but_deliveries).
    intros id. apply sendWebhook_same_but_deliveries.
  - intros id. pose proof (retryWorker_tick_row net now db id) as H.
    unfold startWebhookRetryWorker_tick in H. by rewrite get_bind_run in H.
Qed.

(** ** Enqueueing *)

(** X6.  [triggerWebhook], case by case.  For a merchant without an active
    subscription it returns and changes nothing.  With foreign keys enforced
    and no row for the payment it throws at the first insert and changes
    nothing.  Otherwise, in a reachable state, it returns after adding one
    delivery per active subscription under the next ids of the table, each
    attempted once; the id counter advances by their number, and every
    existing delivery and every other table are as before. *)
Theorem triggerWebhook_cases (net : Net) (m p ev : string) (pl : Payload)
    (db : DB) :
  reachable db →
  let n := Z.of_nat (length (activeWebhooks m db)) in
  (activeWebhooks m db = [] → triggerWebhook net m p ev pl db = (Return tt, db))
  ∧ (activeWebhooks m db ≠ [] → pragma_foreign_keys db = true →
     payment_intents db !! p = None →
     triggerWebhook net m p ev pl db = (Throw SqliteForeignKey, db))
  ∧ (pragma_foreign_keys db = false ∨ is_Some (payment_intents db !! p) →
     ∃ db', triggerWebhook net m p ev pl db = (Return tt, db')
            ∧ same_but_deliveries db db'
            ∧ webhook_deliveries_seq db' = webhook_deliveries_seq db + n
            ∧ (∀ id, id ≤ webhook_deliveries_seq db →
                 webhook_deliveries db' !! id = webhook_deliveries db !! id)
            ∧ (∀ id, webhook_deliveries_seq db + n < id →
                 webhook_deliveries db' !! id = None)
            ∧ enqueued db db' m p ev pl).
Proof.
  intros Hreach n. apply reachable_deliveries_ok in Hreach as Hok.
  assert (∀ id, webhook_deliveries_seq db < id →
                webhook_deliveries db !! id = None) as Hfresh.
  { intros id Hid. destruct (webhook_deliveries db !! id) as [d|] eqn:E; [|done].
    destruct (Hok _ _ E) as [Hle _]. lia. }
  unfold triggerWebhook. rewrite get_bind_run. split; [|split].
  - by intros ->.
  - intros Hne Hfk Hnone.
    destruct (activeWebhooks m db) as [|wc l] eqn:Hact; [done|].
    cbn [for_of]. rewrite bind_run, bind_run. unfold createWebhookDelivery.
    rewrite Hfk, Hnone. rewrite (bool_decide_eq_false_2 (is_Some None));
      [|by intros [? ?]].
    by rewrite andb_false_r.
  - intros Hfk.
    destruct (for_of_enqueue net p ev pl (activeWebhooks m db) db Hfresh)
      as (db' & Hrun & Hsame & Hseq & Hold & Hnew & Henq).
    { intros Htrue. destruct Hfk as [Hfk|Hsome]; [congruence|done]. }
    { intros wc. apply activeWebhooks_has_config. }
    exists db'. split; [exact Hrun|]. split; [exact Hsame|].
    split; [exact Hseq|]. split; [exact Hold|].
    split; [intros id Hid; apply Hnew; unfold n in Hid; lia|].
    intros i wc Hi. split; [apply Hfresh; lia|]. by apply Henq.
Qed.

Lemma triggerWebhook_cases_witness :
  triggerWebhook net_200 "0xNobody" "0xP" "payment.created" [] (db_completed true)
  = (Return tt, db_completed true).
Proof.
  assert (reachable (db_completed true)) as Hreach.
  { exists true. unfold db_completed, db_created.
    eapply rtc_r; [eapply rtc_r; [apply rtc_once|]|]; constructor. }
  destruct (triggerWebhook_cases net_200 "0xNobody" "0xP" "payment.created" []
              (db_completed true) Hreach) as (Hnone & _ & _).
  apply Hnone. vm_compute. reflexivity.
Defined.

(** ** Subscriptions *)

(** X7.  [registerWebhook] and the two reads of the config table.  When the
    insert is accepted (foreign keys not enforced, or the merchant has a
    row) the call returns the secret it stored, and the new subscription,
    active and under the next id, is the last entry of the merchant's list
    for [getWebhooksByMerchant] and for [triggerWebhook]; the lists of other
    merchants are as before.  With foreign keys enforced and no merchant row
    the call throws and changes nothing. *)
Theorem registerWebhook_lists (m url s : string) (db : DB) :
  let wc := mkWebhookConfig (webhook_configs_seq db + 1) m url s true in
  (pragma_foreign_keys db = false ∨ is_Some (merchants db !! m) →
   ∃ db', registerWebhook m url s db = (Return s, db')
          ∧ getWebhooksByMerchant m db' = getWebhooksByMerchant m db ++ [wc]
          ∧ activeWebhooks m db' = activeWebhooks m db ++ [wc]
          ∧ (∀ m', m' ≠ m →
               getWebhooksByMerchant m' db' = getWebhooksByMerchant m' db
               ∧ activeWebhooks m' db' = activeWebhooks m' db)
          ∧ webhook_configs_seq db' = webhook_configs_seq db + 1
          ∧ merchants db' = merchants db
          ∧ payment_intents db' = payment_intents db
          ∧ webhook_deliveries db' = webhook_deliveries db)
  ∧ (pragma_foreign_keys db = true → merchants db !! m = None →
     registerWebhook m url s db = (Throw SqliteForeignKey, db)).
Proof.
  intros wc. unfold registerWebhook. split.
  - intros Hacc.
    replace (pragma_foreign_keys db
             && negb (bool_decide (is_Some (merchants db !! m)))) with false.
    2:{ destruct Hacc as [->|Hm]; [done|].
        rewrite (bool_decide_eq_true_2 _ Hm). by rewrite andb_false_r. }
    eexists. split; [reflexivity|].
    unfold getWebhooksByMerchant, activeWebhooks.
    cbn [snd webhook_configs set_webhook_configs webhook_configs_seq merchants
         payment_intents webhook_deliveries].
    rewrite !filter_app.
    split; [by rewrite filter_cons_True|].
    split; [by rewrite filter_cons_True|].
    split; [|done].
    intros m' Hne. rewrite !filter_app.
    rewrite (filter_cons_False (λ wc, merchant_address wc = m')) by done.
    rewrite (filter_cons_False
               (λ wc, merchant_address wc = m' ∧ wc_is_active wc = true))
      by (by intros [? _]).
    by rewrite !filter_nil, !app_nil_r.
  - intros Hfk Hnone. rewrite Hfk, Hnone.
    by rewrite (bool_decide_eq_false_2 (is_Some None)) by (by intros [? ?]).
Qed.

Lemma registerWebhook_lists_witness :
  ∃ db', registerWebhook "0xM" "https://m.example/two" "s2" (db_completed true)
         = (Return "s2"%string, db')
         ∧ length (activeWebhooks "0xM" db') = 2%nat.
Proof.
  destruct (registerWebhook_lists "0xM" "https://m.example/two" "s2"
              (db_completed true)) as [Hacc _].
  destruct Hacc as (db' & Hrun & _ & Hactive & _);
    [right; vm_compute; eauto|].
  exists db'. split; [exact Hrun|]. rewrite Hactive. vm_compute. reflexivity.
Defined.

Lemma deactivate_config_id (webhookId : Z) (wc : WebhookConfig) :
  wc_id (if decide (wc_id wc = webhookId)
         then mkWebhookConfig (wc_id wc) (merchant_address wc) (webhook_url wc)
                (secret wc) false
         else wc) = wc_id wc.
Proof. by case_decide. Qed.

(** X8.  [deactivateWebhook] never throws and removes exactly the
    subscription with that id from what [triggerWebhook] selects, for every
    merchant; no subscription is deleted (the lists of
    [getWebhooksByMerchant] keep their ids, in order); deactivating again
    changes nothing, and neither does an id that no subscription has. *)
Theorem deactivateWebhook_selects (webhookId : Z) (db : DB) :
  let r := deactivateWebhook webhookId db in
  r.1 = Return tt
  ∧ (∀ m, activeWebhooks m r.2
          = filter (λ wc, wc_id wc ≠ webhookId) (activeWebhooks m db))
  ∧ (∀ m, wc_id <$> getWebhooksByMerchant m r.2
          = wc_id <$> getWebhooksByMerchant m db)
  ∧ deactivateWebhook webhookId r.2 = (Return tt, r.2)
  ∧ ((∀ wc, wc ∈ webhook_configs db → wc_id wc ≠ webhookId) → r.2 = db).
Proof.
  simpl. split; [done|].
  unfold activeWebhooks, getWebhooksByMerchant, deactivateWebhook, modify.
  simpl. split; [|split; [|split]].
  - intros m. generalize (webhook_configs db). intros l.
    induction l as [|wc l IH]; [done|].
    rewrite fmap_cons, !filter_cons, IH.
    destruct (decide (wc_id wc = webhookId)) as [Heq|Hne]; simpl.
    + rewrite decide_False by (by intros [_ ?]).
      destruct (decide (merchant_address wc = m ∧ wc_is_active wc = true));
        [|done].
      by rewrite filter_cons_False by (by intros ?).
    + destruct (decide (merchant_address wc = m ∧ wc_is_active wc = true));
        [|done].
      by rewrite filter_cons_True.
  - intros m. generalize (webhook_configs db). intros l.
    induction l as [|wc l IH]; [done|].
    rewrite fmap_cons, !filter_cons.
    destruct (decide (wc_id wc = webhookId)) as [Heq|Hne]; simpl.
    + destruct (decide (merchant_address wc = m)); [|done].
      by rewrite !fmap_cons, IH.
    + destruct (decide (merchant_address wc = m)); [|done].
      by rewrite !fmap_cons, IH.
  - f_equal. unfold set_webhook_configs. simpl. f_equal.
    rewrite <- list_fmap_compose. apply list_fmap_ext.
    intros i wc _. simpl. destruct (decide (wc_id wc = webhookId)); simpl.
    + by rewrite decide_True.
    + by rewrite decide_False.
  - intros Hnone. destruct db as [fk M P cfgs cseq D dseq chk logs].
    unfold set_webhook_configs. simpl in *. f_equal.
    rewrite <- (list_fmap_id cfgs) at 2.
    apply list_fmap_ext. intros i wc Hi. simpl.
    case_decide as Heq; [|done]. exfalso.
    eapply Hnone; [|exact Heq]. by eapply list_elem_of_lookup_2.
Qed.

(** ** A poll pass keeps what its handlers keep *)

Section SyncPreserves.
Context (R : relation DB) `{!PreOrder R}.
Hypothesis R_merchants_insert :
  ∀ k v db, R db (set_merchants (insert k v) db).
Hypothesis R_merchants_alter :
  ∀ g k db, R db (set_merchants (alter g k) db).
Hypothesis R_payments_insert :
  ∀ k v db, R db (set_payment_intents (insert k v) db).
Hypothesis R_payments_alter :
  ∀ g k db, R db (set_payment_intents (alter g k) db).
Hypothesis R_event_logs : ∀ l db, R db (set_event_logs (λ l0, l0 ++ l) db).
Hypothesis R_indexer_state : ∀ s db, R db (set_indexer_state s db).
Hypothesis R_triggerWebhook :
  ∀ net m p ev pl, preserves R (triggerWebhook net m p ev pl).

Lemma dispatch_keeps net e blockNumber txHash timestamp :
  preserves R (dispatch net e blockNumber txHash timestamp).
Proof.
  intros db. destruct e; simpl.
  - apply R_merchants_insert.
  - apply R_merchants_alter.
  - apply R_merchants_alter.
  - unfold handlePaymentIntentCreated. rewrite get_bind_run.
    destruct (_ && _); [reflexivity|]. rewrite modify_bind_run.
    etrans; [apply R_payments_insert|apply R_triggerWebhook].
  - unfold handlePaymentCompleted. rewrite !modify_bind_run.
    etrans; [apply R_payments_alter|].
    etrans; [apply R_merchants_alter|apply R_triggerWebhook].
  - unfold handlePaymentRefunded. rewrite modify_bind_run, get_bind_run.
    etrans; [apply R_payments_alter|].
    destruct (payment_intents _ !! _); [apply R_triggerWebhook|reflexivity].
  - unfold handlePaymentExpired. rewrite modify_bind_run, get_bind_run.
    etrans; [apply R_payments_alter|].
    destruct (payment_intents _ !! _); [apply R_triggerWebhook|reflexivity].
  - unfold handlePaymentCancelled. rewrite modify_bind_run.
    etrans; [apply R_payments_alter|apply R_triggerWebhook].
Qed.

Lemma processLog_keeps net log : preserves R (processLog net log).
Proof.
  intros db. destruct (handled log) as [[e timestamp]|] eqn:Hh.
  - rewrite (processLog_handled _ _ _ _ _ Hh).
    etrans; [|apply dispatch_keeps]. apply R_event_logs.
  - rewrite processLog_unhandled by done. reflexivity.
Qed.

Lemma processLogs_keeps net logs : preserves R (processLogs net logs).
Proof.
  intros db. revert db. induction logs as [|log rest IH]; intros db;
    [reflexivity|].
  rewrite processLogs_cons_state.
  etrans; [apply processLog_keeps|apply IH].
Qed.

Lemma batchLoop_keeps fuel provider net fromBlock currentBlock :
  preserves R (batchLoop fuel provider net fromBlock currentBlock).
Proof.
  revert fromBlock. induction fuel as [|fuel IH]; intros fromBlock db; simpl.
  - destruct (fromBlock <=? currentBlock); reflexivity.
  - destruct (fromBlock <=? currentBlock); [|reflexivity].
    rewrite bind_run. unfold processBlockRange.
    destruct (getLogs provider fromBlock _) as [logs|]; [|reflexivity].
    pose proof (processLogs_keeps net logs db) as H1.
    destruct (processLogs net logs db) as [[errors|e] db1]; simpl in *;
      [|done].
    etrans; [exact H1|apply IH].
Qed.

Lemma syncEvents_keeps this_startBlock provider net :
  preserves R (syncEvents this_startBlock provider net).
Proof.
  intros db. unfold syncEvents. rewrite try_catch_state.
  destruct (getBlockNumber provider) as [c|] eqn:Hc.
  - rewrite (syncEvents_body_run _ _ _ _ _ Hc). cbv zeta.
    destruct (_ >? c); [reflexivity|].
    pose proof (batchLoop_keeps
      (passFuel (firstBlock this_startBlock (getLastIndexedBlock db) c) c)
      provider net (firstBlock this_startBlock (getLastIndexedBlock db) c) c db)
      as H1.
    destruct (batchLoop _ _ _ _ _ _) as [[[]|e] db1]; simpl in *; [|done].
    etrans; [exact H1|apply R_indexer_state].
  - unfold syncEvents_body. rewrite Hc. reflexivity.
Qed.
End SyncPreserves.

(** ** The config table *)

Global Instance same_configs_preorder : PreOrder same_configs.
Proof.
  split; [by split|]. intros a b c [? ?] [? ?]. split; congruence.
Qed.

Lemma triggerWebhook_same_configs net m p ev pl :
  preserves same_configs (triggerWebhook net m p ev pl).
Proof.
  intros db.
  by destruct (triggerWebhook_same_but_deliveries net m p ev pl db)
    as (_&_&_&?&?&_).
Qed.

Lemma syncEvents_same_configs this_startBlock provider net :
  preserves same_configs (syncEvents this_startBlock provider net).
Proof.
  apply (syncEvents_keeps same_configs); try done.
  apply triggerWebhook_same_configs.
Qed.

Lemma retryWorker_same_configs net now :
  preserves same_configs (startWebhookRetryWorker_tick net now).
Proof.
  intros db. unfold startWebhookRetryWorker_tick. rewrite get_bind_run.
  pose proof (preserves_for_of same_but_deliveries (pendingRetries now db)
                (sendWebhook net) (sendWebhook_same_but_deliveries net) db)
    as (_&_&_&?&?&_).
  by split.
Qed.

Lemma step_configs_ok (db db' : DB) :
  step db db' → configs_ok db → configs_ok db'.
Proof.
  intros Hstep (Hnd & Hseq & Hb).
  destruct Hstep as [this_startBlock provider net db|net t db|m url s db|wid db].
  - destruct (syncEvents_same_configs this_startBlock provider net db)
      as [Hc Hs].
    unfold configs_ok. by rewrite Hc, Hs.
  - destruct (retryWorker_same_configs net t db) as [Hc Hs].
    unfold configs_ok. by rewrite Hc, Hs.
  - unfold registerWebhook. destruct (_ && _); simpl; [done|].
    split; [|split].
    + simpl. rewrite fmap_app. apply NoDup_app. split; [done|].
      split; [|apply NoDup_singleton].
      intros x Hx Hx'. apply list_elem_of_singleton in Hx'. subst x.
      apply list_elem_of_fmap in Hx as (wc & Hid & Hin).
      apply Hb in Hin. simpl in Hid. lia.
    + simpl. lia.
    + simpl. intros wc Hin. apply elem_of_app in Hin as [Hin|Hin].
      * apply Hb in Hin. lia.
      * apply list_elem_of_singleton in Hin. subst wc. simpl. lia.
  - split; [|split]; simpl.
    + rewrite <- list_fmap_compose.
      erewrite list_fmap_ext; [exact Hnd|].
      intros i wc _. simpl. by rewrite deactivate_config_id.
    + done.
    + intros wc Hin. apply list_elem_of_fmap in Hin as (wc0 & -> & Hin).
      rewrite deactivate_config_id. by apply Hb.
Qed.

(** X9.  In every reachable state the subscriptions have pairwise distinct
    ids, all between 1 and the AUTOINCREMENT counter: an id names at most
    one subscription. *)
Theorem reachable_configs_ok (db : DB) :
  reachable db →
  configs_ok db
  ∧ ∀ wc wc', wc ∈ webhook_configs db → wc' ∈ webhook_configs db →
              wc_id wc = wc_id wc' → wc = wc'.
Proof.
  intros [fk Hrtc].
  assert (configs_ok db) as Hok.
  { revert db Hrtc. apply rtc_ind_r.
    - split; [apply NoDup_nil_2|]. split; [done|].
      intros wc Hin. by apply not_elem_of_nil in Hin.
    - intros db db' _ Hstep Hok. by apply (step_configs_ok db db'). }
  split; [done|]. destruct Hok as (Hnd & _ & _).
  intros wc wc' Hin Hin' Hid.
  apply list_elem_of_lookup in Hin as [i Hi].
  apply list_elem_of_lookup in Hin' as [j Hj].
  assert (i = j) as ->.
  { eapply NoDup_lookup; [exact Hnd| |].
    - rewrite list_lookup_fmap, Hi. done.
    - rewrite list_lookup_fmap, Hj. simpl. by rewrite Hid. }
  congruence.
Qed.

Lemma reachable_configs_ok_witness :
  configs_ok (db_completed true).
Proof.
  assert (reachable (db_completed true)) as Hreach.
  { exists true. unfold db_completed, db_created.
    eapply rtc_r; [eapply rtc_r; [apply rtc_once|]|]; constructor. }
  exact (proj1 (reachable_configs_ok _ Hreach)).
Defined.

Global Instance configs_extend_preorder : PreOrder configs_extend.
Proof.
  split.
  - intros db i wc Hi. exists wc. by repeat split.
  - intros a b c Hab Hbc i wc Hi.
    destruct (Hab i wc Hi) as (wc1 & Hi1 & ? & ? & ? & ? & Hact1).
    destruct (Hbc i wc1 Hi1) as (wc2 & Hi2 & ? & ? & ? & ? & Hact2).
    exists wc2. repeat split; try congruence. auto.
Qed.

Lemma same_configs_extend (db db' : DB) :
  same_configs db db' → configs_extend db db'.
Proof.
  intros [Hc _] i wc Hi. exists wc. rewrite Hc. by repeat split.
Qed.

Lemma step_configs_extend (db db' : DB) : step db db' → configs_extend db db'.
Proof.
  destruct 1.
  - apply same_configs_extend, syncEvents_same_configs.
  - apply same_configs_extend, retryWorker_same_configs.
  - unfold registerWebhook. destruct (_ && _); simpl; [reflexivity|].
    intros i wc Hi. exists wc. simpl.
    split; [by apply lookup_app_l_Some|]. by repeat split.
  - intros i wc Hi. simpl. rewrite list_lookup_fmap, Hi. simpl.
    eexists. split; [done|]. case_decide; by repeat split.
Qed.

(** X10.  Along every sequence of operations a subscription keeps its id,
    merchant, url and secret, and once it is inactive it stays inactive:
    nothing reactivates a webhook and nothing changes or removes one. *)
Theorem configs_history (db db' : DB) :
  rtc step db db' → configs_extend db db'.
Proof.
  induction 1 as [|a b c Hstep _ IH]; [reflexivity|].
  etrans; [by apply step_configs_extend|exact IH].
Qed.

Lemma configs_history_witness :
  configs_extend (db_created true) (db_completed true).
Proof.
  apply configs_history. unfold db_completed.
  apply rtc_once. constructor.
Defined.

(** ** Nothing is deleted *)

Global Instance grows_preorder : PreOrder grows.
Proof.
  split.
  - intros db. by repeat split.
  - intros a b c (?&?&?&?&?) (?&?&?&?&?).
    repeat split; try (etrans; eassumption).
Qed.

Lemma createWebhookDelivery_grows c p ev pl :
  preserves grows (createWebhookDelivery c p ev pl).
Proof.
  intros db. unfold createWebhookDelivery.
  destruct (_ && _); simpl; [reflexivity|].
  repeat split; try done. simpl. rewrite dom_insert_L. apply union_subseteq_r.
Qed.

Lemma sendWebhook_grows net id : preserves grows (sendWebhook net id).
Proof.
  intros db. unfold sendWebhook.
  destruct (webhook_deliveries db !! id) as [d|]; [|reflexivity].
  destruct (has_config _ _); [|reflexivity]. simpl.
  repeat split; try done. simpl. rewrite dom_insert_L. apply union_subseteq_r.
Qed.

Lemma triggerWebhook_grows net m p ev pl :
  preserves grows (triggerWebhook net m p ev pl).
Proof.
  apply (preserves_get_bind grows). intros db.
  apply (preserves_for_of grows). intros wc.
  apply (preserves_bind grows).
  - apply createWebhookDelivery_grows.
  - intros id. apply sendWebhook_grows.
Qed.

Lemma step_grows (db db' : DB) : step db db' → grows db db'.
Proof.
  destruct 1.
  - apply (syncEvents_keeps grows).
    + intros k v db0. repeat split; try done. simpl.
      rewrite dom_insert_L. apply union_subseteq_r.
    + intros g k db0. repeat split; try done. simpl. by rewrite dom_alter_L.
    + intros k v db0. repeat split; try done. simpl.
      rewrite dom_insert_L. apply union_subseteq_r.
    + intros g k db0. repeat split; try done. simpl. by rewrite dom_alter_L.
    + intros l db0. repeat split; try done. simpl. by apply prefix_app_r.
    + intros s db0. by repeat split.
    + apply triggerWebhook_grows.
  - unfold startWebhookRetryWorker_tick. rewrite get_bind_run.
    apply (preserves_for_of grows). apply sendWebhook_grows.
  - unfold registerWebhook. destruct (_ && _); simpl; [reflexivity|].
    repeat split; try done. simpl. rewrite length_app. lia.
  - repeat split; try done. simpl. by rewrite length_fmap.
Qed.

(** X11.  No operation deletes anything: along every sequence of poll
    passes, worker ticks, registrations and deactivations the merchants, the
    payment intents and the deliveries that have a row keep one, the
    subscriptions do not become fewer, and the event log is only extended
    at its end. *)
Theorem nothing_deleted (db db' : DB) :
  rtc step db db' → grows db db'.
Proof.
  induction 1 as [|a b c Hstep _ IH]; [reflexivity|].
  etrans; [by apply step_grows|exact IH].
Qed.

Lemma nothing_deleted_witness :
  grows (db_created true) (db_completed true).
Proof.
  apply nothing_deleted. unfold db_completed. apply rtc_once. constructor.
Defined.

(** * Further properties of the indexer *)

(** ** The event log *)

Global Instance same_event_logs_preorder : PreOrder same_event_logs.
Proof. split; unfold same_event_logs; [done|]. intros a b c. congruence. Qed.

Lemma dispatch_event_logs net e blockNumber txHash timestamp db :
  event_logs (dispatch net e blockNumber txHash timestamp db).2 = event_logs db.
Proof.
  apply (dispatch_preserves same_event_logs); try done.
  intros net' m p ev pl db'.
  by destruct (triggerWebhook_same_but_deliveries net' m p ev pl db')
    as (_&_&_&_&_&_&?).
Qed.

Lemma processLog_event_logs net log db :
  event_logs (processLog net log db).2
  = event_logs db ++ option_list (log_row log).
Proof.
  unfold log_row. destruct (handled log) as [[e timestamp]|] eqn:Hh.
  - by rewrite (processLog_handled _ _ _ _ _ Hh), dispatch_event_logs.
  - rewrite processLog_unhandled by done. simpl. by rewrite app_nil_r.
Qed.

(** X12.  The event log records what was handled: a batch appends one row
    per log that reaches [handleEvent] (decoded, block fetched), in the
    order of the logs, with the block, transaction, event name, arguments
    and block time of the log, also when the handler of the event throws;
    logs that are not handled leave no row, and earlier rows are kept. *)
Theorem processLogs_event_logs (net : Net) (logs : list Log) (db : DB) :
  event_logs (processLogs net logs db).2
  = event_logs db ++ omap log_row logs.
Proof.
  revert db. induction logs as [|log rest IH]; intros db.
  - simpl. by rewrite app_nil_r.
  - rewrite processLogs_cons_state, IH, processLog_event_logs.
    rewrite <- app_assoc. f_equal. simpl.
    by destruct (log_row log).
Qed.

(** ** Logs that are not handled *)

Lemma processLogs_app_state net l1 l2 db :
  (processLogs net (l1 ++ l2) db).2
  = (processLogs net l2 (processLogs net l1 db).2).2.
Proof.
  revert db. induction l1 as [|log l1 IH]; intros db; [done|].
  by rewrite <- app_comm_cons, !processLogs_cons_state, IH.
Qed.

(** X13.  A log that cannot be handled (the decoder throws or knows no such
    event, or the block cannot be fetched) is isolated: it changes nothing,
    and the logs before and after it are handled as if it were not in the
    batch.  The batch itself always returns. *)
Theorem processLogs_skips_unhandled (net : Net) (logs : list Log) (db : DB) :
  (processLogs net logs db).2
  = (processLogs net (filter (λ log, is_Some (handled log)) logs) db).2
  ∧ ∃ errors, (processLogs net logs db).1 = Return errors.
Proof.
  split; [|apply processLogs_returns].
  revert db. induction logs as [|log rest IH]; intros db; [done|].
  rewrite filter_cons. destruct (decide (is_Some (handled log))) as [Hs|Hn].
  - by rewrite !processLogs_cons_state, IH.
  - rewrite processLogs_cons_state, processLog_unhandled; [apply IH|].
    destruct (handled log); [|done]. exfalso. apply Hn. by eexists.
Qed.

(** ** Merchants *)

Lemma alter_absent {A} (f : A → A) (k : string) (m : gmap string A) :
  m !! k = None → alter f k m = m.
Proof.
  intros Hk. apply map_eq. intros j. rewrite lookup_alter.
  case_decide; [subst; by rewrite Hk|done].
Qed.

Lemma set_merchants_id (db : DB) (f : gmap string Merchant → gmap string Merchant) :
  f (merchants db) = merchants db → set_merchants f db = db.
Proof. intros H. destruct db. unfold set_merchants. simpl in *. by rewrite H. Qed.

Lemma set_payment_intents_id (db : DB)
    (f : gmap string PaymentIntent → gmap string PaymentIntent) :
  f (payment_intents db) = payment_intents db → set_payment_intents f db = db.
Proof.
  intros H. destruct db. unfold set_payment_intents. simpl in *. by rewrite H.
Qed.

(** X14.  MerchantDeactivated and MerchantReactivated flip [is_active] of a
    registered merchant and nothing else (name, registration time and total
    stay); for an address without a row they change nothing at all;
    deactivating and then reactivating an active merchant restores the
    database exactly.  Neither touches the merchant's subscriptions: the
    webhooks that [triggerWebhook] selects are the same. *)
Theorem merchant_activation (m : string) (db : DB) :
  let off := (handleMerchantDeactivated m db).2 in
  let on := (handleMerchantReactivated m off).2 in
  merchants off !! m = set_is_active false <$> merchants db !! m
  ∧ merchants on !! m = set_is_active true <$> merchants db !! m
  ∧ (∀ other, other ≠ m → merchants off !! other = merchants db !! other)
  ∧ (merchants db !! m = None →
     off = db ∧ (handleMerchantReactivated m db).2 = db)
  ∧ (∀ row, merchants db !! m = Some row → is_active row = true → on = db)
  ∧ activeWebhooks m off = activeWebhooks m db.
Proof.
  simpl. unfold handleMerchantDeactivated, handleMerchantReactivated, modify.
  simpl. split; [|split; [|split; [|split; [|split]]]].
  - by rewrite lookup_alter_eq.
  - rewrite !lookup_alter_eq. by destruct (merchants db !! m) as [[]|].
  - intros other Hne. by rewrite lookup_alter_ne.
  - intros Hnone.
    split; apply set_merchants_id; by apply alter_absent.
  - intros row Hrow Hact.
    destruct db as [fk M P cfgs cseq D dseq chk logs].
    unfold set_merchants. simpl in *. f_equal.
    apply map_eq. intros j.
    destruct (decide (j = m)) as [->|Hne];
      [|by rewrite !lookup_alter_ne by done].
    rewrite !lookup_alter_eq, Hrow.
    destruct row as [n a r t]. simpl in Hact. subst a. reflexivity.
  - done.
Qed.

Lemma sqlite_add_total_exact (n a : Z) :
  0 ≤ n → 0 ≤ a → n + a ≤ INT64_MAX →
  sqlite_add_total (IntegerText n) a = IntegerText (n + a).
Proof.
  intros Hn Ha Hsum. unfold sqlite_add_total, cast_integer, in_int64.
  assert (INT64_MIN < 0) as Hmin by done.
  rewrite Z.min_l, Z.max_r by lia.
  replace (INT64_MIN <=? a) with true by (symmetry; apply Z.leb_le; lia).
  replace (a <=? INT64_MAX) with true by (symmetry; apply Z.leb_le; lia).
  replace (INT64_MIN <=? n + a) with true by (symmetry; apply Z.leb_le; lia).
  replace (n + a <=? INT64_MAX) with true by (symmetry; apply Z.leb_le; lia).
  done.
Qed.

Lemma completed_total_nonneg (m : string) (logs : list Log) :
  Forall (λ log, 0 ≤ completed_amount m log) logs →
  0 ≤ completed_total m logs.
Proof.
  induction 1 as [|log rest Hlog _ IH]; simpl; [done|]. lia.
Qed.

Lemma foldl_log_project_absent (m : string) (logs : list Log) :
  ∀ M : gmap string Merchant,
  no_registration m logs → M !! m = None →
  foldl log_project_merchants M logs !! m = None.
Proof.
  induction logs as [|log rest IH]; intros M Hno Hnone; [done|].
  apply Forall_cons in Hno as [Hlog Hno]. simpl. apply IH; [done|].
  unfold log_project_merchants.
  destruct (handled log) as [[e timestamp]|] eqn:Hh; [|done].
  specialize (Hlog e timestamp eq_refl).
  destruct e; simpl in *; try done.
  - apply bool_decide_eq_false in Hlog. by rewrite lookup_insert_ne.
  - rewrite lookup_alter. case_decide; [subst|done]. by rewrite Hnone.
  - rewrite lookup_alter. case_decide; [subst|done]. by rewrite Hnone.
  - rewrite lookup_alter. case_decide; [subst|done]. by rewrite Hnone.
Qed.

Lemma foldl_log_project_total (m : string) (logs : list Log) :
  ∀ (M : gmap string Merchant) (row : Merchant) (n : Z),
  no_registration m logs →
  M !! m = Some row →
  total_payments_received row = IntegerText n →
  0 ≤ n →
  Forall (λ log, 0 ≤ completed_amount m log) logs →
  n + completed_total m logs ≤ INT64_MAX →
  total_payments_received <$> foldl log_project_merchants M logs !! m
  = Some (IntegerText (n + completed_total m logs)).
Proof.
  induction logs as [|log rest IH];
    intros M row n Hno Hrow Htotal Hn Hamounts Hsum.
  - simpl. rewrite Hrow. simpl. rewrite Htotal. f_equal. f_equal. lia.
  - apply Forall_cons in Hno as [Hlog Hno].
    apply Forall_cons in Hamounts as [Hamount Hamounts].
    pose proof (completed_total_nonneg m rest Hamounts) as Hrest.
    simpl in Hsum |- *.
    assert (∃ row',
              log_project_merchants M log !! m = Some row'
              ∧ total_payments_received row'
                = IntegerText (n + completed_amount m log))
      as (row' & Hrow' & Htotal').
    { unfold log_project_merchants, completed_amount in *.
      assert (IntegerText n = IntegerText (n + 0)) as Hsame
        by (f_equal; lia).
      destruct (handled log) as [[e timestamp]|] eqn:Hh;
        [|exists row; by rewrite Htotal].
      specialize (Hlog e timestamp eq_refl).
      destruct e; simpl in *;
        try (exists row; by rewrite Htotal).
      - apply bool_decide_eq_false in Hlog. rewrite lookup_insert_ne by done.
        exists row. by rewrite Htotal.
      - rewrite lookup_alter. case_decide; [subst|]; rewrite ?Hrow; simpl;
          eexists; (split; [reflexivity|]); simpl; by rewrite Htotal.
      - rewrite lookup_alter. case_decide; [subst|]; rewrite ?Hrow; simpl;
          eexists; (split; [reflexivity|]); simpl; by rewrite Htotal.
      - rewrite lookup_alter. case_decide as Hm; [subst|]; rewrite ?Hrow;
          simpl; eexists; (split; [reflexivity|]); simpl; rewrite Htotal;
          [|done].
        apply sqlite_add_total_exact; lia. }
    rewrite (IH _ row' (n + completed_amount m log)); try done; [|lia..].
    f_equal. f_equal. lia.
Qed.

(** X15.  Accounting of a batch, while the sums stay within the 64-bit
    integers of the database: for a merchant that the batch does not
    register anew and whose total is the integer [n], the total after the
    batch is [n] plus the amounts of all PaymentCompleted events for that
    merchant that were handled, whether or not the payments have rows,
    webhooks are delivered or a handler throws; a merchant without a row
    still has none, so completions for it are not counted anywhere. *)
Theorem processLogs_total (net : Net) (logs : list Log) (db : DB) (m : string) :
  no_registration m logs →
  (merchants db !! m = None →
   merchants (processLogs net logs db).2 !! m = None)
  ∧ (∀ row n,
       merchants db !! m = Some row →
       total_payments_received row = IntegerText n →
       0 ≤ n →
       Forall (λ log, 0 ≤ completed_amount m log) logs →
       n + completed_total m logs ≤ INT64_MAX →
       total_payments_received <$> merchants (processLogs net logs db).2 !! m
       = Some (IntegerText (n + completed_total m logs))).
Proof.
  intros Hno. rewrite processLogs_merchants. split.
  - by apply foldl_log_project_absent.
  - intros row n. by apply foldl_log_project_total.
Qed.

Lemma processLogs_total_witness :
  total_payments_received
  <$> merchants (processLogs net_500 [log_completed; log_completed]
                   (db_created true)).2 !! "0xM"
  = Some (IntegerText 200).
Proof.
  destruct (processLogs_total net_500 [log_completed; log_completed]
              (db_created true) "0xM") as [_ Htotal].
  - repeat constructor; intros e timestamp [= <- <-]; reflexivity.
  - apply (Htotal (mkMerchant "Shop" true 1600 0) 0);
      try (vm_compute; reflexivity); try done.
    repeat constructor; vm_compute; done.
Defined.

(** ** Which events create rows *)

(** X16.  Rows come into being by two events only: the payment-intent table
    gains a key exactly when a PaymentIntentCreated event is handled and its
    insert is accepted, the merchant table exactly when a MerchantRegistered
    event is handled; every other event leaves the sets of payment ids and
    of merchant addresses as they are. *)
Theorem rows_created_by (net : Net) (e : Event) (blockNumber : Z)
    (txHash : string) (timestamp : Z) (db : DB) :
  let db' := (dispatch net e blockNumber txHash timestamp db).2 in
  dom (payment_intents db')
  = (if insert_rejected e db then ∅
     else from_option singleton ∅ (creates_payment e))
    ∪ dom (payment_intents db)
  ∧ dom (merchants db')
    = from_option singleton ∅ (creates_merchant e) ∪ dom (merchants db).
Proof.
  intros db'. unfold db'.
  rewrite dispatch_payment_intents, dispatch_merchants. split.
  - destruct (insert_rejected e db); [by rewrite union_empty_l_L|].
    destruct e; simpl; rewrite ?dom_insert_L, ?dom_alter_L;
      try done; by rewrite union_empty_l_L.
  - destruct e; simpl; rewrite ?dom_insert_L, ?dom_alter_L;
      try done; by rewrite union_empty_l_L.
Qed.

(** X17.  Events for a payment id that has no row.  PaymentExpired and
    PaymentRefunded return without changing anything and without a webhook.
    PaymentCompleted creates no payment row either, yet it still runs the
    update of the total of the merchant named by the event: while the sum
    stays within the 64-bit integers of the database, the amount is added
    to the total. *)
Theorem unknown_payment_events (net : Net) (p : string) (db : DB) :
  payment_intents db !! p = None →
  handlePaymentExpired net p db = (Return tt, db)
  ∧ (∀ a, handlePaymentRefunded net p a db = (Return tt, db))
  ∧ (∀ c m a f t,
       let db' := (handlePaymentCompleted net p c m a f t db).2 in
       payment_intents db' = payment_intents db
       ∧ merchants db' !! m = add_total a <$> merchants db !! m
       ∧ ∀ row n,
           merchants db !! m = Some row →
           total_payments_received row = IntegerText n →
           0 ≤ n → 0 ≤ a → n + a ≤ INT64_MAX →
           total_payments_received <$> merchants db' !! m
           = Some (IntegerText (n + a))).
Proof.
  intros Hnone.
  assert (∀ g, set_payment_intents (alter g p) db = db) as Hid.
  { intros g. apply set_payment_intents_id. by apply alter_absent. }
  split; [|split].
  - unfold handlePaymentExpired.
    by rewrite modify_bind_run, get_bind_run, Hid, Hnone.
  - intros a. unfold handlePaymentRefunded.
    by rewrite modify_bind_run, get_bind_run, Hid, Hnone.
  - intros c m a f t db'. unfold db'.
    pose proof (dispatch_payment_intents net (PaymentCompleted p c m a f t)
                  0 "" 0 db) as Hp.
    pose proof (dispatch_merchants net (PaymentCompleted p c m a f t)
                  0 "" 0 db) as Hm.
    simpl in Hp, Hm. rewrite Hp, Hm. split; [|split].
    + by apply alter_absent.
    + by rewrite lookup_alter_eq.
    + intros row n Hrow Htotal Hn Ha Hsum.
      rewrite lookup_alter_eq, Hrow. simpl. rewrite Htotal.
      f_equal. by apply sqlite_add_total_exact.
Qed.

Lemma unknown_payment_events_witness :
  handlePaymentExpired net_200 "0xUnknown" (db_completed true)
  = (Return tt, db_completed true).
Proof.
  destruct (unknown_payment_events net_200 "0xUnknown" (db_completed true))
    as [Hexp _]; [vm_compute; reflexivity|exact Hexp].
Defined.

(** ** A poll pass, as a whole *)

Lemma batchLoop_state fuel provider net fromBlock currentBlock db :
  (batchLoop fuel provider net fromBlock currentBlock db).2
  = (processLogs net
       (fetched_logs provider (batchRanges fuel fromBlock currentBlock)) db).2.
Proof.
  revert fromBlock db. induction fuel as [|fuel IH]; intros fromBlock db;
    simpl.
  - by destruct (fromBlock <=? currentBlock).
  - destruct (fromBlock <=? currentBlock); [|done].
    rewrite bind_run. unfold processBlockRange. simpl.
    destruct (getLogs provider fromBlock _) as [logs|]; [|done].
    rewrite processLogs_app_state.
    destruct (processLogs_returns net logs db) as [errors Hret].
    destruct (processLogs net logs db) as [[errs|e] db1]; [|done].
    apply IH.
Qed.

Lemma all_fetched_Forall provider ranges :
  all_fetched provider ranges = true → Forall (batch_fetched provider) ranges.
Proof.
  unfold all_fetched. intros H. apply Forall_forall. intros range Hin.
  rewrite forallb_forall in H. apply list_elem_of_In in Hin.
  by apply (bool_decide_eq_true _), H.
Qed.

Lemma all_fetched_Exists provider ranges :
  all_fetched provider ranges = false → Exists (batch_fails provider) ranges.
Proof.
  induction ranges as [|range rest IH]; simpl; [done|].
  destruct (getLogs provider range.1 range.2) as [logs|] eqn:E.
  - rewrite bool_decide_eq_true_2 by eauto. simpl.
    intros H. right. by apply IH.
  - intros _. by left.
Qed.

(** X18.  One poll pass, in full.  When the provider does not give the
    chain height, or the first block of the pass lies beyond it, the
    database is left untouched.  Otherwise the pass handles, as one
    sequence, the logs of its batches up to the first batch whose fetch
    fails, and writes the checkpoint (the height) exactly when no fetch
    failed: the work of the batches before a failure stays, there is no
    rollback. *)
Theorem syncEvents_pass (this_startBlock : Z) (provider : Provider)
    (net : Net) (db : DB) :
  match getBlockNumber provider with
  | None =>
      syncEvents this_startBlock provider net db
      = (Return (Some ProviderError), db)
  | Some c =>
      let s := firstBlock this_startBlock (getLastIndexedBlock db) c in
      let ranges := passRanges this_startBlock db c in
      let db1 := (processLogs net (fetched_logs provider ranges) db).2 in
      (c < s → syncEvents this_startBlock provider net db = (Return None, db))
      ∧ (syncEvents this_startBlock provider net db).2
        = if bool_decide (s ≤ c) && all_fetched provider ranges
          then set_indexer_state (Some c) db1
          else db1
  end.
Proof.
  destruct (getBlockNumber provider) as [c|] eqn:Hc.
  - intros s ranges db1. unfold syncEvents.
    rewrite try_catch_state, (syncEvents_body_run _ _ _ _ _ Hc).
    unfold try_catch. rewrite (syncEvents_body_run _ _ _ _ _ Hc).
    fold s. destruct (s >? c) eqn:Hs.
    + split; [done|]. rewrite bool_decide_eq_false_2 by lia. simpl.
      unfold db1, ranges, passRanges. fold s.
      destruct (passFuel s c); simpl;
        by replace (s <=? c) with false by lia.
    + split; [lia|]. rewrite bool_decide_eq_true_2 by lia. simpl.
      pose proof (batchLoop_state (passFuel s c) provider net s c db) as Hst.
      destruct (batchLoop_fuel (passFuel s c) provider net s c db)
        as [Hret Hthrow]; [done|].
      unfold db1, ranges, passRanges. fold s.
      destruct (all_fetched provider (batchRanges (passFuel s c) s c)) eqn:Hall.
      * apply all_fetched_Forall in Hall. specialize (Hret Hall).
        destruct (batchLoop _ _ _ _ _ _) as [[[]|e] db2]; [|done].
        simpl in *. by rewrite Hst.
      * apply all_fetched_Exists in Hall. specialize (Hthrow Hall).
        destruct (batchLoop _ _ _ _ _ _) as [[[]|e] db2]; [done|].
        simpl in *. by rewrite Hst.
  - unfold syncEvents, try_catch, syncEvents_body. by rewrite Hc.
Qed.

(** X19.  The batches of a pass tile its blocks: the first batch starts at
    the first block of the pass, each batch starts right after the one
    before, none is empty or holds more than 1000 blocks, and the last one
    ends at the current height; no block is fetched twice or left out, and
    when the first block lies beyond the height there is no batch. *)
Theorem passRanges_tile (startBlock currentBlock : Z) :
  tiles startBlock currentBlock
    (batchRanges (passFuel startBlock currentBlock) startBlock currentBlock).
Proof.
  unfold passFuel.
  assert (∀ fuel a,
            (Z.to_nat (currentBlock - a + 1) ≤ fuel)%nat →
            tiles a currentBlock (batchRanges fuel a currentBlock)) as H.
  { induction fuel as [|fuel IH]; intros a Hfuel; simpl.
    - destruct (a <=? currentBlock) eqn:E; simpl; lia.
    - destruct (a <=? currentBlock) eqn:E; simpl; [|lia].
      unfold batchSize.
      split; [done|]. split; [lia|]. split; [lia|].
      destruct (decide (a + 1000 - 1 ≤ currentBlock)) as [Hle|Hgt].
      + replace (Z.min (a + 1000 - 1) currentBlock + 1) with (a + 1000)
          by lia.
        apply IH. lia.
      + replace (Z.min (a + 1000 - 1) currentBlock) with currentBlock by lia.
        destruct fuel; simpl;
          replace (a + 1000 <=? currentBlock) with false by lia; simpl; lia. }
  by apply H.
Qed.

Lemma batchRanges_S fuel fromBlock currentBlock :
  batchRanges (S fuel) fromBlock currentBlock
  = if fromBlock <=? currentBlock
    then (fromBlock, Z.min (fromBlock + batchSize - 1) currentBlock)
         :: batchRanges fuel (fromBlock + batchSize) currentBlock
    else [].
Proof. reflexivity. Qed.

Lemma batchRanges_beyond fuel fromBlock currentBlock :
  currentBlock < fromBlock → batchRanges fuel fromBlock currentBlock = [].
Proof.
  intros H. destruct fuel; simpl;
    by replace (fromBlock <=? currentBlock) with false by lia.
Qed.

(** X20.  The first sync.  While the checkpoint is unset (or 0) and no
    start block is configured, a pass looks back 1000 blocks from the
    current height [c]: it fetches the 1001 blocks from [c - 1000], which is
    negative on a chain shorter than 1000 blocks, in two batches, the second
    holding the block [c] alone.  With a configured start block at or below
    the height the pass starts there. *)
Theorem first_sync_ranges (this_startBlock : Z) (db : DB) (c : Z) :
  getLastIndexedBlock db = 0 →
  (this_startBlock ≤ 0 →
   passRanges this_startBlock db c = [(c - 1000, c - 1); (c, c)])
  ∧ (0 < this_startBlock ≤ c →
     ∃ rest, passRanges this_startBlock db c
             = (this_startBlock, Z.min (this_startBlock + 999) c) :: rest).
Proof.
  intros Hunset. unfold passRanges, firstBlock, passFuel. rewrite Hunset.
  replace (0 =? 0) with true by done. cbv iota. split.
  - intros Hle. replace (this_startBlock >? 0) with false by lia.
    destruct (Z.to_nat (c - (c - 1000) + 1)) as [|[|fuel]] eqn:E; [lia|lia|].
    rewrite !batchRanges_S. unfold batchSize.
    replace (c - 1000 <=? c) with true by lia.
    replace (c - 1000 + 1000 <=? c) with true by lia.
    rewrite batchRanges_beyond by lia.
    f_equal; [f_equal; lia|]. f_equal. f_equal; lia.
  - intros [Hpos Hle]. replace (this_startBlock >? 0) with true by lia.
    destruct (Z.to_nat (c - this_startBlock + 1)) as [|fuel] eqn:E; [lia|].
    rewrite batchRanges_S. unfold batchSize.
    replace (this_startBlock <=? c) with true by lia.
    eexists. f_equal. f_equal. lia.
Qed.

Lemma first_sync_ranges_witness :
  passRanges 0 (emptyDB true) 250 = [(-750, 249); (250, 250)].
Proof.
  destruct (first_sync_ranges 0 (emptyDB true) 250) as [Hlook _];
    [reflexivity|].
  apply Hlook. lia.
Defined.

(** * Further invariants of the delivery table *)

Global Instance same_delivery_preorder : PreOrder same_delivery.
Proof.
  split.
  - intros d. by repeat split.
  - intros a b c (?&?&?&?&?) (?&?&?&?&?). repeat split; (congruence || lia).
Qed.

Global Instance delivers_preorder : PreOrder delivers.
Proof.
  split.
  - intros db Hok Hsent. split; [done|]. split; [done|].
    intros id d Hd. by exists d.
  - intros a b c Hab Hbc Hok Hsent.
    destruct (Hab Hok Hsent) as (Hokb & Hsentb & Hab').
    destruct (Hbc Hokb Hsentb) as (Hokc & Hsentc & Hbc').
    split; [done|]. split; [done|].
    intros id d Hd. destruct (Hab' id d Hd) as (d1 & Hd1 & Hs1).
    destruct (Hbc' id d1 Hd1) as (d2 & Hd2 & Hs2).
    exists d2. split; [done|]. by etrans.
Qed.

Lemma delivers_same (db db' : DB) :
  webhook_deliveries db' = webhook_deliveries db →
  webhook_deliveries_seq db' = webhook_deliveries_seq db →
  (∀ c, has_config c db = true → has_config c db' = true) →
  delivers db db'.
Proof.
  intros Hd Hs Hc Hok Hsent. split; [|split].
  - unfold deliveries_ok. by rewrite Hd, Hs.
  - intros id d Hrow. rewrite Hd in Hrow.
    destruct (Hsent id d Hrow) as (?&?&?&?). split; [by apply Hc|done].
  - intros id d Hrow. exists d. by rewrite Hd.
Qed.

Lemma attempt_outcome_sent (a : Attempt) (d : WebhookDelivery) :
  0 ≤ attempts d →
  d_status d = pending →
  let d' := attempt_outcome a d in
  1 ≤ attempts d'
  ∧ is_Some (last_attempt_at d')
  ∧ (d_status d' = pending → is_Some (next_retry_at d'))
  ∧ same_delivery d d'.
Proof.
  intros Hatt Hpend. unfold attempt_outcome.
  destruct (is_2xx (response a)); simpl.
  - split; [lia|]. split; [by eexists|]. split; [done|].
    repeat split; simpl; try done. lia.
  - unfold attempt_failed. destruct (_ >=? _); simpl.
    + split; [lia|]. split; [by eexists|]. split; [done|].
      repeat split; simpl; try done. lia.
    + split; [lia|]. split; [by eexists|]. split; [by eexists|].
      repeat split; simpl; try done. lia.
Qed.

Lemma create_send_delivers net c p ev pl db :
  has_config c db = true →
  delivers db ((createWebhookDelivery c p ev pl ≫= sendWebhook net) db).2.
Proof.
  intros Hc Hok Hsent.
  pose proof (create_send_keeps net c p ev pl db Hok) as (Hok' & _ & _).
  split; [exact Hok'|]. clear Hok'.
  rewrite bind_run. unfold createWebhookDelivery.
  destruct (_ && _); simpl; [split; [done|]; intros id d Hd; by exists d|].
  set (id := webhook_deliveries_seq db + 1).
  set (row := mkWebhookDelivery c p ev pl pending 0 None None).
  set (db1 := set_webhook_deliveries (insert id row) id db).
  assert (webhook_deliveries db !! id = None) as Hfresh.
  { destruct (webhook_deliveries db !! id) as [d|] eqn:E; [|done].
    destruct (Hok _ _ E) as [Hle _]. unfold id in Hle. lia. }
  rewrite (sendWebhook_joined net id db1 row);
    [|apply lookup_insert_eq|by rewrite (has_config_same db db1)].
  fold (attempt_outcome (net id) row). cbn [snd].
  set (db2 := set_webhook_deliveries
                (insert id (attempt_outcome (net id) row))
                (webhook_deliveries_seq db1) db1).
  assert (webhook_deliveries db2
          = <[id := attempt_outcome (net id) row]>
              (<[id := row]> (webhook_deliveries db))) as Hd2 by done.
  assert (∀ k, has_config k db2 = has_config k db) as Hc2
    by (intros k; by apply has_config_same).
  destruct (attempt_outcome_sent (net id) row) as (H1 & H2 & H3 & H4);
    [simpl; lia|done|].
  split.
  - intros k dk. unfold deliveries_sent. rewrite Hd2, Hc2, lookup_insert.
    case_decide as Hk.
    + intros [= <-]. split; [|done]. by destruct H4 as [-> _].
    + rewrite lookup_insert_ne by done. intros Hdk.
      by destruct (Hsent k dk Hdk) as (?&?&?&?).
  - intros k dk Hdk. exists dk. split; [|reflexivity].
    rewrite Hd2, !lookup_insert_ne; [done| |]; intros <-;
      by rewrite Hfresh in Hdk.
Qed.

Lemma for_of_create_send_delivers net p ev pl (l : list WebhookConfig) :
  ∀ db, (∀ wc, wc ∈ l → has_config (wc_id wc) db = true) →
  delivers db
    (for_of l (λ wc, createWebhookDelivery (wc_id wc) p ev pl
                     ≫= sendWebhook net) db).2.
Proof.
  induction l as [|wc l IH]; intros db Hcfg; cbn [for_of]; [reflexivity|].
  rewrite bind_run.
  pose proof (create_send_delivers net (wc_id wc) p ev pl db) as H1.
  assert (same_but_deliveries db
            ((createWebhookDelivery (wc_id wc) p ev pl ≫= sendWebhook net)
               db).2) as Hsame.
  { apply (preserves_bind same_but_deliveries).
    - apply createWebhookDelivery_same_but_deliveries.
    - intros id. apply sendWebhook_same_but_deliveries. }
  destruct ((createWebhookDelivery (wc_id wc) p ev pl ≫= sendWebhook net) db)
    as [[[]|e] db1]; simpl in *.
  - etrans; [apply H1, Hcfg; left|]. apply IH.
    intros wc' Hin. rewrite (has_config_same db db1);
      [apply Hcfg; by right|by destruct Hsame as (_&_&_&?&_)].
  - apply H1, Hcfg. left.
Qed.

Lemma triggerWebhook_delivers net m p ev pl :
  preserves delivers (triggerWebhook net m p ev pl).
Proof.
  intros db. unfold triggerWebhook. rewrite get_bind_run.
  apply for_of_create_send_delivers.
  intros wc. apply activeWebhooks_has_config.
Qed.

Lemma retryWorker_delivers net now :
  preserves delivers (startWebhookRetryWorker_tick net now).
Proof.
  intros db Hok Hsent.
  destruct (retryWorker_keeps_deliveries net now db Hok) as (Hok' & _ & _).
  split; [exact Hok'|].
  assert (∀ c, has_config c (startWebhookRetryWorker_tick net now db).2
               = has_config c db) as Hcfg.
  { intros c. apply has_config_same.
    by destruct (retryWorker_same_configs net now db). }
  split.
  - intros id d'. rewrite retryWorker_tick_row.
    destruct (webhook_deliveries db !! id) as [d|] eqn:Hd; [|done].
    simpl. intros [= <-]. destruct (Hsent id d Hd) as (Hc & Ha & Hl & Hn).
    rewrite Hc, andb_true_r. destruct (retry_due now d) eqn:Hdue.
    + apply retry_due_pending in Hdue as Hpend.
      destruct (attempt_outcome_sent (net id) d) as (H1 & H2 & H3 & H4);
        [lia|done|].
      rewrite Hcfg. destruct H4 as [-> _]. done.
    + by rewrite Hcfg.
  - intros id d Hd. rewrite retryWorker_tick_row, Hd. simpl.
    eexists. split; [done|].
    destruct (Hsent id d Hd) as (Hc & Ha & _).
    destruct (retry_due now d && _) eqn:Hdue; [|reflexivity].
    apply andb_true_iff in Hdue as [Hdue _].
    apply retry_due_pending in Hdue.
    by destruct (attempt_outcome_sent (net id) d) as (_ & _ & _ & H4); [lia|..].
Qed.

Lemma has_config_app (c : Z) (db : DB) (l : list WebhookConfig) (seq : Z) :
  has_config c db = true →
  has_config c (set_webhook_configs (λ l0, l0 ++ l) seq db) = true.
Proof.
  unfold has_config. intros H. apply bool_decide_eq_true in H.
  apply bool_decide_eq_true. simpl. apply Exists_app. by left.
Qed.

Lemma step_delivers (db db' : DB) : step db db' → delivers db db'.
Proof.
  destruct 1 as [this_startBlock provider net db|net t db|m url s db|wid db].
  - apply (syncEvents_keeps delivers);
      try (intros; by apply delivers_same).
    apply triggerWebhook_delivers.
  - apply retryWorker_delivers.
  - unfold registerWebhook. destruct (_ && _); simpl; [reflexivity|].
    apply delivers_same; try done. intros c. apply has_config_app.
  - apply delivers_same; try done. intros c. unfold has_config. simpl.
    intros H. apply bool_decide_eq_true in H. apply bool_decide_eq_true.
    apply Exists_fmap. eapply Exists_impl; [exact H|].
    intros wc Hid. simpl. by rewrite deactivate_config_id.
Qed.

Lemma reachable_delivers (db : DB) :
  reachable db → deliveries_ok db ∧ deliveries_sent db.
Proof.
  intros [fk Hrtc]. revert db Hrtc. apply rtc_ind_r.
  - split; intros id d Hd; simpl in Hd; by rewrite lookup_empty in Hd.
  - intros db db' _ Hstep [Hok Hsent].
    by destruct (step_delivers db db' Hstep Hok Hsent) as (?&?&_).
Qed.

(** X21.  A delivery can be left unsent for good.  A delivery without a
    retry time that no call is sending or about to send (such is the row
    that [createWebhookDelivery] inserted when the process exits before the
    first POST settles) stays exactly as it is in every later state,
    whatever runs and however the timers overlap: the retry worker never
    selects it and nothing else sends it. *)
Theorem unsent_delivery_stranded (this_startBlock : Z)
    (ticks_overlap passes_overlap : bool) (s s' : System) (id : Z)
    (d : WebhookDelivery) :
  webhook_deliveries (database s) !! id = Some d →
  id ≤ webhook_deliveries_seq (database s) →
  next_retry_at d = None →
  id ∉ tasks s ≫= claimed →
  rtc (async_step this_startBlock ticks_overlap passes_overlap) s s' →
  webhook_deliveries (database s') !! id = Some d
  ∧ (id ∉ tasks s' ≫= claimed)
  ∧ ∀ now, id ∉ pendingRetries now (database s').
Proof.
  intros Hd Hseq Hnext Hfree Hrun.
  destruct (rtc_stranded _ _ _ _ _ id d Hrun) as (Hd' & _ & _ & Hfree');
    [done|].
  split; [done|]. split; [done|].
  intros now (d' & Hd'' & Hdue)%pendingRetries_elem.
  rewrite Hd' in Hd''. injection Hd'' as <-.
  unfold retry_due in Hdue. rewrite Hnext in Hdue.
  by rewrite andb_false_r in Hdue.
Qed.

Lemma unsent_delivery_stranded_witness :
  let s := state_after 0 true true true schedule_exit_mid_send in
  async_reachable 0 true true s
  ∧ webhook_deliveries (database s) !! 1 = Some delivery_unsent
  ∧ ∀ s', rtc (async_step 0 true true) s s' →
          webhook_deliveries (database s') !! 1 = Some delivery_unsent
          ∧ ∀ now, 1 ∉ pendingRetries now (database s').
Proof.
  intros s. split; [|split].
  - exists true. apply (run_rtc _ _ _ schedule_exit_mid_send).
    vm_compute. reflexivity.
  - vm_compute. reflexivity.
  - intros s' Hrun.
    destruct (unsent_delivery_stranded 0 true true s s' 1 delivery_unsent)
      as (Hd & _ & Hnever); try done; try (vm_compute; done).
    by intros ?%elem_of_nil.
Defined.



(** * The life cycle of the indexer *)

Lemma EventIndexer_restarts_spec (this_startBlock : Z)
    (runs : list (Provider * Net)) (ix : Indexer) (db : DB) :
  let r := EventIndexer_restarts this_startBlock runs ix db in
  intervals r.1 = (intervals ix + length runs)%nat
  ∧ (runs ≠ [] → isRunning r.1 = true)
  ∧ rtc step db r.2.
Proof.
  revert ix db. induction runs as [|[provider net] runs IH]; intros ix db.
  - simpl. split; [lia|]. split; [done|]. apply rtc_refl.
  - cbn [EventIndexer_restarts]. cbv zeta.
    destruct (IH (EventIndexer_start this_startBlock provider net
                    (EventIndexer_stop ix) db).1
                 (EventIndexer_start this_startBlock provider net
                    (EventIndexer_stop ix) db).2) as (Hn & Hrun & Hsteps).
    split; [|split].
    + rewrite Hn. simpl. lia.
    + intros _. destruct runs as [|run runs']; [done|]. by apply Hrun.
    + eapply rtc_l; [|exact Hsteps]. simpl. apply step_syncEvents.
Qed.

Lemma EventIndexer_firings_stopped (this_startBlock : Z)
    (firings : list (Provider * Net)) (ix : Indexer) (db : DB) :
  isRunning ix = false →
  EventIndexer_firings this_startBlock firings ix db = db.
Proof.
  intros Hstopped. induction firings as [|[provider net] firings IH]; [done|].
  cbn [EventIndexer_firings]. unfold EventIndexer_interval.
  by rewrite Hstopped.
Qed.

Lemma EventIndexer_firings_running (this_startBlock : Z)
    (firings : list (Provider * Net)) (ix : Indexer) (db : DB) :
  isRunning ix = true →
  EventIndexer_firings this_startBlock firings ix db
  = foldl (λ db0 run, (syncEvents this_startBlock run.1 run.2 db0).2) db
      firings.
Proof.
  intros Hrun. revert db.
  induction firings as [|[provider net] firings IH]; intros db; [done|].
  cbn [EventIndexer_firings foldl]. rewrite IH.
  unfold EventIndexer_interval. by rewrite Hrun.
Qed.

(** X23.  The life cycle of the indexer.  [start] on a running indexer does
    nothing: no pass, no timer.  [stop] clears no timer: after it the timers
    keep firing, and every firing leaves the database untouched.  Each
    [stop] followed by [start] runs one pass at once and sets one more
    timer, so after [k] restarts the indexer has [k] more timers than
    before, all live: every firing of every one of them runs a pass. *)
Theorem indexer_lifecycle (this_startBlock : Z) (provider : Provider)
    (net : Net) (runs firings : list (Provider * Net)) (ix : Indexer)
    (db : DB) :
  (isRunning ix = true →
   EventIndexer_start this_startBlock provider net ix db = (ix, db))
  ∧ (∀ db',
       EventIndexer_firings this_startBlock firings (EventIndexer_stop ix) db'
       = db')
  ∧ (let r := EventIndexer_restarts this_startBlock runs ix db in
     intervals r.1 = (intervals ix + length runs)%nat
     ∧ rtc step db r.2
     ∧ (runs ≠ [] →
        isRunning r.1 = true
        ∧ ∀ db',
            EventIndexer_firings this_startBlock firings r.1 db'
            = foldl (λ db0 run,
                       (syncEvents this_startBlock run.1 run.2 db0).2)
                db' firings)).
Proof.
  split; [|split].
  - intros Hrun. unfold EventIndexer_start. by rewrite Hrun.
  - intros db'. by apply EventIndexer_firings_stopped.
  - destruct (EventIndexer_restarts_spec this_startBlock runs ix db)
      as (Hn & Hrun & Hsteps).
    cbv zeta. split; [done|]. split; [done|].
    intros Hne. split; [by apply Hrun|].
    intros db'. apply EventIndexer_firings_running. by apply Hrun.
Qed.

(** * The webhook routes *)

Section RouteProperties.
Variable valid_url : string → bool.

(** X24.  POST /merchants/:address/webhooks never answers 500: the check
    that the merchant exists keeps the foreign key of [registerWebhook] from
    failing.  It answers 200 exactly when the url is a non-empty, well-formed
    string and the merchant has a row; then the secret in the answer is the
    one stored, and the new subscription is the last of those that
    [triggerWebhook] selects for the merchant.  Every other answer leaves
    the database unchanged. *)
Theorem post_merchant_webhooks_answers (address : string)
    (webhookUrl : option string) (secret : string) (db : DB) :
  let r := post_merchant_webhooks valid_url address webhookUrl secret db in
  r.1 ≠ Status500
  ∧ ((∃ url s, r.1 = Status200 url s) ↔
     ∃ url, webhookUrl = Some url ∧ url ≠ ""%string ∧ valid_url url = true
            ∧ is_Some (merchants db !! address))
  ∧ (∀ url s, r.1 = Status200 url s →
       webhookUrl = Some url ∧ s = secret
       ∧ activeWebhooks address r.2
         = activeWebhooks address db
           ++ [mkWebhookConfig (webhook_configs_seq db + 1) address url secret
                 true])
  ∧ ((∀ url s, r.1 ≠ Status200 url s) → r.2 = db).
Proof.
  simpl. unfold post_merchant_webhooks.
  destruct webhookUrl as [url|].
  2:{ split; [done|]. split; [|split; [done|done]].
      split; [by intros (?&?&?)|by intros (?&?&_)]. }
  case_bool_decide as Hempty.
  { split; [done|]. split; [|split; [done|done]].
    split; [by intros (?&?&?)|]. intros (u & [= <-] & Hne & _). done. }
  destruct (valid_url url) eqn:Hvalid; simpl.
  2:{ split; [done|]. split; [|split; [done|done]].
      split; [by intros (?&?&?)|]. intros (u & [= <-] & _ & Hv & _).
      congruence. }
  destruct (merchants db !! address) as [row|] eqn:Hrow.
  2:{ split; [done|]. split; [|split; [done|done]].
      split; [by intros (?&?&?)|]. by intros (u & _ & _ & _ & [? ?]). }
  unfold registerWebhook. rewrite Hrow.
  rewrite (bool_decide_eq_true_2 (is_Some (Some row))) by eauto.
  rewrite andb_false_r. cbn [fst snd]. split; [done|]. split; [|split].
  - split; [|by eauto]. intros _. exists url. eauto.
  - intros u s [= <- <-]. split; [done|]. split; [done|].
    unfold activeWebhooks.
    cbn [webhook_configs set_webhook_configs].
    rewrite filter_app. by rewrite filter_cons_True.
  - intros Hno. by specialize (Hno url secret).
Qed.
End RouteProperties.

Section WebhookListProperties.
Variable created_at_of : WebhookConfig → Z.

(** X25.  The list of GET /merchants/:address/webhooks holds, for each
    subscription of the merchant, an object with the property [id] alone.
    The route reads [webhookUrl], [isActive] and [createdAt] from rows whose
    properties are the column names [webhook_url], [is_active] and
    [created_at], so these three are undefined and are left out of the
    JSON; the secret does not appear. *)
Theorem get_merchant_webhooks_ids (address : string) (db : DB) :
  get_merchant_webhooks created_at_of address db
  = (λ wc, [("id"%string, JsNumber (wc_id wc))])
    <$> getWebhooksByMerchant address db.
Proof.
  unfold get_merchant_webhooks. apply list_fmap_ext. intros i wc _.
  reflexivity.
Qed.
End WebhookListProperties.
